(** * JSON database functions and task utilities of Django

    A shallow embedding of
    - [django/db/models/functions/json.py]: the expression nodes
      [JSONObject], [JSONSet] and [JSONRemove] and their per-backend
      compilation methods ([as_sql], [as_postgresql], [as_oracle]);
    - [django/tasks/utils.py]: the [retry] decorator.

    Python exceptions are values of [Exn]; a call either returns, raises,
    or (for the fuel-indexed interpreter of the mutually recursive
    compilation methods) runs out of fuel. *)

From Stdlib Require Import String Ascii List ZArith Lia Bool Arith PeanoNat.
Import ListNotations.
Local Open Scope string_scope.
Local Open Scope list_scope.
Set Warnings "-register-all".

(** String concatenation, written apart from list concatenation. *)
Infix "+++" := String.append (right associativity, at level 60).

(** ** Python results *)

Inductive Exn : Type :=
| NotSupportedError (msg : string)
| TypeError (msg : string)
| ValueError (msg : string)
| AttributeError (msg : string)
| IndexError (msg : string).

Inductive outcome (A : Type) : Type :=
| Ok (a : A)
| Raise (e : Exn)
| OutOfFuel.
Arguments Ok {A} a.
Arguments Raise {A} e.
Arguments OutOfFuel {A}.

Definition bind {A B : Type} (m : outcome A) (k : A -> outcome B) : outcome B :=
  match m with
  | Ok a => k a
  | Raise e => Raise e
  | OutOfFuel => OutOfFuel
  end.

Notation "x <- m ;; k" := (bind m (fun x => k))
  (at level 61, m at next level, right associativity).
Notation "' pat <- m ;; k" := (bind m (fun x => match x with pat => k end))
  (at level 61, pat pattern, m at next level, right associativity).

(** [[f(x) for x in xs]] where [f] may raise: left to right, the first
    exception aborts the comprehension. *)
Fixpoint mapM {A B : Type} (f : A -> outcome B) (xs : list A) : outcome (list B) :=
  match xs with
  | [] => Ok []
  | x :: xs' =>
      y <- f x ;;
      ys <- mapM f xs' ;;
      Ok (y :: ys)
  end.

(** ** Python strings *)

(** [sep.join(parts)] *)
Definition str_join (sep : string) (parts : list string) : string :=
  String.concat sep parts.

(** [s.split(sep)] for a non-empty separator: non-overlapping occurrences
    of [sep] are found left to right.  [skip] counts the characters of an
    occurrence of [sep] that are still to be dropped, [cur] is the segment
    read so far. *)
Fixpoint split_go (sep : string) (s : string) (skip : nat) (cur : string)
  : list string :=
  match s with
  | EmptyString => [cur]
  | String c s' =>
      match skip with
      | S k => split_go sep s' k cur
      | O =>
          if String.prefix sep s
          then cur :: split_go sep s' (String.length sep - 1) EmptyString
          else split_go sep s' 0 (cur +++ String c EmptyString)
      end
  end.

Definition str_split (s sep : string) : list string := split_go sep s 0 EmptyString.

(** [django.db.models.constants.LOOKUP_SEP] *)
Definition LOOKUP_SEP : string := "__".

(** The character U+FFFF (UTF-8 encoded), the delimiter of Oracle's
    [q'...'] quoting used by [JSONSet.join] and [JSONRemove.join]. *)
Definition uffff : string :=
  String (ascii_of_nat 239) (String (ascii_of_nat 191) (String (ascii_of_nat 191) EmptyString)).

(** ** Python dictionaries as insertion-ordered association lists *)

Section Dict.
Context {V : Type}.

Definition dict : Type := list (string * V).

(** [d[k] = v]: an existing key keeps its position. *)
Fixpoint dict_set (d : dict) (k : string) (v : V) : dict :=
  match d with
  | [] => [(k, v)]
  | (k', v') :: d' =>
      if String.eqb k' k then (k', v) :: d' else (k', v') :: dict_set d' k v
  end.

(** [dict(items)] *)
Definition dict_of_items (items : list (string * V)) : dict :=
  fold_left (fun d kv => dict_set d (fst kv) (snd kv)) items [].

Fixpoint key_in (k : string) (d : dict) : bool :=
  match d with
  | [] => false
  | (k', _) :: d' => String.eqb k' k || key_in k d'
  end.

(** The representation invariant of a dictionary: no key twice. *)
Fixpoint keys_unique (d : dict) : bool :=
  match d with
  | [] => true
  | (k, _) :: d' => negb (key_in k d') && keys_unique d'
  end.
End Dict.
Arguments dict V : clear implicits.

(** ** Expression nodes *)

(** Plain Python values that occur as literals and as query parameters. *)
Inductive PyVal : Type :=
| PNone
| PStr (s : string)
| PInt (z : Z)
| PBool (b : bool)
| PStrList (l : list string)
| PObject.

(** The output type tag of an expression: JSON, text, or anything else. *)
Inductive Field : Type := JSONField | TextField | OtherField.

Definition is_JSONField (f : Field) : bool :=
  match f with JSONField => true | _ => false end.

(** A query parameter: the value handed to the driver, prepared by a JSON
    field ([Json], the value is serialised as a JSON document) or by any
    other field ([Plain]). *)
Inductive Param : Type :=
| Plain (v : PyVal)
| Json (v : PyVal).

(** Compiled SQL: the text with [%s] placeholders and its parameters. *)
Definition SQL : Type := (string * list Param)%type.

(** Expression trees.
    - [Raw v] is a plain Python object standing where an expression is
      expected (it has neither [resolve_expression] nor [as_sql]);
    - [Ext sql params f] is a resolved expression of the surrounding ORM
      (a column reference, say) that compiles to [sql] and [params] on
      every backend and has output field [f];
    - [Value value output_field] is [Value(value, output_field=...)];
    - [Cast e f] is [Cast(e, output_field=f)];
    - [ToJSONB e output_field] is [ToJSONB(e, output_field=...)];
    - the three builders carry their [source_expressions] list, and
      [JSONSet] its [fields] dictionary, [JSONRemove] its [paths] tuple. *)
Inductive Expr : Type :=
| Raw (v : PyVal)
| Ext (sql : string) (params : list Param) (output_field : Field)
| Value (value : Expr) (output_field : option Field)
| Cast (expression : Expr) (output_field : Field)
| ToJSONB (expression : Expr) (output_field : option Field)
| JSONObject (source_expressions : list Expr)
| JSONSet (source_expressions : list Expr) (output_field : option Field)
          (fields : list (string * Expr))
| JSONRemove (source_expressions : list Expr) (output_field : option Field)
             (paths : list string).

(** [hasattr(value, "resolve_expression")] *)
Definition has_resolve_expression (e : Expr) : bool :=
  match e with Raw _ => false | _ => true end.

(** [isinstance(value, Value)] *)
Definition isinstance_Value (e : Expr) : bool :=
  match e with Value _ _ => true | _ => false end.

(** [value.value is None] for a [Value] *)
Definition value_is_None (e : Expr) : bool :=
  match e with Value (Raw PNone) _ => true | _ => false end.

(** Modelled from the spec: the [output_field] property of an expression
    (django/db/models/expressions.py is not under src/).  A node carries
    "an output type tag (generic / JSON)"; a declared output field wins,
    [JSONObject] declares [JSONField()] in its class body, and a function
    without a declared output field takes the one of its first source
    expression ("optional declared output type"). *)
Fixpoint output_field_of (e : Expr) : Field :=
  match e with
  | Raw _ => OtherField
  | Ext _ _ f => f
  | Value _ (Some f) => f
  | Value _ None => OtherField
  | Cast _ f => f
  | ToJSONB e' o => match o with Some f => f | None => output_field_of e' end
  | JSONObject _ => JSONField
  | JSONSet srcs o _ =>
      match o with
      | Some f => f
      | None => match srcs with s :: _ => output_field_of s | [] => OtherField end
      end
  | JSONRemove srcs o _ =>
      match o with
      | Some f => f
      | None => match srcs with s :: _ => output_field_of s | [] => OtherField end
      end
  end.

(** ** Constructors *)

(** [JSONObject.__init__(self, **fields)] *)
Definition JSONObject_init (fields : dict Expr) : Expr :=
  let expressions :=
    fold_left (fun expressions kv => expressions ++ [Value (Raw (PStr (fst kv))) None; snd kv])
              fields [] in
  JSONObject expressions.

(** [JSONSet.__init__(self, expression, output_field=None, **fields)] *)
Definition JSONSet_init (expression : Expr) (output_field : option Field)
           (fields : dict Expr) : outcome Expr :=
  match fields with
  | [] => Raise (TypeError "JSONSet requires at least one key-value pair to be set.")
  | _ => Ok (JSONSet [expression] output_field fields)
  end.

(** [JSONRemove.__init__(self, expression, *paths, **kwargs)]; of the
    keyword arguments only [output_field] is modelled. *)
Definition JSONRemove_init (expression : Expr) (paths : list string)
           (output_field : option Field) : outcome Expr :=
  match paths with
  | [] => Raise (TypeError "JSONRemove requires at least one path to remove")
  | _ => Ok (JSONRemove [expression] output_field paths)
  end.

(** [JSONSet.resolve_expression]: the source expressions are resolved by
    the base class, then every update value that is an expression is
    resolved and every other value is wrapped in a [Value] typed with the
    output field of the resolved node.  Expressions of this model are
    resolved already, so resolving descends into the builders only. *)
Fixpoint resolve_expression (e : Expr) : Expr :=
  match e with
  | Raw v => Raw v
  | Ext s p f => Ext s p f
  | Value v o => Value v o
  | Cast e' f => Cast (resolve_expression e') f
  | ToJSONB e' o => ToJSONB (resolve_expression e') o
  | JSONObject srcs => JSONObject (map resolve_expression srcs)
  | JSONSet srcs o fields =>
      let c_sources := map resolve_expression srcs in
      let c_output_field := output_field_of (JSONSet c_sources o fields) in
      JSONSet c_sources o
        (map (fun kv =>
                (fst kv,
                 if has_resolve_expression (snd kv)
                 then resolve_expression (snd kv)
                 else Value (snd kv) (Some c_output_field)))
             fields)
  | JSONRemove srcs o paths => JSONRemove (map resolve_expression srcs) o paths
  end.

(** ** Backends *)

Inductive Vendor : Type := Sqlite | MySQL | PostgreSQL | Oracle.

Record Features : Type := {
  has_json_object_function : bool;
  supports_partial_json_update : bool;
  is_postgresql_16 : bool
}.

(** The connection: its vendor name, its feature flags, and the column
    type an output field is cast to ([output_field.cast_db_type(connection)]). *)
Record Connection : Type := {
  vendor : Vendor;
  features : Features;
  cast_db_type : Field -> string
}.

(** ** Templates and argument joiners of [Func.as_sql] *)

(** A template is a [%]-format string over the keys [function] and
    [expressions]; it is kept as the list of its pieces. *)
Inductive TemplatePart : Type :=
| TLit (s : string)
| TFunction
| TExpressions.

Definition Template : Type := list TemplatePart.

(** [Func.template = "%(function)s(%(expressions)s)"] *)
Definition Func_template : Template := [TFunction; TLit "("; TExpressions; TLit ")"].

(** [Func.arg_joiner = ", "] *)
Definition Func_arg_joiner : string := ", ".

(** [template % data] *)
Definition render (t : Template) (function : option string) (expressions : string) : string :=
  String.concat ""
    (map (fun part =>
            match part with
            | TLit s => s
            | TFunction => match function with Some f => f | None => "None" end
            | TExpressions => expressions
            end) t).

(** An argument joiner is a string, or a node whose [join] method is used
    ([arg_joiner=self]). *)
Inductive Joiner : Type :=
| JoinStr (sep : string)
| JoinObj (node : Expr).

(** [args[::2]] and [args[1::2]] *)
Fixpoint evens {A : Type} (l : list A) : list A :=
  match l with
  | [] => []
  | x :: l' => x :: match l' with [] => [] | _ :: l'' => evens l'' end
  end.

Definition odds {A : Type} (l : list A) : list A :=
  match l with [] => [] | _ :: l' => evens l' end.

(** [list(zip(a, b, strict=True))] *)
Fixpoint zip_strict {A B : Type} (a : list A) (b : list B) : outcome (list (A * B)) :=
  match a, b with
  | [], [] => Ok []
  | x :: a', y :: b' => r <- zip_strict a' b' ;; Ok ((x, y) :: r)
  | _ :: _, [] => Raise (ValueError "zip() argument 2 is shorter than argument 1")
  | [], _ :: _ => Raise (ValueError "zip() argument 2 is longer than argument 1")
  end.

(** [JSONObject.join(self, args)] *)
Definition JSONObject_join (args : list string) : outcome string :=
  pairs <- zip_strict (evens args) (odds args) ;;
  Ok (str_join ", " (map (fun kv => "(" +++ fst kv +++ ") VALUE " +++ snd kv) pairs)).

Section Compilation.

(** [django.db.models.fields.json.compile_json_path] is not under src/:
    it is a parameter of the development. *)
Variable compile_json_path : list string -> string.

(** [JSONSet.join(self, args)] *)
Definition JSONSet_join (self_fields : dict Expr) (args : list string) : outcome string :=
  match self_fields with
  | [] => Raise (IndexError "list index out of range")
  | (key, value) :: _ =>
      let key_paths := str_split key LOOKUP_SEP in
      let key_paths_join := compile_json_path key_paths in
      match args with
      | [] => Raise (IndexError "list index out of range")
      | arg0 :: _ =>
          let template :=
            arg0 +++ ", SET q'" +++ uffff +++ key_paths_join +++ uffff +++ "' = "
                 +++ last args "" in
          if isinstance_Value value
          then Ok (template +++ " FORMAT JSON")
          else Ok template
      end
  end.

(** [JSONRemove.join(self, args)] *)
Definition JSONRemove_join (self_paths : list string) (args : list string) : outcome string :=
  match self_paths with
  | [] => Raise (IndexError "tuple index out of range")
  | path :: _ =>
      let key_paths := str_split path LOOKUP_SEP in
      let key_paths_join := compile_json_path key_paths in
      match args with
      | [] => Raise (IndexError "list index out of range")
      | arg0 :: _ => Ok (arg0 +++ ", REMOVE q'" +++ uffff +++ key_paths_join +++ uffff +++ "'")
      end
  end.

(** [arg_joiner.join(sql_parts)] *)
Definition join_with (j : Joiner) (args : list string) : outcome string :=
  match j with
  | JoinStr sep => Ok (str_join sep args)
  | JoinObj (JSONObject _) => JSONObject_join args
  | JoinObj (JSONSet _ _ fields) => JSONSet_join fields args
  | JoinObj (JSONRemove _ _ paths) => JSONRemove_join paths args
  | JoinObj _ => Raise (AttributeError "join")
  end.

(** Modelled from the spec: [Func.as_sql] (django/db/models/expressions.py
    is not under src/).  The node "offers compile child expression to
    (sql_text, params)": every source expression is compiled in order,
    the texts are joined with the argument joiner and put into the
    template, the parameters are concatenated; the spec's
    [JSON_SET(col, '$.a.b', 5)]-shaped call is the default template with
    the default joiner.  [function], [template] and [arg_joiner] override
    the class attributes when given. *)
Definition Func_as_sql (compile : Expr -> outcome SQL)
           (source_expressions : list Expr) (class_function : option string)
           (function : option string) (template : option Template)
           (arg_joiner : option Joiner) : outcome SQL :=
  compiled <- mapM compile source_expressions ;;
  let sql_parts := map fst compiled in
  let params := concat (map snd compiled) in
  let function := match function with Some f => Some f | None => class_function end in
  let template := match template with Some t => t | None => Func_template end in
  let arg_joiner := match arg_joiner with Some j => j | None => JoinStr Func_arg_joiner end in
  expressions <- join_with arg_joiner sql_parts ;;
  Ok (render template function expressions, params).

(** Modelled from the spec: [Value.as_sql] (not under src/).  A literal
    is sent as a parameter behind a [%s] placeholder; a value typed as
    JSON is serialised by the JSON field ("typed JSON null"), an untyped
    [None] is the SQL keyword [NULL] ("ordinary SQL NULL").  A JSON field
    unwraps a JSON-typed [Value] it is handed. *)
Definition Value_as_sql (value : Expr) (output_field : option Field) : SQL :=
  match output_field with
  | Some JSONField =>
      match value with
      | Raw v => ("%s", [Json v])
      | Value (Raw v) (Some JSONField) => ("%s", [Json v])
      | _ => ("%s", [Json PObject])
      end
  | _ =>
      match value with
      | Raw PNone => ("NULL", [])
      | Raw v => ("%s", [Plain v])
      | _ => ("%s", [Plain PObject])
      end
  end.

(** Modelled from the spec: [Cast.as_sql] and [Cast.as_postgresql] (not
    under src/), "a type-cast primitive for declaring a value's SQL type
    explicitly": [CAST(x AS type)], and [(x)::type] on PostgreSQL. *)
Definition Cast_as_sql (compile : Expr -> outcome SQL) (conn : Connection)
           (expression : Expr) (output_field : Field) : outcome SQL :=
  '(sql, params) <- compile expression ;;
  Ok ("CAST(" +++ sql +++ " AS " +++ cast_db_type conn output_field +++ ")", params).

Definition Cast_as_postgresql (compile : Expr -> outcome SQL) (conn : Connection)
           (expression : Expr) (output_field : Field) : outcome SQL :=
  '(sql, params) <- compile expression ;;
  Ok ("(" +++ sql +++ ")::" +++ cast_db_type conn output_field, params).

(** *** [JSONObject] *)

(** [JSONObject.as_sql(self, compiler, connection, **extra_context)] *)
Definition JSONObject_as_sql (compile : Expr -> outcome SQL) (conn : Connection)
           (self_sources : list Expr)
           (function : option string) (template : option Template)
           (arg_joiner : option Joiner) : outcome SQL :=
  if negb (has_json_object_function (features conn))
  then Raise (NotSupportedError "JSONObject() is not supported on this database backend.")
  else Func_as_sql compile self_sources (Some "JSON_OBJECT") function template arg_joiner.

(** [JSONObject.as_native(self, compiler, connection, *, returning)] *)
Definition JSONObject_as_native (compile : Expr -> outcome SQL) (conn : Connection)
           (self_sources : list Expr) (returning : string) : outcome SQL :=
  JSONObject_as_sql compile conn self_sources None
    (Some [TFunction; TLit "("; TExpressions; TLit (" RETURNING " +++ returning +++ ")")])
    (Some (JoinObj (JSONObject self_sources))).

(** [[Cast(e, TextField()) if index % 2 == 0 else e for index, e in enumerate(l)]] *)
Definition cast_keys (l : list Expr) : list Expr :=
  map (fun ie => if Nat.even (fst ie) then Cast (snd ie) TextField else snd ie)
      (combine (seq 0 (length l)) l).

(** [JSONObject.as_postgresql] *)
Definition JSONObject_as_postgresql (compile : Expr -> outcome SQL) (conn : Connection)
           (self_sources : list Expr) : outcome SQL :=
  let copy_sources := cast_keys self_sources in
  if is_postgresql_16 (features conn)
  then JSONObject_as_native compile conn copy_sources "JSONB"
  else Func_as_sql compile copy_sources (Some "JSON_OBJECT")
                   (Some "JSONB_BUILD_OBJECT") None None.

(** [JSONObject.as_oracle] *)
Definition JSONObject_as_oracle (compile : Expr -> outcome SQL) (conn : Connection)
           (self_sources : list Expr) : outcome SQL :=
  JSONObject_as_native compile conn self_sources "CLOB".

(** *** [JSONSet] *)

(** [JSONSet.as_sql]: the keyword parameters [function], [template] and
    [arg_joiner] are accepted and not passed on. *)
Definition JSONSet_as_sql (compile : Expr -> outcome SQL) (conn : Connection)
           (self_sources : list Expr) (self_declared : option Field)
           (self_fields : dict Expr) : outcome SQL :=
  if negb (supports_partial_json_update (features conn))
  then Raise (NotSupportedError "JSONSet() is not supported on this database backend.")
  else
    let self_output_field := output_field_of (JSONSet self_sources self_declared self_fields) in
    let new_source_expressions :=
      fold_left
        (fun new_source_expressions kv =>
           let key_paths := str_split (fst kv) LOOKUP_SEP in
           let key_paths_join := compile_json_path key_paths in
           let value :=
             if isinstance_Value (snd kv)
             then Cast (snd kv) self_output_field
             else snd kv in
           new_source_expressions ++ [Value (Raw (PStr key_paths_join)) None; value])
        self_fields self_sources in
    Func_as_sql compile new_source_expressions None (Some "JSON_SET") None None.

(** Lines 169-181 of [JSONSet.as_postgresql]: the value handed to
    [JSONB_SET]. *)
Definition JSONSet_postgresql_value (self_output_field : Field) (value : Expr) : Expr :=
  if has_resolve_expression value && negb (is_JSONField (output_field_of value))
  then ToJSONB value (Some self_output_field)
  else if isinstance_Value value && value_is_None value
  then Value (Raw PNone) (Some self_output_field)
  else value.

(** [JSONSet.as_postgresql]; [as_postgresql] is the method itself, for
    the call on the node built from the remaining pairs. *)
Definition JSONSet_as_postgresql (compile : Expr -> outcome SQL)
           (as_postgresql : Expr -> outcome SQL) (conn : Connection)
           (self_sources : list Expr) (self_declared : option Field)
           (self_fields : dict Expr) : outcome SQL :=
  match self_fields with
  | [] => Raise (IndexError "list index out of range")
  | (key, value) :: rest =>
      match rest with
      | _ :: _ =>
          let copy := JSONSet self_sources self_declared [(key, value)] in
          node <- JSONSet_init copy None (dict_of_items rest) ;;
          as_postgresql node
      | [] =>
          let self_output_field :=
            output_field_of (JSONSet self_sources self_declared self_fields) in
          let key_paths := str_split key LOOKUP_SEP in
          let new_source_expressions :=
            self_sources ++ [Value (Raw (PStrList key_paths)) None;
                             JSONSet_postgresql_value self_output_field value] in
          Func_as_sql compile new_source_expressions None (Some "JSONB_SET") None None
      end
  end.

(** [JSONSet.as_oracle] *)
Definition JSONSet_as_oracle (compile : Expr -> outcome SQL)
           (as_oracle : Expr -> outcome SQL) (conn : Connection)
           (self_sources : list Expr) (self_declared : option Field)
           (self_fields : dict Expr) : outcome SQL :=
  if negb (supports_partial_json_update (features conn))
  then Raise (NotSupportedError "JSONSet() is not supported on this database backend.")
  else
    match self_fields with
    | [] => Raise (IndexError "list index out of range")
    | (key, value) :: rest =>
        match rest with
        | _ :: _ =>
            let copy := JSONSet self_sources self_declared [(key, value)] in
            node <- JSONSet_init copy None (dict_of_items rest) ;;
            as_oracle node
        | [] =>
            let self_output_field :=
              output_field_of (JSONSet self_sources self_declared self_fields) in
            let value' :=
              if isinstance_Value value
              then Value value (Some self_output_field)
              else value in
            let new_source_expressions := self_sources ++ [value'] in
            Func_as_sql compile new_source_expressions None (Some "JSON_TRANSFORM") None
                        (Some (JoinObj (JSONSet self_sources self_declared self_fields)))
        end
    end.

(** *** [JSONRemove] *)

(** [JSONRemove.as_sql] *)
Definition JSONRemove_as_sql (compile : Expr -> outcome SQL) (conn : Connection)
           (self_sources : list Expr) (self_paths : list string) : outcome SQL :=
  if negb (supports_partial_json_update (features conn))
  then Raise (NotSupportedError "JSONRemove() is not supported on this database backend.")
  else
    let new_source_expressions :=
      fold_left
        (fun new_source_expressions path =>
           let key_paths := str_split path LOOKUP_SEP in
           let key_paths_join := compile_json_path key_paths in
           new_source_expressions ++ [Value (Raw (PStr key_paths_join)) None])
        self_paths self_sources in
    Func_as_sql compile new_source_expressions None (Some "JSON_REMOVE") None None.

(** [JSONRemove.as_postgresql] *)
Definition JSONRemove_as_postgresql (compile : Expr -> outcome SQL)
           (as_postgresql : Expr -> outcome SQL) (conn : Connection)
           (self_sources : list Expr) (self_declared : option Field)
           (self_paths : list string) : outcome SQL :=
  match self_paths with
  | [] => Raise (ValueError "not enough values to unpack (expected at least 1, got 0)")
  | path :: rest =>
      match rest with
      | _ :: _ =>
          let copy := JSONRemove self_sources self_declared [path] in
          node <- JSONRemove_init copy rest None ;;
          as_postgresql node
      | [] =>
          let key_paths := str_split path LOOKUP_SEP in
          let new_source_expressions :=
            self_sources ++ [Value (Raw (PStrList key_paths)) None] in
          Func_as_sql compile new_source_expressions None None
                      (Some [TExpressions]) (Some (JoinStr "#- "))
      end
  end.

(** [JSONRemove.as_oracle] *)
Definition JSONRemove_as_oracle (compile : Expr -> outcome SQL)
           (as_oracle : Expr -> outcome SQL) (conn : Connection)
           (self_sources : list Expr) (self_declared : option Field)
           (self_paths : list string) : outcome SQL :=
  if negb (supports_partial_json_update (features conn))
  then Raise (NotSupportedError "JSONRemove() is not supported on this database backend.")
  else
    match self_paths with
    | [] => Raise (ValueError "not enough values to unpack (expected at least 1, got 0)")
    | path :: rest =>
        match rest with
        | _ :: _ =>
            let copy := JSONRemove self_sources self_declared [path] in
            node <- JSONRemove_init copy rest None ;;
            as_oracle node
        | [] =>
            Func_as_sql compile self_sources None (Some "JSON_TRANSFORM") None
                        (Some (JoinObj (JSONRemove self_sources self_declared self_paths)))
        end
    end.

(** *** The compiler *)

(** The methods an expression is compiled through: [compiler.compile]
    and the [as_<vendor>] family. *)
Inductive Method : Type := M_compile | M_as_sql | M_as_postgresql | M_as_oracle.

(** ["as_" + connection.vendor]; no modelled class has [as_sqlite] or
    [as_mysql]. *)
Definition vendor_method (v : Vendor) : option Method :=
  match v with
  | PostgreSQL => Some M_as_postgresql
  | Oracle => Some M_as_oracle
  | Sqlite | MySQL => None
  end.

(** [getattr(node, name, None) is not None] *)
Definition has_method (e : Expr) (m : Method) : bool :=
  match m, e with
  | M_compile, _ => false
  | _, Raw _ => false
  | M_as_sql, _ => true
  | M_as_postgresql, (Cast _ _ | JSONObject _ | JSONSet _ _ _ | JSONRemove _ _ _) => true
  | M_as_oracle, (JSONObject _ | JSONSet _ _ _ | JSONRemove _ _ _) => true
  | _, _ => false
  end.

(** One method call on a node; [call] runs the calls it makes (children
    through [M_compile], the rebuilt node through the method itself). *)
Definition run_method (call : Method -> Expr -> outcome SQL) (conn : Connection)
           (m : Method) (e : Expr) : outcome SQL :=
  let compile := call M_compile in
  match m, e with
  | M_as_sql, Ext sql params _ => Ok (sql, params)
  | M_as_sql, Value v o => Ok (Value_as_sql v o)
  | M_as_sql, Cast e' f => Cast_as_sql compile conn e' f
  | M_as_postgresql, Cast e' f => Cast_as_postgresql compile conn e' f
  | M_as_sql, ToJSONB e' _ => Func_as_sql compile [e'] (Some "TO_JSONB") None None None
  | M_as_sql, JSONObject srcs => JSONObject_as_sql compile conn srcs None None None
  | M_as_postgresql, JSONObject srcs => JSONObject_as_postgresql compile conn srcs
  | M_as_oracle, JSONObject srcs => JSONObject_as_oracle compile conn srcs
  | M_as_sql, JSONSet srcs o fields => JSONSet_as_sql compile conn srcs o fields
  | M_as_postgresql, JSONSet srcs o fields =>
      JSONSet_as_postgresql compile (call M_as_postgresql) conn srcs o fields
  | M_as_oracle, JSONSet srcs o fields =>
      JSONSet_as_oracle compile (call M_as_oracle) conn srcs o fields
  | M_as_sql, JSONRemove srcs _ paths => JSONRemove_as_sql compile conn srcs paths
  | M_as_postgresql, JSONRemove srcs o paths =>
      JSONRemove_as_postgresql compile (call M_as_postgresql) conn srcs o paths
  | M_as_oracle, JSONRemove srcs o paths =>
      JSONRemove_as_oracle compile (call M_as_oracle) conn srcs o paths
  | M_as_sql, Raw _ => Raise (AttributeError "as_sql")
  | M_as_postgresql, _ => Raise (AttributeError "as_postgresql")
  | M_as_oracle, _ => Raise (AttributeError "as_oracle")
  | M_compile, _ => Raise (AttributeError "compile")
  end.

(** Modelled from the spec: [SQLCompiler.compile(node)] (not under src/):
    "the active backend identifier selects among backend-specific
    compilation strategies", "default variant used when no specialized
    entry exists". *)
Definition compiler_compile (call : Method -> Expr -> outcome SQL) (conn : Connection)
           (node : Expr) : outcome SQL :=
  match vendor_method (vendor conn) with
  | Some vendor_impl =>
      if has_method node vendor_impl
      then run_method call conn vendor_impl node
      else run_method call conn M_as_sql node
  | None => run_method call conn M_as_sql node
  end.

(** The methods call each other and themselves on nodes they build, so
    the interpreter is indexed by the depth of calls it may still make. *)
Fixpoint call (fuel : nat) (conn : Connection) (m : Method) (e : Expr) : outcome SQL :=
  match fuel with
  | O => OutOfFuel
  | S fuel' =>
      match m with
      | M_compile => compiler_compile (call fuel' conn) conn e
      | _ => run_method (call fuel' conn) conn m e
      end
  end.

(** A bound on the depth of calls below a method call on [e]. *)
Fixpoint fuel_of (e : Expr) : nat :=
  match e with
  | Raw _ | Ext _ _ _ | Value _ _ => 1
  | Cast e' _ | ToJSONB e' _ => S (fuel_of e')
  | JSONObject srcs => 2 + list_sum (map fuel_of srcs)
  | JSONSet srcs _ fields =>
      1 + list_sum (map fuel_of srcs) + length fields * length fields
        + list_sum (map (fun kv => 2 + fuel_of (snd kv)) fields)
  | JSONRemove srcs _ paths =>
      1 + list_sum (map fuel_of srcs) + length paths * length paths
  end.

(** The methods as total functions: a call with the fuel its node needs. *)
Definition invoke (conn : Connection) (m : Method) (e : Expr) : outcome SQL :=
  call (fuel_of e) conn m e.

Definition compile (conn : Connection) : Expr -> outcome SQL := invoke conn M_compile.
Definition as_sql (conn : Connection) : Expr -> outcome SQL := invoke conn M_as_sql.
Definition as_postgresql (conn : Connection) : Expr -> outcome SQL :=
  invoke conn M_as_postgresql.
Definition as_oracle (conn : Connection) : Expr -> outcome SQL := invoke conn M_as_oracle.

(** *** The shape of the compiled calls *)

(** One application of [JSONB_SET] to a compiled target, a key and a
    compiled value: the path is a parameter. *)
Definition jsonb_set_call (target : SQL) (key : string) (value : SQL) : SQL :=
  ("JSONB_SET(" +++ fst target +++ ", %s, " +++ fst value +++ ")",
   snd target ++ [Plain (PStrList (str_split key LOOKUP_SEP))] ++ snd value).

(** One application of [JSON_TRANSFORM] with a [SET] clause; [format_json]
    tells whether the update value is a [Value]. *)
Definition json_transform_set_call (target : SQL) (key : string) (format_json : bool)
           (value : SQL) : SQL :=
  ("JSON_TRANSFORM(" +++ fst target +++ ", SET q'" +++ uffff
     +++ compile_json_path (str_split key LOOKUP_SEP) +++ uffff +++ "' = "
     +++ fst value +++ (if format_json then " FORMAT JSON" else "") +++ ")",
   snd target ++ snd value).

(** One application of the delete-path operator [#-]. *)
Definition delete_path_call (target : SQL) (path : string) : SQL :=
  (fst target +++ "#- %s",
   snd target ++ [Plain (PStrList (str_split path LOOKUP_SEP))]).

(** The value [JSONSet.as_oracle] hands to [JSON_TRANSFORM]. *)
Definition JSONSet_oracle_value (self_output_field : Field) (value : Expr) : Expr :=
  if isinstance_Value value then Value value (Some self_output_field) else value.

End Compilation.

(** ** [django.tasks.utils.retry] *)

Section Retry.

(** The wrapped function [f] is called with the same arguments on every
    attempt; what it does is a function of the state of the world it
    runs in.  [Ret] are its return values, [Err] the exceptions other
    than [KeyboardInterrupt], [Delay] the type of [backoff_delay]. *)
Variables World Ret Err Delay : Type.

Inductive Raised : Type :=
| KeyboardInterrupt
| BaseException (e : Err).

Inductive Attempt : Type :=
| Returns (v : Ret)
| Raises (x : Raised).

(** What the wrapper does to its environment: calls of [f] and
    [time.sleep(backoff_delay)], in order. *)
Inductive Event : Type :=
| Called
| Slept (d : Delay).

(** The result of [inner_wrapper]: the value of [f], [None] when the
    loop ends without an attempt returning, or a raised exception. *)
Inductive WrapperResult : Type :=
| Returned (v : Ret)
| ReturnedNone
| Raised_ (x : Raised).

Variable f : World -> Attempt * World.

(** [range(a, b)] *)
Definition py_range (a b : Z) : list Z :=
  map (fun i => (a + Z.of_nat i)%Z) (seq 0 (Z.to_nat (b - a))).

(** The [for attempt in ...] loop of [inner_wrapper] over the attempts
    still to make. *)
Fixpoint retry_loop (retries : Z) (backoff_delay : Delay) (attempts : list Z)
         (w : World) (log : list Event) : WrapperResult * World * list Event :=
  match attempts with
  | [] => (ReturnedNone, w, log)
  | attempt :: attempts' =>
      let (r, w') := f w in
      let log' := log ++ [Called] in
      match r with
      | Returns v => (Returned v, w', log')
      | Raises KeyboardInterrupt => (Raised_ KeyboardInterrupt, w', log')
      | Raises (BaseException e) =>
          if (attempt =? retries)%Z
          then (Raised_ (BaseException e), w', log')
          else retry_loop retries backoff_delay attempts' w' (log' ++ [Slept backoff_delay])
      end
  end.

(** A call of [f] decorated with [retry(retries=..., backoff_delay=...)] *)
Definition retry (retries : Z) (backoff_delay : Delay) (w : World)
  : WrapperResult * World * list Event :=
  retry_loop retries backoff_delay (py_range 1 (retries + 1)) w [].

(** The number of calls of [f] in a log. *)
Definition call_count (log : list Event) : nat :=
  length (filter (fun ev => match ev with Called => true | Slept _ => false end) log).

(** The world after [n] consecutive calls of [f], and the outcome of
    the [k]-th call (counted from 1). *)
Fixpoint world_after (n : nat) (w : World) : World :=
  match n with
  | O => w
  | S n' => world_after n' (snd (f w))
  end.

Definition attempt_outcome (k : nat) (w : World) : Attempt :=
  fst (f (world_after (k - 1) w)).

Definition raises_other (a : Attempt) : Prop :=
  exists e, a = Raises (BaseException e).

End Retry.

Arguments KeyboardInterrupt {Err}.
Arguments BaseException {Err} e.
Arguments Returns {Ret Err} v.
Arguments Raises {Ret Err} x.
Arguments Called {Delay}.
Arguments Slept {Delay} d.
Arguments Returned {Ret Err} v.
Arguments ReturnedNone {Ret Err}.
Arguments Raised_ {Ret Err} x.
Arguments retry {World Ret Err Delay} f retries backoff_delay w.
Arguments retry_loop {World Ret Err Delay} f retries backoff_delay attempts w log.
Arguments call_count {Delay} log.
Arguments world_after {World Ret Err} f n w.
Arguments attempt_outcome {World Ret Err} f k w.
Arguments raises_other {Ret Err} a.

(** ** Instance attributes and [_get_repr_options] *)

(** The values of the instance attributes the constructors assign. *)
Inductive AttrVal : Type :=
| AExprs (l : list Expr)
| AFields (d : dict Expr)
| APaths (l : list string)
| AField (f : Field)
| AExtra.

(** The [__dict__] of a node after its [__init__]: [JSONSet.__init__]
    assigns [self.fields], [JSONRemove.__init__] assigns [self.paths], and
    both call the constructor of [Func], which assigns the source
    expressions, the extra keyword arguments and a declared output field. *)
Definition Func_init_dict (source_expressions : list Expr) (output_field : option Field)
  : dict AttrVal :=
  [("source_expressions", AExprs source_expressions); ("extra", AExtra)]
    ++ match output_field with Some f => [("output_field", AField f)] | None => [] end.

Definition instance_dict (self : Expr) : dict AttrVal :=
  match self with
  | JSONSet srcs o fields => ("fields", AFields fields) :: Func_init_dict srcs o
  | JSONRemove srcs o paths => ("paths", APaths paths) :: Func_init_dict srcs o
  | JSONObject srcs => Func_init_dict srcs None
  | ToJSONB e o => Func_init_dict [e] o
  | Cast e f => Func_init_dict [e] (Some f)
  | _ => []
  end.

Fixpoint dict_get {V : Type} (d : dict V) (k : string) : option V :=
  match d with
  | [] => None
  | (k', v) :: d' => if String.eqb k' k then Some v else dict_get d' k
  end.

(** [self.<name>] for a name that is no class attribute. *)
Definition getattr (self : Expr) (name : string) : outcome AttrVal :=
  match dict_get (instance_dict self) name with
  | Some v => Ok v
  | None => Raise (AttributeError ("object has no attribute '" +++ name +++ "'"))
  end.

(** [{**a, **b}] *)
Definition dict_merge {V : Type} (a b : dict V) : dict V :=
  fold_left (fun d kv => dict_set d (fst kv) (snd kv)) b a.

(** [JSONSet._get_repr_options] and [JSONRemove._get_repr_options] have
    the same body, [{**super().get_repr_options(), **self.fields}].  The
    base class is not under src/: [super_get_repr_options] is the outcome
    of the call [super().get_repr_options()], evaluated first. *)
Definition get_repr_options (super_get_repr_options : outcome (dict Expr)) (self : Expr)
  : outcome (dict Expr) :=
  base <- super_get_repr_options ;;
  fields <- getattr self "fields" ;;
  match fields with
  | AFields d => Ok (dict_merge base d)
  | _ => Raise (TypeError "object is not a mapping")
  end.

(** Modelled from the spec: the base class [Func] is not under src/.  These
    are the attributes of [Func] that [JSONSet] and [JSONRemove] call or
    override; its representation hook is [_get_repr_options], with the
    leading underscore, and it has no attribute [get_repr_options]. *)
Definition Func_attributes : list string :=
  ["__init__"; "__repr__"; "_get_repr_options"; "get_source_expressions";
   "set_source_expressions"; "resolve_expression"; "copy"; "as_sql"].

(** Modelled from the spec: [super().<name>], the lookup of a name on the
    base class. *)
Definition super_getattr (name : string) : outcome unit :=
  if existsb (String.eqb name) Func_attributes then Ok tt
  else Raise (AttributeError ("'super' object has no attribute '" +++ name +++ "'")).

(** [_get_repr_options] with the names it looks up, in order.  The body
    [{**super().get_repr_options(), **self.fields}] is evaluated from left
    to right: [get_repr_options] is looked up on the base class, what was
    found is called ([base_call] is the outcome of that call), and only
    then is [self.fields] read. *)
Definition _get_repr_options (base_call : outcome (dict Expr)) (self : Expr)
  : outcome (dict Expr) * list string :=
  match super_getattr "get_repr_options" with
  | Ok _ =>
      match base_call with
      | Ok base => (get_repr_options (Ok base) self, ["get_repr_options"; "fields"])
      | Raise e => (Raise e, ["get_repr_options"])
      | OutOfFuel => (OutOfFuel, ["get_repr_options"])
      end
  | Raise e => (Raise e, ["get_repr_options"])
  | OutOfFuel => (OutOfFuel, ["get_repr_options"])
  end.

(** A function that fails twice and then returns the number of calls made
    before: the world is the number of calls so far. *)
Definition flaky (calls : nat) : @Attempt nat unit * nat :=
  if Nat.ltb calls 2 then (Raises (BaseException tt), S calls)
  else (Returns calls, S calls).

(** What [JSONSet.resolve_expression] makes of one update value, for a
    resolved node of output field [F]. *)
Definition resolved_value (F : Field) (value : Expr) : Expr :=
  if has_resolve_expression value then resolve_expression value else Value value (Some F).

(** ** Nodes as objects in a store

    The compilation methods copy a node and mutate the copy: they append
    to its [source_expressions] list and rebind its [fields] and [paths].
    To tell the copy from the original, nodes are objects in a store and
    the list of source expressions is an object of its own, referred to
    by the node. *)

Inductive FuncClass : Type := C_Cast | C_ToJSONB | C_JSONObject | C_JSONSet | C_JSONRemove.

(** An object: a plain Python value, a resolved expression of the ORM, a
    [Value] referring to its payload, or a [Func] with the attributes
    [source_expressions] (a reference to a list), the declared and the
    resolved [output_field] (a cached property), [fields] and [paths]
    (dictionaries and tuples are rebound as a whole, never updated in
    place, so they are kept in the object). *)
Inductive Obj : Type :=
| ORaw (v : PyVal)
| OExt (sql : string) (params : list Param) (output_field : Field)
| OValue (value : nat) (output_field : option Field)
| OFunc (cls : FuncClass) (source_expressions : nat) (declared : option Field)
        (output_field : Field) (fields : dict nat) (paths : list string).

Record Heap : Type := {
  objs : list Obj;
  lists : list (list nat)
}.

(** [l[i] = x] on the store's tables; out of range nothing changes. *)
Fixpoint upd {A : Type} (l : list A) (i : nat) (x : A) : list A :=
  match l, i with
  | [], _ => []
  | _ :: l', O => x :: l'
  | y :: l', S i' => y :: upd l' i' x
  end.

(** Computations on the store that may raise. *)
Definition M (A : Type) : Type := Heap -> outcome A * Heap.

Definition ret {A : Type} (a : A) : M A := fun h => (Ok a, h).
Definition raise {A : Type} (e : Exn) : M A := fun h => (Raise e, h).
Definition lift {A : Type} (r : outcome A) : M A := fun h => (r, h).

Definition hbind {A B : Type} (m : M A) (k : A -> M B) : M B :=
  fun h =>
    match m h with
    | (Ok a, h') => k a h'
    | (Raise e, h') => (Raise e, h')
    | (OutOfFuel, h') => (OutOfFuel, h')
    end.

Notation "x <~ m ;; k" := (hbind m (fun x => k))
  (at level 61, m at next level, right associativity).
Notation "m ;;; k" := (hbind m (fun _ => k))
  (at level 61, right associativity).

Fixpoint hmapM {A B : Type} (f : A -> M B) (xs : list A) : M (list B) :=
  match xs with
  | [] => ret []
  | x :: xs' =>
      y <~ f x ;;
      ys <~ hmapM f xs' ;;
      ret (y :: ys)
  end.

(** Allocation, reading and writing. *)
Definition new_obj (o : Obj) : M nat :=
  fun h => (Ok (length (objs h)), {| objs := objs h ++ [o]; lists := lists h |}).

Definition new_list (xs : list nat) : M nat :=
  fun h => (Ok (length (lists h)), {| objs := objs h; lists := lists h ++ [xs] |}).

Definition get_obj (i : nat) : M Obj :=
  fun h =>
    match nth_error (objs h) i with
    | Some o => (Ok o, h)
    | None => (Raise (AttributeError "no such object"), h)
    end.

Definition get_list (l : nat) : M (list nat) :=
  fun h =>
    match nth_error (lists h) l with
    | Some xs => (Ok xs, h)
    | None => (Raise (AttributeError "no such list"), h)
    end.

Definition put_obj (i : nat) (o : Obj) : M unit :=
  fun h => (Ok tt, {| objs := upd (objs h) i o; lists := lists h |}).

Definition put_list (l : nat) (xs : list nat) : M unit :=
  fun h => (Ok tt, {| objs := objs h; lists := upd (lists h) l xs |}).

(** [l.append(x)] *)
Definition list_append (l : nat) (x : nat) : M unit :=
  xs <~ get_list l ;; put_list l (xs ++ [x]).

(** Modelled from the spec: [Func.copy], [get_source_expressions] and
    [set_source_expressions] (django/db/models/expressions.py is not under
    src/).  A node is "cloned (copy) before backend-specific mutation to
    preserve the original": the copy is a new object with the attributes
    of the original and a list of source expressions of its own ("a new
    value from the old by structural copy"); [get_source_expressions]
    hands out the node's list itself. *)
Definition Func_copy (self : nat) : M nat :=
  o <~ get_obj self ;;
  match o with
  | OFunc c l d f fs ps =>
      xs <~ get_list l ;;
      l' <~ new_list xs ;;
      new_obj (OFunc c l' d f fs ps)
  | _ => raise (AttributeError "copy")
  end.

Definition get_source_expressions (self : nat) : M nat :=
  o <~ get_obj self ;;
  match o with
  | OFunc _ l _ _ _ _ => ret l
  | _ => raise (AttributeError "get_source_expressions")
  end.

Definition set_source_expressions (self : nat) (l : nat) : M unit :=
  o <~ get_obj self ;;
  match o with
  | OFunc c _ d f fs ps => put_obj self (OFunc c l d f fs ps)
  | _ => raise (AttributeError "set_source_expressions")
  end.

(** [self.fields], [self.fields = ...], [self.paths], [self.paths = ...] *)
Definition get_fields (self : nat) : M (dict nat) :=
  o <~ get_obj self ;;
  match o with
  | OFunc C_JSONSet _ _ _ fs _ => ret fs
  | _ => raise (AttributeError "object has no attribute 'fields'")
  end.

Definition set_fields (self : nat) (fs : dict nat) : M unit :=
  o <~ get_obj self ;;
  match o with
  | OFunc c l d f _ ps => put_obj self (OFunc c l d f fs ps)
  | _ => raise (AttributeError "fields")
  end.

Definition get_paths (self : nat) : M (list string) :=
  o <~ get_obj self ;;
  match o with
  | OFunc C_JSONRemove _ _ _ _ ps => ret ps
  | _ => raise (AttributeError "object has no attribute 'paths'")
  end.

Definition set_paths (self : nat) (ps : list string) : M unit :=
  o <~ get_obj self ;;
  match o with
  | OFunc c l d f fs _ => put_obj self (OFunc c l d f fs ps)
  | _ => raise (AttributeError "paths")
  end.

(** [e.output_field], [isinstance(e, Value)], [hasattr(e, "resolve_expression")],
    [e.value is None] *)
Definition obj_output_field (o : Obj) : Field :=
  match o with
  | ORaw _ => OtherField
  | OExt _ _ f => f
  | OValue _ (Some f) => f
  | OValue _ None => OtherField
  | OFunc _ _ _ f _ _ => f
  end.

Definition h_output_field (e : nat) : M Field :=
  o <~ get_obj e ;; ret (obj_output_field o).

Definition h_isinstance_Value (e : nat) : M bool :=
  o <~ get_obj e ;; ret match o with OValue _ _ => true | _ => false end.

Definition h_has_resolve_expression (e : nat) : M bool :=
  o <~ get_obj e ;; ret match o with ORaw _ => false | _ => true end.

Definition h_value_is_None (e : nat) : M bool :=
  o <~ get_obj e ;;
  match o with
  | OValue p _ => q <~ get_obj p ;; ret match q with ORaw PNone => true | _ => false end
  | _ => ret false
  end.

(** Constructors: [Value(v)] of a plain value, [Value(e, output_field)] of
    an object, [Cast], [ToJSONB], [JSONSet], [JSONRemove]. *)
Definition h_Value (value : nat) (output_field : option Field) : M nat :=
  new_obj (OValue value output_field).

Definition h_Value_of (v : PyVal) (output_field : option Field) : M nat :=
  p <~ new_obj (ORaw v) ;; h_Value p output_field.

Definition h_resolved (declared : option Field) (first_source : nat) : M Field :=
  match declared with
  | Some f => ret f
  | None => h_output_field first_source
  end.

Definition h_Cast (expression : nat) (output_field : Field) : M nat :=
  l <~ new_list [expression] ;;
  new_obj (OFunc C_Cast l (Some output_field) output_field [] []).

Definition h_ToJSONB (expression : nat) (output_field : option Field) : M nat :=
  f <~ h_resolved output_field expression ;;
  l <~ new_list [expression] ;;
  new_obj (OFunc C_ToJSONB l output_field f [] []).

Definition h_JSONSet_init (expression : nat) (output_field : option Field)
           (fields : dict nat) : M nat :=
  match fields with
  | [] => raise (TypeError "JSONSet requires at least one key-value pair to be set.")
  | _ =>
      f <~ h_resolved output_field expression ;;
      l <~ new_list [expression] ;;
      new_obj (OFunc C_JSONSet l output_field f fields [])
  end.

Definition h_JSONRemove_init (expression : nat) (paths : list string)
           (output_field : option Field) : M nat :=
  match paths with
  | [] => raise (TypeError "JSONRemove requires at least one path to remove")
  | _ =>
      f <~ h_resolved output_field expression ;;
      l <~ new_list [expression] ;;
      new_obj (OFunc C_JSONRemove l output_field f [] paths)
  end.

(** [for x in xs: body(x)] *)
Fixpoint hfor {A : Type} (body : A -> M unit) (xs : list A) : M unit :=
  match xs with
  | [] => ret tt
  | x :: xs' => body x ;;; hfor body xs'
  end.

(** An argument joiner in the store: a string, or a node ([arg_joiner=self]). *)
Inductive HJoiner : Type :=
| HJoinStr (sep : string)
| HJoinObj (node : nat).

Section HeapCompilation.

Variable compile_json_path : list string -> string.

(** *** The methods of json.py on the store *)

Definition h_Value_as_sql (value : nat) (output_field : option Field) : M SQL :=
  p <~ get_obj value ;;
  match output_field with
  | Some JSONField =>
      match p with
      | ORaw v => ret ("%s", [Json v])
      | OValue q (Some JSONField) =>
          q' <~ get_obj q ;;
          ret match q' with
              | ORaw v => ("%s", [Json v])
              | _ => ("%s", [Json PObject])
              end
      | _ => ret ("%s", [Json PObject])
      end
  | _ =>
      ret match p with
          | ORaw PNone => ("NULL", [])
          | ORaw v => ("%s", [Plain v])
          | _ => ("%s", [Plain PObject])
          end
  end.

(** [JSONSet.join(self, args)] *)
Definition h_JSONSet_join (self : nat) (args : list string) : M string :=
  fields <~ get_fields self ;;
  match fields with
  | [] => raise (IndexError "list index out of range")
  | (key, value) :: _ =>
      let key_paths := str_split key LOOKUP_SEP in
      let key_paths_join := compile_json_path key_paths in
      match args with
      | [] => raise (IndexError "list index out of range")
      | arg0 :: _ =>
          let template :=
            arg0 +++ ", SET q'" +++ uffff +++ key_paths_join +++ uffff +++ "' = "
                 +++ last args "" in
          is_value <~ h_isinstance_Value value ;;
          if is_value then ret (template +++ " FORMAT JSON") else ret template
      end
  end.

(** [JSONRemove.join(self, args)] *)
Definition h_JSONRemove_join (self : nat) (args : list string) : M string :=
  paths <~ get_paths self ;;
  lift (JSONRemove_join compile_json_path paths args).

(** [arg_joiner.join(sql_parts)] *)
Definition h_join_with (j : HJoiner) (args : list string) : M string :=
  match j with
  | HJoinStr sep => ret (str_join sep args)
  | HJoinObj node =>
      o <~ get_obj node ;;
      match o with
      | OFunc C_JSONObject _ _ _ _ _ => lift (JSONObject_join args)
      | OFunc C_JSONSet _ _ _ _ _ => h_JSONSet_join node args
      | OFunc C_JSONRemove _ _ _ _ _ => h_JSONRemove_join node args
      | _ => raise (AttributeError "join")
      end
  end.

(** [Func.as_sql] on the node [self]: its list of source expressions is
    read from the store. *)
Definition h_Func_as_sql (compile : nat -> M SQL) (self : nat)
           (class_function : option string)
           (function : option string) (template : option Template)
           (arg_joiner : option HJoiner) : M SQL :=
  l <~ get_source_expressions self ;;
  source_expressions <~ get_list l ;;
  compiled <~ hmapM compile source_expressions ;;
  let sql_parts := map fst compiled in
  let params := concat (map snd compiled) in
  let function := match function with Some f => Some f | None => class_function end in
  let template := match template with Some t => t | None => Func_template end in
  let arg_joiner := match arg_joiner with Some j => j | None => HJoinStr Func_arg_joiner end in
  expressions <~ h_join_with arg_joiner sql_parts ;;
  ret (render template function expressions, params).

Definition h_Cast_as_sql (compile : nat -> M SQL) (conn : Connection)
           (l : nat) (output_field : Field) : M SQL :=
  source_expressions <~ get_list l ;;
  match source_expressions with
  | [expression] =>
      sp <~ compile expression ;;
      ret ("CAST(" +++ fst sp +++ " AS " +++ cast_db_type conn output_field +++ ")", snd sp)
  | _ => raise (TypeError "Cast takes one expression")
  end.

Definition h_Cast_as_postgresql (compile : nat -> M SQL) (conn : Connection)
           (l : nat) (output_field : Field) : M SQL :=
  source_expressions <~ get_list l ;;
  match source_expressions with
  | [expression] =>
      sp <~ compile expression ;;
      ret ("(" +++ fst sp +++ ")::" +++ cast_db_type conn output_field, snd sp)
  | _ => raise (TypeError "Cast takes one expression")
  end.

(** [JSONObject] *)
Definition h_JSONObject_as_sql (compile : nat -> M SQL) (conn : Connection) (self : nat)
           (function : option string) (template : option Template)
           (arg_joiner : option HJoiner) : M SQL :=
  if negb (has_json_object_function (features conn))
  then raise (NotSupportedError "JSONObject() is not supported on this database backend.")
  else h_Func_as_sql compile self (Some "JSON_OBJECT") function template arg_joiner.

Definition h_JSONObject_as_native (compile : nat -> M SQL) (conn : Connection)
           (self : nat) (returning : string) : M SQL :=
  h_JSONObject_as_sql compile conn self None
    (Some [TFunction; TLit "("; TExpressions; TLit (" RETURNING " +++ returning +++ ")")])
    (Some (HJoinObj self)).

Fixpoint h_cast_keys (index : nat) (l : list nat) : M (list nat) :=
  match l with
  | [] => ret []
  | expression :: l' =>
      x <~ (if Nat.even index then h_Cast expression TextField else ret expression) ;;
      xs <~ h_cast_keys (S index) l' ;;
      ret (x :: xs)
  end.

Definition h_JSONObject_as_postgresql (compile : nat -> M SQL) (conn : Connection)
           (self : nat) : M SQL :=
  copy <~ Func_copy self ;;
  l <~ get_source_expressions copy ;;
  source_expressions <~ get_list l ;;
  casted <~ h_cast_keys 0 source_expressions ;;
  l' <~ new_list casted ;;
  set_source_expressions copy l' ;;;
  if is_postgresql_16 (features conn)
  then h_JSONObject_as_native compile conn copy "JSONB"
  else h_Func_as_sql compile copy (Some "JSON_OBJECT") (Some "JSONB_BUILD_OBJECT") None None.

Definition h_JSONObject_as_oracle (compile : nat -> M SQL) (conn : Connection)
           (self : nat) : M SQL :=
  h_JSONObject_as_native compile conn self "CLOB".

(** [JSONSet] *)
Definition h_JSONSet_as_sql (compile : nat -> M SQL) (conn : Connection) (self : nat)
  : M SQL :=
  if negb (supports_partial_json_update (features conn))
  then raise (NotSupportedError "JSONSet() is not supported on this database backend.")
  else
    copy <~ Func_copy self ;;
    new_source_expressions <~ get_source_expressions copy ;;
    fields <~ get_fields self ;;
    hfor (fun kv : string * nat =>
            let key_paths := str_split (fst kv) LOOKUP_SEP in
            let key_paths_join := compile_json_path key_paths in
            path <~ h_Value_of (PStr key_paths_join) None ;;
            list_append new_source_expressions path ;;;
            is_value <~ h_isinstance_Value (snd kv) ;;
            value <~ (if is_value
                      then (f <~ h_output_field self ;; h_Cast (snd kv) f)
                      else ret (snd kv)) ;;
            list_append new_source_expressions value)
         fields ;;;
    set_source_expressions copy new_source_expressions ;;;
    h_Func_as_sql compile copy None (Some "JSON_SET") None None.

Definition h_JSONSet_postgresql_value (self : nat) (value : nat) : M nat :=
  is_expression <~ h_has_resolve_expression value ;;
  value_field <~ h_output_field value ;;
  if is_expression && negb (is_JSONField value_field)
  then (f <~ h_output_field self ;; h_ToJSONB value (Some f))
  else
    is_value <~ h_isinstance_Value value ;;
    is_none <~ h_value_is_None value ;;
    if is_value && is_none
    then (f <~ h_output_field self ;; h_Value_of PNone (Some f))
    else ret value.

Definition h_JSONSet_as_postgresql (compile : nat -> M SQL) (as_postgresql : nat -> M SQL)
           (conn : Connection) (self : nat) : M SQL :=
  copy <~ Func_copy self ;;
  all_items <~ get_fields self ;;
  match all_items with
  | [] => raise (IndexError "list index out of range")
  | (key, value) :: rest =>
      match rest with
      | _ :: _ =>
          set_fields copy [(key, value)] ;;;
          node <~ h_JSONSet_init copy None (dict_of_items rest) ;;
          as_postgresql node
      | [] =>
          new_source_expressions <~ get_source_expressions copy ;;
          let key_paths := str_split key LOOKUP_SEP in
          path <~ h_Value_of (PStrList key_paths) None ;;
          list_append new_source_expressions path ;;;
          value' <~ h_JSONSet_postgresql_value self value ;;
          list_append new_source_expressions value' ;;;
          set_source_expressions copy new_source_expressions ;;;
          h_Func_as_sql compile copy None (Some "JSONB_SET") None None
      end
  end.

Definition h_JSONSet_as_oracle (compile : nat -> M SQL) (as_oracle : nat -> M SQL)
           (conn : Connection) (self : nat) : M SQL :=
  if negb (supports_partial_json_update (features conn))
  then raise (NotSupportedError "JSONSet() is not supported on this database backend.")
  else
    copy <~ Func_copy self ;;
    all_items <~ get_fields self ;;
    match all_items with
    | [] => raise (IndexError "list index out of range")
    | (key, value) :: rest =>
        match rest with
        | _ :: _ =>
            set_fields copy [(key, value)] ;;;
            node <~ h_JSONSet_init copy None (dict_of_items rest) ;;
            as_oracle node
        | [] =>
            new_source_expressions <~ get_source_expressions copy ;;
            is_value <~ h_isinstance_Value value ;;
            value' <~ (if is_value
                       then (f <~ h_output_field self ;; h_Value value (Some f))
                       else ret value) ;;
            list_append new_source_expressions value' ;;;
            set_source_expressions copy new_source_expressions ;;;
            h_Func_as_sql compile copy None (Some "JSON_TRANSFORM") None
                          (Some (HJoinObj self))
        end
    end.

(** [JSONRemove] *)
Definition h_JSONRemove_as_sql (compile : nat -> M SQL) (conn : Connection) (self : nat)
  : M SQL :=
  if negb (supports_partial_json_update (features conn))
  then raise (NotSupportedError "JSONRemove() is not supported on this database backend.")
  else
    copy <~ Func_copy self ;;
    new_source_expressions <~ get_source_expressions copy ;;
    paths <~ get_paths self ;;
    hfor (fun path =>
            let key_paths := str_split path LOOKUP_SEP in
            let key_paths_join := compile_json_path key_paths in
            p <~ h_Value_of (PStr key_paths_join) None ;;
            list_append new_source_expressions p)
         paths ;;;
    set_source_expressions copy new_source_expressions ;;;
    h_Func_as_sql compile copy None (Some "JSON_REMOVE") None None.

Definition h_JSONRemove_as_postgresql (compile : nat -> M SQL)
           (as_postgresql : nat -> M SQL) (conn : Connection) (self : nat) : M SQL :=
  copy <~ Func_copy self ;;
  paths <~ get_paths self ;;
  match paths with
  | [] => raise (ValueError "not enough values to unpack (expected at least 1, got 0)")
  | path :: rest =>
      match rest with
      | _ :: _ =>
          set_paths copy [path] ;;;
          node <~ h_JSONRemove_init copy rest None ;;
          as_postgresql node
      | [] =>
          new_source_expressions <~ get_source_expressions copy ;;
          let key_paths := str_split path LOOKUP_SEP in
          p <~ h_Value_of (PStrList key_paths) None ;;
          list_append new_source_expressions p ;;;
          set_source_expressions copy new_source_expressions ;;;
          h_Func_as_sql compile copy None None (Some [TExpressions]) (Some (HJoinStr "#- "))
      end
  end.

Definition h_JSONRemove_as_oracle (compile : nat -> M SQL) (as_oracle : nat -> M SQL)
           (conn : Connection) (self : nat) : M SQL :=
  if negb (supports_partial_json_update (features conn))
  then raise (NotSupportedError "JSONRemove() is not supported on this database backend.")
  else
    copy <~ Func_copy self ;;
    all_items <~ get_paths self ;;
    match all_items with
    | [] => raise (ValueError "not enough values to unpack (expected at least 1, got 0)")
    | path :: rest =>
        match rest with
        | _ :: _ =>
            set_paths copy [path] ;;;
            node <~ h_JSONRemove_init copy rest None ;;
            as_oracle node
        | [] =>
            h_Func_as_sql compile copy None (Some "JSON_TRANSFORM") None
                          (Some (HJoinObj self))
        end
    end.

(** *** The compiler on the store *)

Definition h_has_method (o : Obj) (m : Method) : bool :=
  match m, o with
  | M_compile, _ => false
  | _, ORaw _ => false
  | M_as_sql, _ => true
  | M_as_postgresql, OFunc (C_Cast | C_JSONObject | C_JSONSet | C_JSONRemove) _ _ _ _ _ => true
  | M_as_oracle, OFunc (C_JSONObject | C_JSONSet | C_JSONRemove) _ _ _ _ _ => true
  | _, _ => false
  end.

Definition h_run_method (call : Method -> nat -> M SQL) (conn : Connection)
           (m : Method) (self : nat) : M SQL :=
  let compile := call M_compile in
  o <~ get_obj self ;;
  match m, o with
  | M_as_sql, OExt sql params _ => ret (sql, params)
  | M_as_sql, OValue v f => h_Value_as_sql v f
  | M_as_sql, OFunc C_Cast l _ f _ _ => h_Cast_as_sql compile conn l f
  | M_as_postgresql, OFunc C_Cast l _ f _ _ => h_Cast_as_postgresql compile conn l f
  | M_as_sql, OFunc C_ToJSONB _ _ _ _ _ =>
      h_Func_as_sql compile self (Some "TO_JSONB") None None None
  | M_as_sql, OFunc C_JSONObject _ _ _ _ _ => h_JSONObject_as_sql compile conn self None None None
  | M_as_postgresql, OFunc C_JSONObject _ _ _ _ _ => h_JSONObject_as_postgresql compile conn self
  | M_as_oracle, OFunc C_JSONObject _ _ _ _ _ => h_JSONObject_as_oracle compile conn self
  | M_as_sql, OFunc C_JSONSet _ _ _ _ _ => h_JSONSet_as_sql compile conn self
  | M_as_postgresql, OFunc C_JSONSet _ _ _ _ _ =>
      h_JSONSet_as_postgresql compile (call M_as_postgresql) conn self
  | M_as_oracle, OFunc C_JSONSet _ _ _ _ _ =>
      h_JSONSet_as_oracle compile (call M_as_oracle) conn self
  | M_as_sql, OFunc C_JSONRemove _ _ _ _ _ => h_JSONRemove_as_sql compile conn self
  | M_as_postgresql, OFunc C_JSONRemove _ _ _ _ _ =>
      h_JSONRemove_as_postgresql compile (call M_as_postgresql) conn self
  | M_as_oracle, OFunc C_JSONRemove _ _ _ _ _ =>
      h_JSONRemove_as_oracle compile (call M_as_oracle) conn self
  | M_as_sql, ORaw _ => raise (AttributeError "as_sql")
  | M_as_postgresql, _ => raise (AttributeError "as_postgresql")
  | M_as_oracle, _ => raise (AttributeError "as_oracle")
  | M_compile, _ => raise (AttributeError "compile")
  end.

Definition h_compiler_compile (call : Method -> nat -> M SQL) (conn : Connection)
           (node : nat) : M SQL :=
  o <~ get_obj node ;;
  match vendor_method (vendor conn) with
  | Some vendor_impl =>
      if h_has_method o vendor_impl
      then h_run_method call conn vendor_impl node
      else h_run_method call conn M_as_sql node
  | None => h_run_method call conn M_as_sql node
  end.

Fixpoint hcall (fuel : nat) (conn : Connection) (m : Method) (self : nat) : M SQL :=
  match fuel with
  | O => lift OutOfFuel
  | S fuel' =>
      match m with
      | M_compile => h_compiler_compile (hcall fuel' conn) conn self
      | _ => h_run_method (hcall fuel' conn) conn m self
      end
  end.

End HeapCompilation.

(** *** Objects that represent expression trees *)

(** [repr_on P Q h e i]: in the store [h] the object [i] is the node [e],
    its source expressions and update values being the objects that
    represent the children of [e]; every object met satisfies [P] and
    every list met satisfies [Q]. *)
Fixpoint repr_on (P Q : nat -> Prop) (h : Heap) (e : Expr) (i : nat) {struct e} : Prop :=
  P i /\
  match e with
  | Raw v => nth_error (objs h) i = Some (ORaw v)
  | Ext sql params f => nth_error (objs h) i = Some (OExt sql params f)
  | Value e' o =>
      exists p, nth_error (objs h) i = Some (OValue p o) /\ repr_on P Q h e' p
  | Cast e' f =>
      exists l c,
        nth_error (objs h) i = Some (OFunc C_Cast l (Some f) f [] [])
        /\ Q l /\ nth_error (lists h) l = Some [c] /\ repr_on P Q h e' c
  | ToJSONB e' o =>
      exists l c,
        nth_error (objs h) i
        = Some (OFunc C_ToJSONB l o (output_field_of (ToJSONB e' o)) [] [])
        /\ Q l /\ nth_error (lists h) l = Some [c] /\ repr_on P Q h e' c
  | JSONObject srcs =>
      exists l cs,
        nth_error (objs h) i = Some (OFunc C_JSONObject l None JSONField [] [])
        /\ Q l /\ nth_error (lists h) l = Some cs
        /\ (fix reprs (es : list Expr) (cs : list nat) {struct es} : Prop :=
              match es, cs with
              | [], [] => True
              | e' :: es', c :: cs' => repr_on P Q h e' c /\ reprs es' cs'
              | _, _ => False
              end) srcs cs
  | JSONSet srcs o fields =>
      exists l cs fs,
        nth_error (objs h) i
        = Some (OFunc C_JSONSet l o (output_field_of (JSONSet srcs o fields)) fs [])
        /\ Q l /\ nth_error (lists h) l = Some cs
        /\ (fix reprs (es : list Expr) (cs : list nat) {struct es} : Prop :=
              match es, cs with
              | [], [] => True
              | e' :: es', c :: cs' => repr_on P Q h e' c /\ reprs es' cs'
              | _, _ => False
              end) srcs cs
        /\ (fix reprf (fields : list (string * Expr)) (fs : list (string * nat))
                {struct fields} : Prop :=
              match fields, fs with
              | [], [] => True
              | kv :: fields', kr :: fs' =>
                  fst kv = fst kr /\ repr_on P Q h (snd kv) (snd kr) /\ reprf fields' fs'
              | _, _ => False
              end) fields fs
  | JSONRemove srcs o paths =>
      exists l cs,
        nth_error (objs h) i
        = Some (OFunc C_JSONRemove l o (output_field_of (JSONRemove srcs o paths)) [] paths)
        /\ Q l /\ nth_error (lists h) l = Some cs
        /\ (fix reprs (es : list Expr) (cs : list nat) {struct es} : Prop :=
              match es, cs with
              | [], [] => True
              | e' :: es', c :: cs' => repr_on P Q h e' c /\ reprs es' cs'
              | _, _ => False
              end) srcs cs
  end.

Definition anywhere (i : nat) : Prop := True.

(** The object [i] is the node [e]. *)
Definition repr (h : Heap) (e : Expr) (i : nat) : Prop := repr_on anywhere anywhere h e i.

(** Lists of children and dictionaries of update values, represented. *)
Definition reprs_on (P Q : nat -> Prop) (h : Heap) (es : list Expr) (cs : list nat) : Prop :=
  Forall2 (repr_on P Q h) es cs.

Definition reprf_on (P Q : nat -> Prop) (h : Heap) (fields : dict Expr) (fs : dict nat)
  : Prop :=
  Forall2 (fun kv kr => fst kv = fst kr /\ repr_on P Q h (snd kv) (snd kr)) fields fs.

(** [keeps P Q h h']: the objects of [h] that satisfy [P] and the lists
    of [h] that satisfy [Q] are in [h'] as they are in [h]. *)
Definition keeps (P Q : nat -> Prop) (h h' : Heap) : Prop :=
  (forall i o, P i -> nth_error (objs h) i = Some o -> nth_error (objs h') i = Some o)
  /\ (forall l xs, Q l -> nth_error (lists h) l = Some xs -> nth_error (lists h') l = Some xs).

(** [heap_le h h']: every object and every list of [h] is in [h'] as it
    is in [h]. *)
Definition heap_le (h h' : Heap) : Prop := keeps anywhere anywhere h h'.

(** *** Simulation of the methods on the store *)

(** Every index but [k]. *)
Definition other (k : nat) : nat -> Prop := fun j => j <> k.

(** [sim m h r]: run from the store [h], the computation [m] has the
    outcome [r] and leaves every object and list of [h] as it is. *)
Definition sim {A : Type} (m : M A) (h : Heap) (r : outcome A) : Prop :=
  fst (m h) = r /\ heap_le h (snd (m h)).

(** [copy_inv h0 ic lc h o es xs]: in [h], reached from [h0] by steps that
    wrote to the copy [ic] and to its list [lc] only, the copy is [o] and
    its list [xs] holds the nodes [es]. *)
Definition copy_inv (h0 : Heap) (ic lc : nat) (h : Heap) (o : Obj)
           (es : list Expr) (xs : list nat) : Prop :=
  length (objs h0) <= ic /\ length (lists h0) <= lc
  /\ keeps (other ic) (other lc) h0 h
  /\ nth_error (objs h) ic = Some o
  /\ nth_error (lists h) lc = Some xs
  /\ reprs_on (other ic) (other lc) h es xs.

(** The object [n] joins arguments as the node [e] does. *)
Definition join_repr (h : Heap) (e : Expr) (n : nat) : Prop :=
  match e with
  | JSONObject _ =>
      exists l d f fs ps, nth_error (objs h) n = Some (OFunc C_JSONObject l d f fs ps)
  | JSONSet _ _ fields =>
      exists l d f fs ps,
        nth_error (objs h) n = Some (OFunc C_JSONSet l d f fs ps)
        /\ reprf_on anywhere anywhere h fields fs
  | JSONRemove _ _ paths =>
      exists l d f fs, nth_error (objs h) n = Some (OFunc C_JSONRemove l d f fs paths)
  | _ => False
  end.

Definition joiner_ok (h : Heap) (hj : HJoiner) (j : Joiner) : Prop :=
  match hj, j with
  | HJoinStr s, JoinStr s' => s = s'
  | HJoinObj n, JoinObj e => join_repr h e n
  | _, _ => False
  end.

Definition joiner_opt_ok (h : Heap) (hj : option HJoiner) (j : option Joiner) : Prop :=
  match hj, j with
  | None, None => True
  | Some hj', Some j' => joiner_ok h hj' j'
  | _, _ => False
  end.

(** [sim_at h0 m h r]: run from [h], the computation [m] has the outcome
    [r] and ends in a store that has every object and list of [h0] as it
    is in [h0]. *)
Definition sim_at {A : Type} (h0 : Heap) (m : M A) (h : Heap) (r : outcome A) : Prop :=
  fst (m h) = r /\ heap_le h0 (snd (m h)).

(** The attributes of a node of the store: the content of its list of
    source expressions, its update values and its paths. *)
Definition source_expressions_of (h : Heap) (i : nat) : option (list nat) :=
  match nth_error (objs h) i with
  | Some (OFunc _ l _ _ _ _) => nth_error (lists h) l
  | _ => None
  end.

Definition fields_of (h : Heap) (i : nat) : option (dict nat) :=
  match nth_error (objs h) i with
  | Some (OFunc _ _ _ _ fs _) => Some fs
  | _ => None
  end.

Definition paths_of (h : Heap) (i : nat) : option (list string) :=
  match nth_error (objs h) i with
  | Some (OFunc _ _ _ _ _ ps) => Some ps
  | _ => None
  end.

(** *** Induction on expression trees *)

Section ExprInduction.

Variable P : Expr -> Prop.
Hypothesis HRaw : forall v, P (Raw v).
Hypothesis HExt : forall sql params f, P (Ext sql params f).
Hypothesis HValue : forall e o, P e -> P (Value e o).
Hypothesis HCast : forall e f, P e -> P (Cast e f).
Hypothesis HToJSONB : forall e o, P e -> P (ToJSONB e o).
Hypothesis HJSONObject : forall srcs, Forall P srcs -> P (JSONObject srcs).
Hypothesis HJSONSet : forall srcs o fields,
    Forall P srcs -> Forall (fun kv => P (snd kv)) fields -> P (JSONSet srcs o fields).
Hypothesis HJSONRemove : forall srcs o paths, Forall P srcs -> P (JSONRemove srcs o paths).

Fixpoint Expr_nested_ind (e : Expr) : P e :=
  match e with
  | Raw v => HRaw v
  | Ext sql params f => HExt sql params f
  | Value e' o => HValue e' o (Expr_nested_ind e')
  | Cast e' f => HCast e' f (Expr_nested_ind e')
  | ToJSONB e' o => HToJSONB e' o (Expr_nested_ind e')
  | JSONObject srcs =>
      HJSONObject srcs
        ((fix go (l : list Expr) : Forall P l :=
            match l with
            | [] => Forall_nil P
            | x :: l' => Forall_cons x (Expr_nested_ind x) (go l')
            end) srcs)
  | JSONSet srcs o fields =>
      HJSONSet srcs o fields
        ((fix go (l : list Expr) : Forall P l :=
            match l with
            | [] => Forall_nil P
            | x :: l' => Forall_cons x (Expr_nested_ind x) (go l')
            end) srcs)
        ((fix go (l : list (string * Expr)) : Forall (fun kv => P (snd kv)) l :=
            match l with
            | [] => Forall_nil _
            | x :: l' => Forall_cons x (Expr_nested_ind (snd x)) (go l')
            end) fields)
  | JSONRemove srcs o paths =>
      HJSONRemove srcs o paths
        ((fix go (l : list Expr) : Forall P l :=
            match l with
            | [] => Forall_nil P
            | x :: l' => Forall_cons x (Expr_nested_ind x) (go l')
            end) srcs)
  end.

End ExprInduction.

(** ** Auxiliary notions of the proofs *)

(** [r1] is [r2] unless it ran out of fuel. *)
Definition le_out {A : Type} (r1 r2 : outcome A) : Prop :=
  r1 = OutOfFuel \/ r1 = r2.

(** The sum of a measure over the values of a dictionary. *)
Definition sum_values {V : Type} (g : V -> nat) (d : dict V) : nat :=
  list_sum (map (fun kv => g (snd kv)) d).

(** [Nested one target n s]: [s] is [n] applications of a call on top of
    [target], each application taking the result of the one before as its
    target. *)
Inductive Nested (one : SQL -> SQL -> Prop) (target : SQL) : nat -> SQL -> Prop :=
| Nested_O : Nested one target 0 target
| Nested_S n inner s : Nested one target n inner -> one inner s ->
                       Nested one target (S n) s.

Definition is_jsonb_set_call (inner s : SQL) : Prop :=
  exists key value, s = jsonb_set_call inner key value.

Definition is_json_transform_set_call (compile_json_path : list string -> string)
           (inner s : SQL) : Prop :=
  exists key format_json value,
    s = json_transform_set_call compile_json_path inner key format_json value.

Definition is_delete_path_call (inner s : SQL) : Prop :=
  exists path, s = delete_path_call inner path.

(** One level of the recursion of [JSONSet.as_postgresql] and of
    [JSONSet.as_oracle], on the outcome of the level below. *)
Definition postgresql_level (compile : Expr -> outcome SQL) (F : Field)
           (below : outcome SQL) (kv : string * Expr) : outcome SQL :=
  target <- below ;;
  value <- compile (JSONSet_postgresql_value F (snd kv)) ;;
  Ok (jsonb_set_call target (fst kv) value).

Definition oracle_level (compile_json_path : list string -> string)
           (compile : Expr -> outcome SQL) (F : Field)
           (below : outcome SQL) (kv : string * Expr) : outcome SQL :=
  target <- below ;;
  value <- compile (JSONSet_oracle_value F (snd kv)) ;;
  Ok (json_transform_set_call compile_json_path target (fst kv)
                              (isinstance_Value (snd kv)) value).

(** ** Concrete backends and nodes for the examples *)

(** An instance of the path compiler: the spec's [$.a.b]. *)
Definition example_compile_json_path (key_paths : list string) : string :=
  "$" +++ String.concat "" (map (fun k => "." +++ k) key_paths).

Definition example_cast_db_type (f : Field) : string :=
  match f with
  | JSONField => "jsonb"
  | TextField => "text"
  | OtherField => "integer"
  end.

Definition example_connection (v : Vendor) (json_object partial_update pg16 : bool)
  : Connection :=
  {| vendor := v;
     features := {| has_json_object_function := json_object;
                    supports_partial_json_update := partial_update;
                    is_postgresql_16 := pg16 |};
     cast_db_type := example_cast_db_type |}.

(** A JSON column, a text column, and literals. *)
Definition example_col : Expr := Ext "col" [] JSONField.
Definition example_text_col : Expr := Ext "name" [] TextField.
Definition example_col_sql : SQL := ("col", []).
Definition example_int (z : Z) : Expr := Value (Raw (PInt z)) (Some JSONField).
Definition example_str (s : string) : Expr := Value (Raw (PStr s)) None.

(** The spec's [{"name": "John", "age": 30}]. *)
Definition example_person : dict Expr :=
  [("name", example_str "John"); ("age", Value (Raw (PInt 30)) None)].
Definition example_person_values : list SQL :=
  [("%s", [Plain (PStr "John")]); ("%s", [Plain (PInt 30)])].

(** A store with the node [JSONSet(col, a__b=Value(5), c=Value("x"))]:
    the column, the two literals and their [Value] nodes, and the node
    with its list of source expressions. *)
Definition example_heap : Heap :=
  {| objs := [OExt "col" [] JSONField;
              ORaw (PInt 5); OValue 1 (Some JSONField);
              ORaw (PStr "x"); OValue 3 (Some JSONField);
              OFunc C_JSONSet 0 None JSONField [("a__b", 2); ("c", 4)] []];
     lists := [[0]] |}.

Definition example_node : Expr :=
  JSONSet [example_col] None
          [("a__b", example_int 5); ("c", Value (Raw (PStr "x")) (Some JSONField))].

(** One application of [JSON_TRANSFORM] with a [REMOVE] clause: the path
    is part of the text, quoted with [q'...']. *)
Definition json_transform_remove_call (compile_json_path : list string -> string)
           (target : SQL) (path : string) : SQL :=
  ("JSON_TRANSFORM(" +++ fst target +++ ", REMOVE q'" +++ uffff
     +++ compile_json_path (str_split path LOOKUP_SEP) +++ uffff +++ "')",
   snd target).

(** ** [django.tasks.utils.is_module_level_function] *)

(** [sub in s] for strings *)
Fixpoint str_contains (sub s : string) : bool :=
  String.prefix sub s
  || match s with
     | EmptyString => false
     | String _ s' => str_contains sub s'
     end.

(** What the function looks at in its argument: the answers of
    [inspect.isfunction] and [inspect.isbuiltin], and [__qualname__]. *)
Record Callable : Type := {
  inspect_isfunction : bool;
  inspect_isbuiltin : bool;
  qualname : string
}.

Definition is_module_level_function (func : Callable) : bool :=
  if negb (inspect_isfunction func) || inspect_isbuiltin func then false
  else if str_contains "<locals>" (qualname func) then false
  else true.

(** ** [django.tasks.backends.dummy.DummyBackend] *)

Module Dummy.

(** The exceptions of the task framework that the backend raises. *)
Inductive TaskError : Type :=
| InvalidTaskError (msg : string)
| ResultDoesNotExist (result_id : string).

Inductive res (A : Type) : Type :=
| Val (a : A)
| Exc (e : TaskError).
Arguments Val {A} a.
Arguments Exc {A} e.

Section Backend.

(** The task framework and its environment are not under src/: tasks,
    their arguments, points in time, the status enumeration with its
    member [NEW], and the world outside the backend (the clock, the
    random generator, the receivers of signals, the transaction) are
    parameters. *)
Variables Task Args Kwargs Time Status World : Type.
Variable NEW : Status.

(** The fields [enqueue] gives a [TaskResult]. *)
Record TaskResult : Type := {
  task : Task;
  id : string;
  status : Status;
  enqueued_at : option Time;
  started_at : option Time;
  finished_at : option Time;
  args : Args;
  kwargs : Kwargs;
  backend : string
}.

(** [self.alias]; [BaseTaskBackend.validate_task], which raises for a
    task the backend does not take; [_get_enqueue_on_commit_for_task],
    which returns [True], [False] or [None]; [RANDOM_STRING_CHARS] and
    [random.choices]; [timezone.now]; [task_enqueued.send], whose
    receivers act on the world outside the backend. *)
Variable alias : string.
Variable validate_task : Task -> option TaskError.
Variable _get_enqueue_on_commit_for_task : Task -> option bool.
Variable RANDOM_STRING_CHARS : list ascii.
Variable random_choices : list ascii -> nat -> World -> list ascii * World.
Variable timezone_now : World -> Time * World.
Variable task_enqueued_send : TaskResult -> World -> World.

(** The backend in its world: results are objects, [self.results] is a
    list of references to them. *)
Record State : Type := {
  objects : list TaskResult;
  results : list nat;
  world : World
}.

(** [transaction.on_commit(func)]: runs [func] now or keeps it for
    later. *)
Variable on_commit : (State -> State) -> State -> State.

(** [DummyBackend.__init__] *)
Definition init (w : World) : State :=
  {| objects := []; results := []; world := w |}.

(** [django.tasks.utils.get_random_id] *)
Definition get_random_id (w : World) : string * World :=
  let (chars, w') := random_choices RANDOM_STRING_CHARS 32 w in
  (string_of_list_ascii chars, w').

(** [object.__setattr__(result, "enqueued_at", t)] *)
Definition set_enqueued_at (result : TaskResult) (t : Time) : TaskResult :=
  {| task := task result; id := id result; status := status result;
     enqueued_at := Some t; started_at := started_at result;
     finished_at := finished_at result; args := args result;
     kwargs := kwargs result; backend := backend result |}.

(** [DummyBackend._store_result]; a reference always has its object. *)
Definition _store_result (result : nat) (s : State) : State :=
  match nth_error (objects s) result with
  | Some o =>
      let (now, w1) := timezone_now (world s) in
      let o' := set_enqueued_at o now in
      {| objects := upd (objects s) result o';
         results := results s ++ [result];
         world := task_enqueued_send o' w1 |}
  | None => s
  end.

(** [deepcopy(result)]: a new object with the fields of [result]. *)
Definition deepcopy (result : nat) (s : State) : nat * State :=
  match nth_error (objects s) result with
  | Some o =>
      (length (objects s),
       {| objects := objects s ++ [o]; results := results s; world := world s |})
  | None => (result, s)
  end.

(** [DummyBackend.enqueue] *)
Definition enqueue (task_ : Task) (args_ : Args) (kwargs_ : Kwargs) (s : State)
  : res nat * State :=
  match validate_task task_ with
  | Some e => (Exc e, s)
  | None =>
      let (new_id, w1) := get_random_id (world s) in
      let result := length (objects s) in
      let s1 :=
        {| objects := objects s
                      ++ [{| task := task_; id := new_id; status := NEW;
                             enqueued_at := None; started_at := None;
                             finished_at := None; args := args_;
                             kwargs := kwargs_; backend := alias |}];
           results := results s;
           world := w1 |} in
      let s2 :=
        match _get_enqueue_on_commit_for_task task_ with
        | Some false => _store_result result s1
        | _ => on_commit (_store_result result) s1
        end in
      let (copy, s3) := deepcopy result s2 in
      (Val copy, s3)
  end.

(** [next(result for result in self.results if result.id == result_id)] *)
Fixpoint find_result (objs : list TaskResult) (result_id : string) (rs : list nat)
  : option nat :=
  match rs with
  | [] => None
  | r :: rs' =>
      match nth_error objs r with
      | Some o => if String.eqb (id o) result_id then Some r
                  else find_result objs result_id rs'
      | None => find_result objs result_id rs'
      end
  end.

(** [DummyBackend.get_result] *)
Definition get_result (result_id : string) (s : State) : res nat * State :=
  match find_result (objects s) result_id (results s) with
  | Some r => (Val r, s)
  | None => (Exc (ResultDoesNotExist result_id), s)
  end.

(** [DummyBackend.clear] *)
Definition clear (s : State) : State :=
  {| objects := objects s; results := []; world := world s |}.

(** Every stored reference has its object. *)
Definition wf (s : State) : Prop :=
  Forall (fun r => r < length (objects s)) (results s).

End Backend.

Arguments task {Task Args Kwargs Time Status} t.
Arguments id {Task Args Kwargs Time Status} t.
Arguments status {Task Args Kwargs Time Status} t.
Arguments enqueued_at {Task Args Kwargs Time Status} t.
Arguments started_at {Task Args Kwargs Time Status} t.
Arguments finished_at {Task Args Kwargs Time Status} t.
Arguments args {Task Args Kwargs Time Status} t.
Arguments kwargs {Task Args Kwargs Time Status} t.
Arguments backend {Task Args Kwargs Time Status} t.
Arguments objects {Task Args Kwargs Time Status World} s.
Arguments results {Task Args Kwargs Time Status World} s.
Arguments world {Task Args Kwargs Time Status World} s.
Arguments init {Task Args Kwargs Time Status World} w.
Arguments find_result {Task Args Kwargs Time Status} objs result_id rs.
Arguments get_result {Task Args Kwargs Time Status World} result_id s.
Arguments clear {Task Args Kwargs Time Status World} s.
Arguments wf {Task Args Kwargs Time Status World} s.
Arguments deepcopy {Task Args Kwargs Time Status World} result s.
Arguments set_enqueued_at {Task Args Kwargs Time Status} result t.
Arguments get_random_id {World} RANDOM_STRING_CHARS random_choices w.
Arguments _store_result {Task Args Kwargs Time Status World} timezone_now task_enqueued_send
  result s.
Arguments enqueue {Task Args Kwargs Time Status World} NEW alias validate_task
  _get_enqueue_on_commit_for_task RANDOM_STRING_CHARS random_choices timezone_now
  task_enqueued_send on_commit task_ args_ kwargs_ s.

End Dummy.

(** A world for the examples: the clock and the random generator are
    counters, signals have no receivers, a task is its name, and the task
    named ["deferred"] is enqueued on commit. *)
Definition example_random_choices (population : list ascii) (k : nat) (w : nat)
  : list ascii * nat :=
  (repeat (nth (w mod 3) population "a"%char) k, S w).

Definition example_enqueue_on_commit (task : string) : option bool :=
  if String.eqb task "deferred" then None else Some false.

Definition example_validate_task (task : string) : option Dummy.TaskError :=
  if String.eqb task "" then Some (Dummy.InvalidTaskError "Task must have a name") else None.

(** [DummyBackend.enqueue] in the example world; here [on_commit] keeps
    the function for later. *)
Definition example_enqueue (task : string) (s : @Dummy.State string unit unit nat bool nat)
  : Dummy.res nat * @Dummy.State string unit unit nat bool nat :=
  Dummy.enqueue true "default" example_validate_task example_enqueue_on_commit
                ["a"; "b"; "c"]%char example_random_choices (fun w => (w, S w))
                (fun _ w => w) (fun _ s => s) task tt tt s.

(* ================================================================ *)
(** * Properties *)

(** ** Construction *)

(** C8: constructing a [JSONSet] with an empty mapping raises a
    [TypeError], and constructing a [JSONRemove] with no paths raises a
    [TypeError]: the constructors themselves fail, no node exists that
    could be compiled; with at least one pair or path they return the
    node. *)
Theorem construction_errors :
  (forall expression output_field,
      JSONSet_init expression output_field [] =
      Raise (TypeError "JSONSet requires at least one key-value pair to be set."))
  /\ (forall expression output_field,
         JSONRemove_init expression [] output_field =
         Raise (TypeError "JSONRemove requires at least one path to remove"))
  /\ (forall expression output_field kv fields,
         JSONSet_init expression output_field (kv :: fields) =
         Ok (JSONSet [expression] output_field (kv :: fields)))
  /\ (forall expression output_field path paths,
         JSONRemove_init expression (path :: paths) output_field =
         Ok (JSONRemove [expression] output_field (path :: paths))).
Proof. repeat split. Qed.

(** ** [_get_repr_options] *)

Lemma JSONRemove_has_no_fields srcs o paths :
  getattr (JSONRemove srcs o paths) "fields" =
  Raise (AttributeError "object has no attribute 'fields'").
Proof. unfold getattr. simpl. destruct o; reflexivity. Qed.

(** C9, amended: for every [JSONRemove] instance, [_get_repr_options]
    raises an [AttributeError], and it is the lookup of [get_repr_options]
    on the base class that raises it: [self.fields] is never read.  Had
    the base call returned, reading [self.fields] would raise an
    [AttributeError] as well, since the constructor stores [paths] and
    never [fields]; so the method returns for no instance. *)
Theorem JSONRemove_get_repr_options_raises_in_the_base_call :
  forall base_call srcs o paths,
    _get_repr_options base_call (JSONRemove srcs o paths)
    = (Raise (AttributeError "'super' object has no attribute 'get_repr_options'"),
       ["get_repr_options"])
    /\ ~ In "fields" (snd (_get_repr_options base_call (JSONRemove srcs o paths)))
    /\ (forall base,
           get_repr_options (Ok base) (JSONRemove srcs o paths)
           = Raise (AttributeError "object has no attribute 'fields'")).
Proof.
  intros base_call srcs o paths.
  split; [reflexivity|]. split.
  - cbn. intros [H|[]]. discriminate H.
  - intros base. unfold get_repr_options. simpl bind.
    rewrite JSONRemove_has_no_fields. reflexivity.
Qed.

(** C9 as stated fails: for [JSONRemove("col", "a__b")] the attribute
    [fields] is not among the names looked up, and the error raised is not
    the one of a missing [fields]. *)
Lemma JSONRemove_get_repr_options_never_reads_fields :
  let self := JSONRemove [example_col] None ["a__b"] in
  JSONRemove_init example_col ["a__b"] None = Ok self
  /\ snd (_get_repr_options (Ok []) self) = ["get_repr_options"]
  /\ fst (_get_repr_options (Ok []) self)
     = Raise (AttributeError "'super' object has no attribute 'get_repr_options'")
  /\ fst (_get_repr_options (Ok []) self)
     <> Raise (AttributeError "object has no attribute 'fields'").
Proof.
  cbv zeta. split; [reflexivity|]. split; [reflexivity|]. split; [reflexivity|].
  cbn. intros H. discriminate H.
Qed.

(** ** [JSONObject]: children and pairing *)

Lemma list_pair_ind {A : Type} (P : list A -> Prop) :
  P [] -> (forall x, P [x]) -> (forall x y l, P l -> P (x :: y :: l)) ->
  forall l, P l.
Proof.
  intros H0 H1 H2.
  assert (H : forall l, P l /\ forall x, P (x :: l)).
  { induction l as [|y l [IH1 IH2]]; split; auto. }
  intros l. apply H.
Qed.

Lemma fold_left_app_flat_map {A B : Type} (f : A -> list B) (l : list A) (acc : list B) :
  fold_left (fun acc x => acc ++ f x) l acc = acc ++ flat_map f l.
Proof.
  revert acc. induction l as [|x l IH]; intros acc; simpl.
  - now rewrite app_nil_r.
  - rewrite IH. now rewrite app_assoc.
Qed.

Lemma nth_error_evens {A : Type} (l : list A) (i : nat) :
  nth_error (evens l) i = nth_error l (2 * i).
Proof.
  revert i. induction l as [| x | x y l IH] using list_pair_ind; intros i.
  - simpl. destruct i; reflexivity.
  - destruct i as [|i]; [reflexivity|].
    simpl evens. replace (2 * S i) with (S (S (2 * i))) by lia.
    simpl. destruct i; reflexivity.
  - destruct i as [|i]; [reflexivity|].
    replace (2 * S i) with (S (S (2 * i))) by lia.
    change (evens (x :: y :: l)) with (x :: evens l). simpl. apply IH.
Qed.

Lemma nth_error_odds {A : Type} (l : list A) (i : nat) :
  nth_error (odds l) i = nth_error l (2 * i + 1).
Proof.
  destruct l as [|x l]; simpl.
  - destruct i; reflexivity.
  - replace (i + (i + 0) + 1) with (S (2 * i)) by lia. simpl. apply nth_error_evens.
Qed.

Lemma zip_strict_even {A : Type} (l : list A) :
  Nat.even (length l) = true ->
  zip_strict (evens l) (odds l) = Ok (combine (evens l) (odds l)).
Proof.
  induction l as [| x | x y l IH] using list_pair_ind; intros H.
  - reflexivity.
  - discriminate.
  - change (evens (x :: y :: l)) with (x :: evens l).
    change (odds (x :: y :: l)) with (y :: odds l).
    simpl in H. simpl. rewrite IH by exact H. reflexivity.
Qed.

Lemma zip_strict_odd {A : Type} (l : list A) :
  Nat.even (length l) = false ->
  zip_strict (evens l) (odds l) =
  Raise (ValueError "zip() argument 2 is shorter than argument 1").
Proof.
  induction l as [| x | x y l IH] using list_pair_ind; intros H.
  - discriminate.
  - reflexivity.
  - change (evens (x :: y :: l)) with (x :: evens l).
    change (odds (x :: y :: l)) with (y :: odds l).
    simpl in H. simpl. rewrite IH by exact H. reflexivity.
Qed.

Lemma JSONObject_init_sources (fields : dict Expr) :
  JSONObject_init fields =
  JSONObject (flat_map (fun kv => [Value (Raw (PStr (fst kv))) None; snd kv]) fields).
Proof.
  unfold JSONObject_init.
  now rewrite (fold_left_app_flat_map
                 (fun kv : string * Expr => [Value (Raw (PStr (fst kv))) None; snd kv])).
Qed.

(** C7: a [JSONObject] node has exactly two children per key-value pair
    given to its constructor (so an even number), child [2i] is the key
    and child [2i+1] the value of pair [i]; [join] pairs argument [2i]
    with argument [2i+1], and raises a [ValueError] (it neither truncates
    nor pads) when the numbers of keys and values differ, that is on an
    odd number of arguments. *)
Theorem JSONObject_children_even_and_paired :
  (forall fields : dict Expr,
      exists srcs,
        JSONObject_init fields = JSONObject srcs
        /\ length srcs = 2 * length fields
        /\ Nat.even (length srcs) = true
        /\ forall i kv, nth_error fields i = Some kv ->
                        nth_error srcs (2 * i) = Some (Value (Raw (PStr (fst kv))) None)
                        /\ nth_error srcs (2 * i + 1) = Some (snd kv))
  /\ (forall args : list string,
         Nat.even (length args) = true ->
         JSONObject_join args =
         Ok (str_join ", " (map (fun kv => "(" +++ fst kv +++ ") VALUE " +++ snd kv)
                                (combine (evens args) (odds args))))
         /\ length (evens args) = length (odds args)
         /\ forall i, nth_error (evens args) i = nth_error args (2 * i)
                      /\ nth_error (odds args) i = nth_error args (2 * i + 1))
  /\ (forall args : list string,
         Nat.even (length args) = false ->
         length (evens args) <> length (odds args)
         /\ JSONObject_join args =
            Raise (ValueError "zip() argument 2 is shorter than argument 1")).
Proof.
  split; [|split].
  - intros fields. eexists. split; [apply JSONObject_init_sources|].
    assert (Hlen : length (flat_map (fun kv : string * Expr =>
                      [Value (Raw (PStr (fst kv))) None; snd kv]) fields)
                   = 2 * length fields).
    { induction fields as [|kv fields IH]; simpl; [reflexivity|]. simpl in IH. lia. }
    split; [exact Hlen|]. split.
    { rewrite Hlen. clear. induction (length fields) as [|n IH]; [reflexivity|].
      replace (2 * S n) with (S (S (2 * n))) by lia. exact IH. }
    induction fields as [|kv0 fields IH]; intros i kv Hi.
    + destruct i; discriminate.
    + destruct i as [|i].
      * injection Hi as <-. split; reflexivity.
      * replace (2 * S i) with (S (S (2 * i))) by lia.
        replace (S (S (2 * i)) + 1) with (S (S (2 * i + 1))) by lia.
        simpl flat_map. simpl nth_error.
        apply IH; [|exact Hi].
        simpl in Hlen. lia.
  - intros args H. split; [|split].
    + unfold JSONObject_join. rewrite zip_strict_even by exact H. reflexivity.
    + clear - H. induction args as [| x | x y l IH] using list_pair_ind.
      * reflexivity.
      * discriminate.
      * change (evens (x :: y :: l)) with (x :: evens l).
        change (odds (x :: y :: l)) with (y :: odds l).
        simpl. f_equal. apply IH. exact H.
    + intros i. split; [apply nth_error_evens|apply nth_error_odds].
  - intros args H. split.
    + clear - H. induction args as [| x | x y l IH] using list_pair_ind.
      * discriminate.
      * simpl. discriminate.
      * change (evens (x :: y :: l)) with (x :: evens l).
        change (odds (x :: y :: l)) with (y :: odds l).
        simpl. intros Heq. apply IH; [exact H|]. now injection Heq.
    + unfold JSONObject_join. rewrite zip_strict_odd by exact H. reflexivity.
Qed.

(** ** The [retry] decorator *)

Section RetryProperties.

Variables World Ret Err Delay : Type.
Variable f : World -> @Attempt Ret Err * World.

Lemma call_count_app (l1 l2 : list (@Event Delay)) :
  call_count (l1 ++ l2) = call_count l1 + call_count l2.
Proof. unfold call_count. now rewrite filter_app, length_app. Qed.

Lemma world_after_S (n : nat) (w : World) :
  world_after f (S n) w = world_after f n (snd (f w)).
Proof. reflexivity. Qed.

(** The loop over the attempts [a, a+1, ..., R], started in world [w]. *)
Lemma retry_loop_spec (R : nat) (d : Delay) :
  forall n a w log res w' log',
    a + n = R + 1 ->
    retry_loop f (Z.of_nat R) d (map Z.of_nat (seq a n)) w log = (res, w', log') ->
    call_count log' <= call_count log + n
    /\ (forall j v,
           j < n ->
           (forall i, i < j -> raises_other (fst (f (world_after f i w)))) ->
           fst (f (world_after f j w)) = Returns v ->
           res = Returned v /\ call_count log' = call_count log + S j
           /\ w' = world_after f (S j) w)
    /\ (forall j,
           j < n ->
           (forall i, i < j -> raises_other (fst (f (world_after f i w)))) ->
           fst (f (world_after f j w)) = Raises KeyboardInterrupt ->
           res = Raised_ KeyboardInterrupt /\ call_count log' = call_count log + S j
           /\ w' = world_after f (S j) w)
    /\ (1 <= n ->
        (forall i, i < n -> raises_other (fst (f (world_after f i w)))) ->
        res = Raised_ match fst (f (world_after f (n - 1) w)) with
                      | Raises x => x
                      | Returns _ => KeyboardInterrupt
                      end
        /\ call_count log' = call_count log + n
        /\ w' = world_after f n w).
Proof.
  induction n as [|n IH]; intros a w log res w' log' Han Hrun.
  - simpl in Hrun. injection Hrun as <- <- <-.
    split; [lia|]. repeat split; intros; lia.
  - simpl in Hrun. destruct (f w) as [r w1] eqn:Hf.
    assert (Hw1 : forall i, world_after f (S i) w = world_after f i w1).
    { intros i. rewrite world_after_S, Hf. reflexivity. }
    assert (H0 : fst (f (world_after f 0 w)) = r) by (simpl; now rewrite Hf).
    destruct r as [v0 | [| e]].
    + injection Hrun as <- <- <-.
      rewrite call_count_app. change (@call_count Delay [Called]) with 1.
      split; [lia|]. split; [|split].
      * intros j v Hj Hprev Hret. destruct j as [|j].
        -- rewrite H0 in Hret. injection Hret as <-.
           repeat split; try lia. now rewrite Hw1.
        -- destruct (Hprev 0 ltac:(lia)) as [e He]. rewrite H0 in He. discriminate.
      * intros j Hj Hprev Hki. destruct j as [|j].
        -- rewrite H0 in Hki. discriminate.
        -- destruct (Hprev 0 ltac:(lia)) as [e He]. rewrite H0 in He. discriminate.
      * intros _ Hall. destruct (Hall 0 ltac:(lia)) as [e He]. rewrite H0 in He. discriminate.
    + injection Hrun as <- <- <-.
      rewrite call_count_app. change (@call_count Delay [Called]) with 1.
      split; [lia|]. split; [|split].
      * intros j v Hj Hprev Hret. destruct j as [|j].
        -- rewrite H0 in Hret. discriminate.
        -- destruct (Hprev 0 ltac:(lia)) as [e He]. rewrite H0 in He. discriminate.
      * intros j Hj Hprev Hki. destruct j as [|j].
        -- repeat split; try lia. now rewrite Hw1.
        -- destruct (Hprev 0 ltac:(lia)) as [e He]. rewrite H0 in He. discriminate.
      * intros _ Hall. destruct (Hall 0 ltac:(lia)) as [e He]. rewrite H0 in He. discriminate.
    + destruct (Z.eqb_spec (Z.of_nat a) (Z.of_nat R)) as [Heq | Hne].
      * assert (n = 0) by lia. subst n.
        injection Hrun as <- <- <-.
        rewrite call_count_app. change (@call_count Delay [Called]) with 1.
        split; [lia|]. split; [|split].
        -- intros j v Hj Hprev Hret. assert (j = 0) by lia. subst j.
           rewrite H0 in Hret. discriminate.
        -- intros j Hj Hprev Hki. assert (j = 0) by lia. subst j.
           rewrite H0 in Hki. discriminate.
        -- intros _ _. simpl Nat.sub. rewrite H0.
           repeat split; try lia. now rewrite Hw1.
      * assert (Hn : 1 <= n) by lia.
        specialize (IH (S a) w1 ((log ++ [Called]) ++ [Slept d]) res w' log'
                       ltac:(lia) Hrun).
        rewrite !call_count_app in IH.
        change (@call_count Delay [Called]) with 1 in IH.
        change (@call_count Delay [Slept d]) with 0 in IH.
        destruct IH as (IHb & IHret & IHki & IHall).
        split; [lia|]. split; [|split].
        -- intros j v Hj Hprev Hret. destruct j as [|j].
           ++ rewrite H0 in Hret. discriminate.
           ++ rewrite Hw1 in Hret.
              destruct (IHret j v ltac:(lia)) as (-> & Hc & ->); auto.
              ** intros i Hi. rewrite <- Hw1. apply Hprev. lia.
              ** repeat split; try lia. now rewrite Hw1.
        -- intros j Hj Hprev Hki. destruct j as [|j].
           ++ rewrite H0 in Hki. discriminate.
           ++ rewrite Hw1 in Hki.
              destruct (IHki j ltac:(lia)) as (-> & Hc & ->); auto.
              ** intros i Hi. rewrite <- Hw1. apply Hprev. lia.
              ** repeat split; try lia. now rewrite Hw1.
        -- intros _ Hall.
           destruct (IHall Hn) as (-> & Hc & ->).
           ++ intros i Hi. rewrite <- Hw1. apply Hall. lia.
           ++ replace (S n - 1) with (S (n - 1)) by lia. rewrite Hw1.
              repeat split; try lia. now rewrite Hw1.
Qed.

Lemma py_range_from_1 (retries : Z) :
  py_range 1 (retries + 1) = map Z.of_nat (seq 1 (Z.to_nat retries)).
Proof.
  unfold py_range. replace (retries + 1 - 1)%Z with retries by lia.
  generalize (Z.to_nat retries) as n. intros n.
  rewrite <- seq_shift, map_map. apply map_ext. intros i. lia.
Qed.

(** C10: with [retries >= 1] the wrapper calls the wrapped function at
    most [retries] times.  If attempt [k <= retries] returns after the
    attempts before it raised exceptions other than [KeyboardInterrupt],
    its value is returned and exactly [k] calls were made; a
    [KeyboardInterrupt] on attempt [k] propagates after exactly [k] calls;
    if every attempt raises another exception, exactly [retries] calls are
    made and the exception of the last attempt propagates. *)
Theorem retry_calls_at_most_retries :
  forall (retries : Z) (backoff_delay : Delay) (w : World) res w' log,
    (1 <= retries)%Z ->
    retry f retries backoff_delay w = (res, w', log) ->
    (Z.of_nat (call_count log) <= retries)%Z
    /\ (forall k v,
           1 <= k -> (Z.of_nat k <= retries)%Z ->
           (forall i, 1 <= i < k -> raises_other (attempt_outcome f i w)) ->
           attempt_outcome f k w = Returns v ->
           res = Returned v /\ call_count log = k /\ w' = world_after f k w)
    /\ (forall k,
           1 <= k -> (Z.of_nat k <= retries)%Z ->
           (forall i, 1 <= i < k -> raises_other (attempt_outcome f i w)) ->
           attempt_outcome f k w = Raises KeyboardInterrupt ->
           res = Raised_ KeyboardInterrupt /\ call_count log = k
           /\ w' = world_after f k w)
    /\ ((forall i, 1 <= i -> (Z.of_nat i <= retries)%Z ->
                   raises_other (attempt_outcome f i w)) ->
        exists e,
          attempt_outcome f (Z.to_nat retries) w = Raises (BaseException e)
          /\ res = Raised_ (BaseException e)
          /\ Z.of_nat (call_count log) = retries
          /\ w' = world_after f (Z.to_nat retries) w).
Proof.
  intros retries d w res w' log Hr Hrun.
  unfold retry in Hrun. rewrite py_range_from_1 in Hrun.
  set (R := Z.to_nat retries) in *.
  assert (HR : retries = Z.of_nat R) by (unfold R; lia).
  rewrite HR in Hrun.
  destruct (retry_loop_spec R d R 1 w [] res w' log ltac:(lia) Hrun)
    as (Hb & Hret & Hki & Hall).
  change (call_count []) with 0 in *. simpl in Hb.
  split; [lia|]. split; [|split].
  - intros k v Hk Hkr Hprev Hv. destruct k as [|j]; [lia|].
    unfold attempt_outcome in Hv. replace (S j - 1) with j in Hv by lia.
    apply Hret; [lia| |exact Hv].
    intros i Hi. specialize (Hprev (S i) ltac:(lia)).
    unfold attempt_outcome in Hprev. now replace (S i - 1) with i in Hprev by lia.
  - intros k Hk Hkr Hprev Hv. destruct k as [|j]; [lia|].
    unfold attempt_outcome in Hv. replace (S j - 1) with j in Hv by lia.
    apply Hki; [lia| |exact Hv].
    intros i Hi. specialize (Hprev (S i) ltac:(lia)).
    unfold attempt_outcome in Hprev. now replace (S i - 1) with i in Hprev by lia.
  - intros Hevery.
    assert (Hall' : forall i, i < R -> raises_other (fst (f (world_after f i w)))).
    { intros i Hi. specialize (Hevery (S i) ltac:(lia) ltac:(lia)).
      unfold attempt_outcome in Hevery. now replace (S i - 1) with i in Hevery by lia. }
    destruct (Hall ltac:(lia) Hall') as (Hres & Hc & Hw).
    destruct (Hall' (R - 1) ltac:(lia)) as [e He].
    exists e. unfold attempt_outcome. rewrite He in Hres.
    repeat split; auto. lia.
Qed.

End RetryProperties.

Lemma retry_calls_at_most_retries_witness :
  let log := [Called; Slept tt; Called; Slept tt; Called] in
  (1 <= 3)%Z
  /\ retry flaky 3 tt 0 = (Returned 2, 3, log)
  /\ ((Z.of_nat (call_count log) <= 3)%Z
      /\ (forall k v,
             1 <= k -> (Z.of_nat k <= 3)%Z ->
             (forall i, 1 <= i < k -> raises_other (attempt_outcome flaky i 0)) ->
             attempt_outcome flaky k 0 = Returns v ->
             @Returned nat unit 2 = Returned v /\ call_count log = k /\ 3 = world_after flaky k 0)
      /\ (forall k,
             1 <= k -> (Z.of_nat k <= 3)%Z ->
             (forall i, 1 <= i < k -> raises_other (attempt_outcome flaky i 0)) ->
             attempt_outcome flaky k 0 = Raises KeyboardInterrupt ->
             @Returned nat unit 2 = Raised_ KeyboardInterrupt /\ call_count log = k
             /\ 3 = world_after flaky k 0)
      /\ ((forall i, 1 <= i -> (Z.of_nat i <= 3)%Z ->
                     raises_other (attempt_outcome flaky i 0)) ->
          exists e,
            attempt_outcome flaky (Z.to_nat 3) 0 = Raises (BaseException e)
            /\ @Returned nat unit 2 = Raised_ (BaseException e)
            /\ Z.of_nat (call_count log) = 3%Z
            /\ 3 = world_after flaky (Z.to_nat 3) 0)).
Proof.
  intros log. split; [lia|]. split; [reflexivity|].
  apply (retry_calls_at_most_retries nat nat unit unit flaky 3%Z tt 0 (Returned 2) 3 log);
    [lia | reflexivity].
Defined.

(** ** Fuel: the interpreter is monotone and total *)

Lemma le_out_refl {A : Type} (r : outcome A) : le_out r r.
Proof. now right. Qed.

Lemma le_out_trans {A : Type} (r1 r2 r3 : outcome A) :
  le_out r1 r2 -> le_out r2 r3 -> le_out r1 r3.
Proof. intros [->| ->] H; [now left | exact H]. Qed.

Lemma bind_le {A B : Type} (m1 m2 : outcome A) (k1 k2 : A -> outcome B) :
  le_out m1 m2 -> (forall a, le_out (k1 a) (k2 a)) ->
  le_out (bind m1 k1) (bind m2 k2).
Proof.
  intros [->| ->] Hk; [now left|].
  destruct m2; simpl; [apply Hk | now right | now left].
Qed.

Lemma mapM_le {A B : Type} (f1 f2 : A -> outcome B) (l : list A) :
  (forall x, le_out (f1 x) (f2 x)) -> le_out (mapM f1 l) (mapM f2 l).
Proof.
  intros Hf. induction l as [|x l IH]; simpl; [apply le_out_refl|].
  apply bind_le; [apply Hf|]. intros y.
  apply bind_le; [exact IH|]. intros ys. apply le_out_refl.
Qed.

Section FuelProperties.

Variable compile_json_path : list string -> string.
Variable conn : Connection.

Section Monotone.

Variables c1 c2 : Method -> Expr -> outcome SQL.
Hypothesis Hc : forall m e, le_out (c1 m e) (c2 m e).

Lemma Func_as_sql_le srcs cf fn t j :
  le_out (Func_as_sql compile_json_path (c1 M_compile) srcs cf fn t j)
         (Func_as_sql compile_json_path (c2 M_compile) srcs cf fn t j).
Proof using Hc.
  unfold Func_as_sql. apply bind_le; [apply mapM_le; intros x; apply Hc|].
  intros compiled. apply le_out_refl.
Qed.

Lemma run_method_le m e :
  le_out (run_method compile_json_path c1 conn m e)
         (run_method compile_json_path c2 conn m e).
Proof using Hc.
  destruct m, e; simpl; try apply le_out_refl;
    unfold Cast_as_sql, Cast_as_postgresql, JSONObject_as_sql, JSONObject_as_postgresql,
      JSONObject_as_oracle, JSONObject_as_native, JSONObject_as_sql, JSONSet_as_sql,
      JSONSet_as_postgresql, JSONSet_as_oracle, JSONRemove_as_sql,
      JSONRemove_as_postgresql, JSONRemove_as_oracle;
    repeat match goal with
           | |- le_out (if ?b then _ else _) (if ?b then _ else _) => destruct b
           | |- le_out (match ?l with [] => _ | _ :: _ => _ end)
                       (match ?l with [] => _ | _ :: _ => _ end) => destruct l
           | |- le_out (let (_, _) := ?p in _) (let (_, _) := ?p in _) => destruct p
           | |- le_out (bind _ _) (bind _ _) => apply bind_le; [|intros ?]
           | |- le_out (Func_as_sql _ _ _ _ _ _ _) (Func_as_sql _ _ _ _ _ _ _) =>
               apply Func_as_sql_le
           | |- le_out (c1 _ _) (c2 _ _) => apply Hc
           | |- le_out ?x ?x => apply le_out_refl
           end.
Qed.

Lemma compiler_compile_le e :
  le_out (compiler_compile compile_json_path c1 conn e)
         (compiler_compile compile_json_path c2 conn e).
Proof using Hc.
  unfold compiler_compile. destruct (vendor_method (vendor conn)) as [m|].
  - destruct (has_method e m); apply run_method_le.
  - apply run_method_le.
Qed.

End Monotone.

Lemma call_le_S fuel :
  forall m e, le_out (call compile_json_path fuel conn m e)
                     (call compile_json_path (S fuel) conn m e).
Proof.
  induction fuel as [|fuel IH]; intros m e; [now left|].
  change (call compile_json_path (S (S fuel)) conn m e)
    with (match m with
          | M_compile =>
              compiler_compile compile_json_path (call compile_json_path (S fuel) conn) conn e
          | _ => run_method compile_json_path (call compile_json_path (S fuel) conn) conn m e
          end).
  change (call compile_json_path (S fuel) conn m e)
    with (match m with
          | M_compile =>
              compiler_compile compile_json_path (call compile_json_path fuel conn) conn e
          | _ => run_method compile_json_path (call compile_json_path fuel conn) conn m e
          end).
  destruct m; [apply compiler_compile_le | apply run_method_le ..]; exact IH.
Qed.

Lemma call_le fuel fuel' m e :
  fuel <= fuel' ->
  le_out (call compile_json_path fuel conn m e) (call compile_json_path fuel' conn m e).
Proof.
  induction 1 as [|fuel' _ IH]; [apply le_out_refl|].
  eapply le_out_trans; [exact IH | apply call_le_S].
Qed.

End FuelProperties.

(** *** Dictionaries built from items *)

Section DictProperties.

Context {V : Type}.
Variable g : V -> nat.

Lemma dict_set_length (d : dict V) k v : length (dict_set d k v) <= S (length d).
Proof.
  induction d as [|[k' v'] d IH]; simpl; [lia|].
  destruct (String.eqb k' k); simpl; lia.
Qed.

Lemma dict_set_sum (d : dict V) k v : sum_values g (dict_set d k v) <= sum_values g d + g v.
Proof.
  unfold sum_values. induction d as [|[k' v'] d IH]; simpl; [lia|].
  destruct (String.eqb k' k); simpl; lia.
Qed.

Lemma dict_fold_length (items : list (string * V)) (d : dict V) :
  length (fold_left (fun d kv => dict_set d (fst kv) (snd kv)) items d)
  <= length d + length items.
Proof.
  revert d. induction items as [|[k v] items IH]; intros d; simpl; [lia|].
  specialize (IH (dict_set d k v)). pose proof (dict_set_length d k v). lia.
Qed.

Lemma dict_fold_sum (items : list (string * V)) (d : dict V) :
  sum_values g (fold_left (fun d kv => dict_set d (fst kv) (snd kv)) items d)
  <= sum_values g d + sum_values g items.
Proof.
  revert d. induction items as [|[k v] items IH]; intros d; simpl; [lia|].
  specialize (IH (dict_set d k v)). pose proof (dict_set_sum d k v).
  unfold sum_values in *. simpl. lia.
Qed.

Lemma dict_of_items_length (items : list (string * V)) :
  length (dict_of_items items) <= length items.
Proof. apply (dict_fold_length items []). Qed.

Lemma dict_of_items_sum (items : list (string * V)) :
  sum_values g (dict_of_items items) <= sum_values g items.
Proof. apply (dict_fold_sum items []). Qed.

Lemma dict_set_fresh (d : dict V) k v :
  key_in k d = false -> dict_set d k v = d ++ [(k, v)].
Proof.
  induction d as [|[k' v'] d IH]; simpl; [reflexivity|].
  destruct (String.eqb k' k); simpl; [discriminate|].
  intros H. now rewrite IH.
Qed.

Lemma key_in_app k (d1 d2 : dict V) : key_in k (d1 ++ d2) = key_in k d1 || key_in k d2.
Proof.
  induction d1 as [|[k' v'] d1 IH]; simpl; [reflexivity|].
  rewrite IH. now rewrite orb_assoc.
Qed.

Lemma dict_fold_unique (items : list (string * V)) (d : dict V) :
  keys_unique (d ++ items) = true ->
  fold_left (fun d kv => dict_set d (fst kv) (snd kv)) items d = d ++ items.
Proof.
  revert d. induction items as [|[k v] items IH]; intros d H; simpl.
  - now rewrite app_nil_r.
  - assert (Hk : key_in k d = false).
    { clear IH. induction d as [|[k' v'] d IHd]; [reflexivity|].
      simpl in H. apply andb_prop in H. destruct H as [Hn Hu].
      simpl. rewrite key_in_app in Hn. simpl in Hn.
      destruct (String.eqb_spec k' k) as [->|Hne].
      + rewrite String.eqb_refl in Hn. rewrite orb_true_r in Hn. discriminate.
      + simpl. apply IHd. exact Hu. }
    rewrite dict_set_fresh by exact Hk.
    rewrite IH; rewrite <- app_assoc; [reflexivity | exact H].
Qed.

(** For the items of a dictionary, [dict(items)] is that dictionary. *)
Lemma dict_of_items_unique (items : list (string * V)) :
  keys_unique items = true -> dict_of_items items = items.
Proof. intros H. apply (dict_fold_unique items []). exact H. Qed.

End DictProperties.

(** *** Enough fuel *)

Lemma fuel_of_pos (e : Expr) : 1 <= fuel_of e.
Proof. destruct e; simpl; lia. Qed.

Lemma fuel_of_In (x : Expr) (l : list Expr) :
  In x l -> fuel_of x <= list_sum (map fuel_of l).
Proof.
  induction l as [|y l IH]; simpl; [tauto|].
  intros [->|H]; [lia | specialize (IH H); lia].
Qed.

Lemma fuel_of_field (kv : string * Expr) (fields : dict Expr) :
  In kv fields -> 2 + fuel_of (snd kv) <= sum_values (fun v => 2 + fuel_of v) fields.
Proof.
  unfold sum_values. induction fields as [|y l IH]; simpl; [tauto|].
  intros [->|H]; [lia | specialize (IH H); simpl in IH; lia].
Qed.

Lemma fuel_of_JSONSet srcs o fields :
  fuel_of (JSONSet srcs o fields) =
  1 + list_sum (map fuel_of srcs) + length fields * length fields
  + sum_values (fun v => 2 + fuel_of v) fields.
Proof. reflexivity. Qed.

Lemma In_cast_keys (x : Expr) (l : list Expr) :
  In x (cast_keys l) -> exists s, In s l /\ (x = s \/ x = Cast s TextField).
Proof.
  unfold cast_keys. intros H. apply in_map_iff in H.
  destruct H as [[i s] [Hx Hin]]. apply in_combine_r in Hin.
  exists s. split; [exact Hin|]. simpl in Hx.
  destruct (Nat.even i); [right | left]; now symmetry.
Qed.

Lemma bind_defined {A B : Type} (m : outcome A) (k : A -> outcome B) :
  m <> OutOfFuel -> (forall a, m = Ok a -> k a <> OutOfFuel) -> bind m k <> OutOfFuel.
Proof. destruct m; simpl; intros Hm Hk; [now apply Hk | discriminate | congruence]. Qed.

Lemma mapM_defined {A B : Type} (f : A -> outcome B) (l : list A) :
  (forall x, In x l -> f x <> OutOfFuel) -> mapM f l <> OutOfFuel.
Proof.
  induction l as [|x l IH]; intros H; simpl; [discriminate|].
  apply bind_defined; [apply H; now left|]. intros y _.
  apply bind_defined; [apply IH; intros z Hz; apply H; now right|].
  intros ys _. discriminate.
Qed.

Lemma zip_strict_defined {A B : Type} (a : list A) (b : list B) :
  zip_strict a b <> OutOfFuel.
Proof.
  revert b. induction a as [|x a IH]; intros [|y b]; simpl; try discriminate.
  apply bind_defined; [apply IH|]. intros r _. discriminate.
Qed.

Section Totality.

Variable compile_json_path : list string -> string.
Variable conn : Connection.

Lemma join_with_defined j args : join_with compile_json_path j args <> OutOfFuel.
Proof.
  destruct j as [sep|node]; simpl; [discriminate|].
  destruct node; try discriminate.
  - unfold JSONObject_join. apply bind_defined; [apply zip_strict_defined|].
    intros r _. discriminate.
  - unfold JSONSet_join. destruct fields as [|[k v] ?]; [discriminate|].
    destruct args; [discriminate|]. destruct (isinstance_Value v); discriminate.
  - unfold JSONRemove_join. destruct paths; [discriminate|].
    destruct args; discriminate.
Qed.

Lemma Func_as_sql_defined (c : Expr -> outcome SQL) srcs cf fn t j :
  (forall x, In x srcs -> c x <> OutOfFuel) ->
  Func_as_sql compile_json_path c srcs cf fn t j <> OutOfFuel.
Proof.
  intros H. unfold Func_as_sql. apply bind_defined; [now apply mapM_defined|].
  intros compiled _. apply bind_defined; [apply join_with_defined|].
  intros s _. discriminate.
Qed.

Lemma In_JSONSet_as_sql_sources F (fields : dict Expr) (srcs : list Expr) (x : Expr) :
  In x (fold_left
          (fun new_source_expressions (kv : string * Expr) =>
             new_source_expressions
               ++ [Value (Raw (PStr (compile_json_path (str_split (fst kv) LOOKUP_SEP)))) None;
                   if isinstance_Value (snd kv) then Cast (snd kv) F else snd kv])
          fields srcs) ->
  In x srcs \/ (fuel_of x = 1 /\ fields <> [])
  \/ exists kv, In kv fields /\ (x = snd kv \/ x = Cast (snd kv) F).
Proof.
  revert srcs. induction fields as [|kv fields IH]; intros srcs H; simpl in H; [now left|].
  apply IH in H. destruct H as [H | [[H _] | (kv' & Hin & Hx)]].
  - apply in_app_or in H. destruct H as [H | [<- | [<- | []]]].
    + now left.
    + right. left. split; [reflexivity | discriminate].
    + right. right. exists kv. split; [now left|].
      destruct (isinstance_Value (snd kv)); [now right | now left].
  - right. left. split; [exact H | discriminate].
  - right. right. exists kv'. split; [now right | exact Hx].
Qed.

Lemma In_JSONRemove_as_sql_sources (paths : list string) (srcs : list Expr) (x : Expr) :
  In x (fold_left
          (fun new_source_expressions path =>
             new_source_expressions
               ++ [Value (Raw (PStr (compile_json_path (str_split path LOOKUP_SEP)))) None])
          paths srcs) ->
  In x srcs \/ (fuel_of x = 1 /\ paths <> []).
Proof.
  revert srcs. induction paths as [|p paths IH]; intros srcs H; simpl in H; [now left|].
  apply IH in H. destruct H as [H | [H _]]; [|right; split; [exact H | discriminate]].
  apply in_app_or in H. destruct H as [H | [<- | []]]; [now left|].
  right. split; [reflexivity | discriminate].
Qed.

Lemma fuel_of_postgresql_value F v :
  fuel_of (JSONSet_postgresql_value F v) <= 1 + fuel_of v.
Proof.
  unfold JSONSet_postgresql_value.
  destruct (has_resolve_expression v && negb (is_JSONField (output_field_of v))); [simpl; lia|].
  destruct (isinstance_Value v && value_is_None v); simpl; lia.
Qed.

Lemma fuel_of_JSONSet_rest srcs o k v kv rest :
  fuel_of (JSONSet [JSONSet srcs o [(k, v)]] None (dict_of_items (kv :: rest)))
  < fuel_of (JSONSet srcs o ((k, v) :: kv :: rest)).
Proof.
  rewrite !fuel_of_JSONSet.
  pose proof (dict_of_items_length (kv :: rest)) as Hl.
  pose proof (dict_of_items_sum (fun v => 2 + fuel_of v) (kv :: rest)) as Hs.
  set (d := dict_of_items (kv :: rest)) in *.
  change (list_sum (map fuel_of [JSONSet srcs o [(k, v)]]))
    with (fuel_of (JSONSet srcs o [(k, v)]) + 0).
  rewrite fuel_of_JSONSet.
  unfold sum_values in *. simpl in *. nia.
Qed.

Lemma fuel_of_JSONRemove_rest srcs o p q rest :
  fuel_of (JSONRemove [JSONRemove srcs o [p]] None (q :: rest))
  < fuel_of (JSONRemove srcs o (p :: q :: rest)).
Proof. simpl. nia. Qed.

Lemma run_method_defined (c : Method -> Expr -> outcome SQL) (n : nat) :
  (forall m e, fuel_of e <= n -> c m e <> OutOfFuel) ->
  forall m e, fuel_of e <= S n -> run_method compile_json_path c conn m e <> OutOfFuel.
Proof.
  intros IH m e He.
  assert (Hsrc : forall srcs extra cf fn t j,
             list_sum (map fuel_of srcs) <= n ->
             (forall x, In x extra -> fuel_of x <= n) ->
             Func_as_sql compile_json_path (c M_compile) (srcs ++ extra) cf fn t j
             <> OutOfFuel).
  { intros srcs extra cf fn t j Hs Hx. apply Func_as_sql_defined.
    intros x Hin. apply IH. apply in_app_or in Hin. destruct Hin as [Hin|Hin].
    - apply fuel_of_In in Hin. lia.
    - now apply Hx. }
  destruct m, e; simpl; try discriminate.
  - (* Cast.as_sql *)
    unfold Cast_as_sql. simpl in He.
    apply bind_defined; [apply IH; lia|]. intros [sql params] _. discriminate.
  - (* ToJSONB.as_sql *)
    simpl in He. apply Func_as_sql_defined. intros x [<-|[]]. apply IH. lia.
  - (* JSONObject.as_sql *)
    unfold JSONObject_as_sql. simpl in He.
    destruct (negb _); [discriminate|].
    apply Func_as_sql_defined. intros x Hin. apply IH.
    apply fuel_of_In in Hin. lia.
  - (* JSONSet.as_sql *)
    unfold JSONSet_as_sql. rewrite fuel_of_JSONSet in He.
    destruct (negb _); [discriminate|].
    apply Func_as_sql_defined. intros x Hin. apply IH.
    apply In_JSONSet_as_sql_sources in Hin.
    destruct Hin as [Hin | [[Hin Hne] | (kv & Hin & Hx)]].
    + apply fuel_of_In in Hin. lia.
    + destruct fields; [congruence|]. simpl in He. lia.
    + apply fuel_of_field in Hin. destruct Hx as [-> | ->]; simpl; lia.
  - (* JSONRemove.as_sql *)
    unfold JSONRemove_as_sql. simpl in He.
    destruct (negb _); [discriminate|].
    apply Func_as_sql_defined. intros x Hin. apply IH.
    apply In_JSONRemove_as_sql_sources in Hin.
    destruct Hin as [Hin | [Hin Hne]].
    + apply fuel_of_In in Hin. lia.
    + destruct paths; [congruence|]. simpl in He. lia.
  - (* Cast.as_postgresql *)
    unfold Cast_as_postgresql. simpl in He.
    apply bind_defined; [apply IH; lia|]. intros [sql params] _. discriminate.
  - (* JSONObject.as_postgresql *)
    unfold JSONObject_as_postgresql, JSONObject_as_native, JSONObject_as_sql.
    simpl in He.
    assert (Hk : forall x, In x (cast_keys source_expressions) ->
                           c M_compile x <> OutOfFuel).
    { intros x Hin. apply IH. apply In_cast_keys in Hin.
      destruct Hin as (s & Hs & [-> | ->]); apply fuel_of_In in Hs; simpl; lia. }
    destruct (is_postgresql_16 _).
    + destruct (negb _); [discriminate|]. now apply Func_as_sql_defined.
    + now apply Func_as_sql_defined.
  - (* JSONSet.as_postgresql *)
    unfold JSONSet_as_postgresql.
    destruct fields as [|[k v] [|kv rest]]; [discriminate| |].
    + rewrite fuel_of_JSONSet in He. unfold sum_values in He. simpl in He.
      apply Hsrc; [lia|].
      intros x [<- | [<- | []]]; [simpl; lia|].
      pose proof (fuel_of_postgresql_value
                    (output_field_of (JSONSet source_expressions output_field [(k, v)])) v).
      lia.
    + apply bind_defined.
      * unfold JSONSet_init. destruct (dict_of_items (kv :: rest)); discriminate.
      * intros node Hnode. apply IH.
        pose proof (fuel_of_JSONSet_rest source_expressions output_field k v kv rest).
        unfold JSONSet_init in Hnode.
        destruct (dict_of_items (kv :: rest)) eqn:Hd; [discriminate|].
        injection Hnode as <-. lia.
  - (* JSONRemove.as_postgresql *)
    unfold JSONRemove_as_postgresql.
    destruct paths as [|p [|q rest]]; [discriminate| |].
    + simpl in He. apply Hsrc; [lia|]. intros x [<- | []]. simpl. lia.
    + apply bind_defined; [discriminate|].
      intros node Hnode. simpl in Hnode. injection Hnode as <-. apply IH.
      pose proof (fuel_of_JSONRemove_rest source_expressions output_field p q rest). lia.
  - (* JSONObject.as_oracle *)
    unfold JSONObject_as_oracle, JSONObject_as_native, JSONObject_as_sql.
    simpl in He. destruct (negb _); [discriminate|].
    apply Func_as_sql_defined. intros x Hin. apply IH.
    apply fuel_of_In in Hin. lia.
  - (* JSONSet.as_oracle *)
    unfold JSONSet_as_oracle. destruct (negb _); [discriminate|].
    destruct fields as [|[k v] [|kv rest]]; [discriminate| |].
    + rewrite fuel_of_JSONSet in He. unfold sum_values in He. simpl in He.
      apply Hsrc; [lia|].
      intros x [<- | []]. destruct (isinstance_Value v); simpl; lia.
    + apply bind_defined.
      * unfold JSONSet_init. destruct (dict_of_items (kv :: rest)); discriminate.
      * intros node Hnode. apply IH.
        pose proof (fuel_of_JSONSet_rest source_expressions output_field k v kv rest).
        unfold JSONSet_init in Hnode.
        destruct (dict_of_items (kv :: rest)) eqn:Hd; [discriminate|].
        injection Hnode as <-. lia.
  - (* JSONRemove.as_oracle *)
    unfold JSONRemove_as_oracle. destruct (negb _); [discriminate|].
    destruct paths as [|p [|q rest]]; [discriminate| |].
    + simpl in He. apply Func_as_sql_defined. intros x Hin. apply IH.
      apply fuel_of_In in Hin. lia.
    + apply bind_defined; [discriminate|].
      intros node Hnode. simpl in Hnode. injection Hnode as <-. apply IH.
      pose proof (fuel_of_JSONRemove_rest source_expressions output_field p q rest). lia.
Qed.

(** Every method call on [e] returns or raises within [fuel_of e] nested
    calls. *)
Lemma call_defined (fuel : nat) :
  forall m e, fuel_of e <= fuel -> call compile_json_path fuel conn m e <> OutOfFuel.
Proof.
  induction fuel as [|n IH]; intros m e He.
  - pose proof (fuel_of_pos e). lia.
  - destruct m; cbn [call].
    + unfold compiler_compile. destruct (vendor_method (vendor conn)) as [m'|].
      * destruct (has_method e m'); now apply (run_method_defined _ n).
      * now apply (run_method_defined _ n).
    + now apply (run_method_defined _ n).
    + now apply (run_method_defined _ n).
    + now apply (run_method_defined _ n).
Qed.

(** More fuel than [fuel_of e] changes nothing. *)
Lemma call_fuel_irrelevant (fuel : nat) m e :
  fuel_of e <= fuel ->
  call compile_json_path fuel conn m e = call compile_json_path (fuel_of e) conn m e.
Proof.
  intros He. destruct (call_le compile_json_path conn (fuel_of e) fuel m e He) as [H|H].
  - exfalso. revert H. now apply call_defined.
  - now symmetry.
Qed.

End Totality.

(** ** The methods, unfolded *)

Lemma append_assoc (a b c : string) : (a +++ b) +++ c = a +++ (b +++ c).
Proof. induction a as [|ch a IH]; simpl; [reflexivity | now rewrite IH]. Qed.

Section Unfolding.

Variable compile_json_path : list string -> string.
Variable conn : Connection.

Local Notation "'invoke_'" := (invoke compile_json_path conn).
Local Notation "'compile_'" := (compile compile_json_path conn).
Local Notation "'as_sql_'" := (as_sql compile_json_path conn).
Local Notation "'as_postgresql_'" := (as_postgresql compile_json_path conn).
Local Notation "'as_oracle_'" := (as_oracle compile_json_path conn).

Lemma call_le_invoke (fuel : nat) m e :
  le_out (call compile_json_path fuel conn m e) (invoke_ m e).
Proof.
  unfold invoke.
  destruct (Nat.le_ge_cases fuel (fuel_of e)) as [H|H].
  - now apply call_le.
  - right. now apply call_fuel_irrelevant.
Qed.

(** A method call is the method body over the total methods. *)
Lemma invoke_unfold m e :
  invoke_ m e =
  match m with
  | M_compile => compiler_compile compile_json_path invoke_ conn e
  | _ => run_method compile_json_path invoke_ conn m e
  end.
Proof.
  unfold invoke at 1.
  rewrite <- (call_fuel_irrelevant compile_json_path conn (S (fuel_of e))) by lia.
  pose proof (call_defined compile_json_path conn (S (fuel_of e)) m e ltac:(lia)) as Hd.
  cbn [call] in *.
  destruct m.
  - destruct (compiler_compile_le compile_json_path conn
                (call compile_json_path (fuel_of e) conn) invoke_
                (call_le_invoke (fuel_of e)) e) as [H|H]; [contradiction | exact H].
  - destruct (run_method_le compile_json_path conn
                (call compile_json_path (fuel_of e) conn) invoke_
                (call_le_invoke (fuel_of e)) M_as_sql e) as [H|H];
      [contradiction | exact H].
  - destruct (run_method_le compile_json_path conn
                (call compile_json_path (fuel_of e) conn) invoke_
                (call_le_invoke (fuel_of e)) M_as_postgresql e) as [H|H];
      [contradiction | exact H].
  - destruct (run_method_le compile_json_path conn
                (call compile_json_path (fuel_of e) conn) invoke_
                (call_le_invoke (fuel_of e)) M_as_oracle e) as [H|H];
      [contradiction | exact H].
Qed.

Lemma compile_unfold e :
  compile_ e = compiler_compile compile_json_path invoke_ conn e.
Proof. apply (invoke_unfold M_compile). Qed.

Lemma as_sql_unfold e : as_sql_ e = run_method compile_json_path invoke_ conn M_as_sql e.
Proof. apply (invoke_unfold M_as_sql). Qed.

Lemma as_postgresql_unfold e :
  as_postgresql_ e = run_method compile_json_path invoke_ conn M_as_postgresql e.
Proof. apply (invoke_unfold M_as_postgresql). Qed.

Lemma as_oracle_unfold e :
  as_oracle_ e = run_method compile_json_path invoke_ conn M_as_oracle e.
Proof. apply (invoke_unfold M_as_oracle). Qed.

(** The compiler's dispatch on the vendor. *)
Lemma compile_postgresql e :
  vendor conn = PostgreSQL -> has_method e M_as_postgresql = true ->
  compile_ e = as_postgresql_ e.
Proof.
  intros Hv Hm. rewrite compile_unfold, as_postgresql_unfold.
  unfold compiler_compile. rewrite Hv. cbn [vendor_method]. now rewrite Hm.
Qed.

Lemma compile_oracle e :
  vendor conn = Oracle -> has_method e M_as_oracle = true ->
  compile_ e = as_oracle_ e.
Proof.
  intros Hv Hm. rewrite compile_unfold, as_oracle_unfold.
  unfold compiler_compile. rewrite Hv. cbn [vendor_method]. now rewrite Hm.
Qed.

Lemma compile_default e :
  match vendor_method (vendor conn) with
  | Some m => has_method e m = false
  | None => True
  end ->
  compile_ e = as_sql_ e.
Proof.
  intros H. rewrite compile_unfold, as_sql_unfold. unfold compiler_compile.
  destruct (vendor_method (vendor conn)); [now rewrite H | reflexivity].
Qed.

Lemma compile_Value v o : compile_ (Value v o) = Ok (Value_as_sql v o).
Proof.
  rewrite compile_default.
  - now rewrite as_sql_unfold.
  - destruct (vendor conn); simpl; auto.
Qed.

Lemma compile_Ext sql params f : compile_ (Ext sql params f) = Ok (sql, params).
Proof.
  rewrite compile_default.
  - now rewrite as_sql_unfold.
  - destruct (vendor conn); simpl; auto.
Qed.

End Unfolding.

(** ** [JSONSet] on PostgreSQL *)

Section JSONSetPostgresql.

Variable compile_json_path : list string -> string.
Variable conn : Connection.
Hypothesis Hvendor : vendor conn = PostgreSQL.

Local Notation "'invoke_'" := (invoke compile_json_path conn).
Local Notation "'compile_'" := (compile compile_json_path conn).
Local Notation "'as_postgresql_'" := (as_postgresql compile_json_path conn).

(** The base case: one pair, one [JSONB_SET] call around the target. *)
Lemma JSONSet_as_postgresql_single target o k v :
  as_postgresql_ (JSONSet [target] o [(k, v)]) =
  postgresql_level compile_ (output_field_of (JSONSet [target] o [(k, v)]))
                   (compile_ target) (k, v).
Proof.
  rewrite as_postgresql_unfold. cbn [run_method JSONSet_as_postgresql].
  unfold Func_as_sql, postgresql_level.
  change (invoke_ M_compile) with compile_.
  cbn [mapM app fst snd]. rewrite compile_Value.
  destruct (compile_ target) as [[tsql tparams]| |]; cbn [bind]; try reflexivity.
  set (value := JSONSet_postgresql_value _ v).
  destruct (compile_ value) as [[vsql vparams]| |]; cbn [bind]; try reflexivity.
  unfold jsonb_set_call, render, str_join, Func_template, Func_arg_joiner.
  cbn [join_with bind map fst snd concat Value_as_sql String.concat].
  rewrite app_nil_r. simpl. rewrite !append_assoc. simpl. reflexivity.
Qed.

(** The recursive case: the node with the first pair becomes the target
    of a node with the remaining pairs. *)
Lemma JSONSet_as_postgresql_rest srcs o k v kv rest :
  keys_unique (kv :: rest) = true ->
  as_postgresql_ (JSONSet srcs o ((k, v) :: kv :: rest)) =
  as_postgresql_ (JSONSet [JSONSet srcs o [(k, v)]] None (kv :: rest)).
Proof.
  intros Hu. rewrite as_postgresql_unfold at 1. cbn [run_method JSONSet_as_postgresql].
  rewrite dict_of_items_unique by exact Hu. reflexivity.
Qed.

Lemma JSONSet_as_postgresql_levels rest :
  forall target o k v,
    keys_unique ((k, v) :: rest) = true ->
    as_postgresql_ (JSONSet [target] o ((k, v) :: rest)) =
    fold_left (postgresql_level compile_ (output_field_of (JSONSet [target] o [(k, v)])))
              ((k, v) :: rest) (compile_ target).
Proof.
  induction rest as [|[k' v'] rest IH]; intros target o k v Hu.
  - apply JSONSet_as_postgresql_single.
  - cbn [keys_unique] in Hu. apply andb_prop in Hu. destruct Hu as [_ Hu].
    rewrite JSONSet_as_postgresql_rest by exact Hu.
    rewrite IH by exact Hu.
    cbn [fold_left]. f_equal.
    rewrite (compile_postgresql _ _ _ Hvendor) by reflexivity.
    now rewrite JSONSet_as_postgresql_single.
Qed.

End JSONSetPostgresql.

(** ** [JSONSet] on Oracle *)

Section JSONSetOracle.

Variable compile_json_path : list string -> string.
Variable conn : Connection.
Hypothesis Hvendor : vendor conn = Oracle.
Hypothesis Hflag : supports_partial_json_update (features conn) = true.

Local Notation "'invoke_'" := (invoke compile_json_path conn).
Local Notation "'compile_'" := (compile compile_json_path conn).
Local Notation "'as_oracle_'" := (as_oracle compile_json_path conn).

Lemma JSONSet_as_oracle_single target o k v :
  as_oracle_ (JSONSet [target] o [(k, v)]) =
  oracle_level compile_json_path compile_
               (output_field_of (JSONSet [target] o [(k, v)])) (compile_ target) (k, v).
Proof using Hflag.
  rewrite as_oracle_unfold. cbn [run_method]. unfold JSONSet_as_oracle.
  rewrite Hflag. cbn [negb].
  unfold Func_as_sql, oracle_level, JSONSet_oracle_value.
  change (invoke_ M_compile) with compile_.
  cbn [mapM app fst snd].
  destruct (compile_ target) as [[tsql tparams]| |]; cbn [bind]; try reflexivity.
  set (value := if isinstance_Value v then _ else _).
  destruct (compile_ value) as [[vsql vparams]| |]; cbn [bind]; try reflexivity.
  unfold json_transform_set_call, render, str_join, Func_template.
  cbn [join_with map fst snd concat]. unfold JSONSet_join. cbn [last].
  destruct (isinstance_Value v); cbn [bind map String.concat];
    rewrite app_nil_r; unfold uffff;
    repeat first [rewrite append_assoc | progress cbn [String.append]]; reflexivity.
Qed.

Lemma JSONSet_as_oracle_rest srcs o k v kv rest :
  keys_unique (kv :: rest) = true ->
  as_oracle_ (JSONSet srcs o ((k, v) :: kv :: rest)) =
  as_oracle_ (JSONSet [JSONSet srcs o [(k, v)]] None (kv :: rest)).
Proof using Hflag.
  intros Hu. rewrite as_oracle_unfold at 1. cbn [run_method]. unfold JSONSet_as_oracle.
  rewrite Hflag. cbn [negb].
  rewrite dict_of_items_unique by exact Hu. reflexivity.
Qed.

Lemma JSONSet_as_oracle_levels rest :
  forall target o k v,
    keys_unique ((k, v) :: rest) = true ->
    as_oracle_ (JSONSet [target] o ((k, v) :: rest)) =
    fold_left (oracle_level compile_json_path compile_
                            (output_field_of (JSONSet [target] o [(k, v)])))
              ((k, v) :: rest) (compile_ target).
Proof using Hvendor Hflag.
  induction rest as [|[k' v'] rest IH]; intros target o k v Hu.
  - apply JSONSet_as_oracle_single.
  - cbn [keys_unique] in Hu. apply andb_prop in Hu. destruct Hu as [_ Hu].
    rewrite JSONSet_as_oracle_rest by exact Hu.
    rewrite IH by exact Hu.
    cbn [fold_left]. f_equal.
    rewrite (compile_oracle _ _ _ Hvendor) by reflexivity.
    now rewrite JSONSet_as_oracle_single.
Qed.

End JSONSetOracle.

(** ** [JSONRemove] on PostgreSQL *)

Section JSONRemovePostgresql.

Variable compile_json_path : list string -> string.
Variable conn : Connection.
Hypothesis Hvendor : vendor conn = PostgreSQL.

Local Notation "'invoke_'" := (invoke compile_json_path conn).
Local Notation "'compile_'" := (compile compile_json_path conn).
Local Notation "'as_postgresql_'" := (as_postgresql compile_json_path conn).

Lemma JSONRemove_as_postgresql_single target o path :
  as_postgresql_ (JSONRemove [target] o [path]) =
  (t <- compile_ target ;; Ok (delete_path_call t path)).
Proof.
  rewrite as_postgresql_unfold. cbn [run_method JSONRemove_as_postgresql].
  unfold Func_as_sql.
  change (invoke_ M_compile) with compile_.
  cbn [mapM app fst snd]. rewrite compile_Value.
  destruct (compile_ target) as [[tsql tparams]| |]; reflexivity.
Qed.

(** The node that keeps the first path is the expression argument of the
    recursive call on the remaining paths. *)
Lemma JSONRemove_as_postgresql_rest srcs o path q rest :
  as_postgresql_ (JSONRemove srcs o (path :: q :: rest)) =
  as_postgresql_ (JSONRemove [JSONRemove srcs o [path]] None (q :: rest)).
Proof.
  rewrite as_postgresql_unfold at 1. cbn [run_method JSONRemove_as_postgresql].
  reflexivity.
Qed.

Lemma JSONRemove_as_postgresql_levels rest :
  forall target o path,
    as_postgresql_ (JSONRemove [target] o (path :: rest)) =
    fold_left (fun below p => t <- below ;; Ok (delete_path_call t p))
              (path :: rest) (compile_ target).
Proof using Hvendor.
  induction rest as [|q rest IH]; intros target o path.
  - apply JSONRemove_as_postgresql_single.
  - rewrite JSONRemove_as_postgresql_rest, IH.
    cbn [fold_left]. f_equal.
    rewrite (compile_postgresql _ _ _ Hvendor) by reflexivity.
    now rewrite JSONRemove_as_postgresql_single.
Qed.

End JSONRemovePostgresql.

(** ** Nesting *)

Lemma Nested_impl (one one' : SQL -> SQL -> Prop) target n s :
  (forall inner s', one inner s' -> one' inner s') ->
  Nested one target n s -> Nested one' target n s.
Proof.
  intros Himpl H. induction H as [|n inner s _ IH Hone]; [constructor|].
  econstructor; [exact IH | now apply Himpl].
Qed.

Lemma combine_app_same_length {A B : Type} (l1 l2 : list A) (m1 m2 : list B) :
  length l1 = length m1 ->
  combine (l1 ++ l2) (m1 ++ m2) = combine l1 m1 ++ combine l2 m2.
Proof.
  revert m1. induction l1 as [|x l1 IH]; intros [|y m1] H; simpl in *; try discriminate.
  - reflexivity.
  - f_equal. apply IH. now injection H.
Qed.

(** A fold of the levels over compiled values is that many nested calls. *)
Lemma fold_levels_ok {A : Type} (call_shape : SQL -> A -> SQL -> SQL)
      (compile_value : A -> outcome SQL) :
  forall (fields : list A) (values : list SQL) (ts : SQL),
    mapM compile_value fields = Ok values ->
    fold_left (fun below kv =>
                 target <- below ;; value <- compile_value kv ;;
                 Ok (call_shape target kv value))
              fields (Ok ts)
    = Ok (fold_left (fun inner kvv => call_shape inner (fst kvv) (snd kvv))
                    (combine fields values) ts)
    /\ Nested (fun inner s => exists kv value, s = call_shape inner kv value) ts
              (length fields)
              (fold_left (fun inner kvv => call_shape inner (fst kvv) (snd kvv))
                         (combine fields values) ts).
Proof.
  intros fields. induction fields as [|kv fields IH] using rev_ind; intros values ts Hv.
  - simpl in Hv. injection Hv as <-. split; [reflexivity | constructor].
  - assert (Hsplit : exists values' value,
               values = values' ++ [value]
               /\ mapM compile_value fields = Ok values'
               /\ compile_value kv = Ok value).
    { clear IH. revert values Hv. induction fields as [|x fields IHf]; intros values Hv.
      - simpl in Hv. destruct (compile_value kv) as [value| |]; try discriminate.
        injection Hv as <-. exists [], value. now repeat split.
      - simpl in Hv. destruct (compile_value x) as [y| |] eqn:Hx; try discriminate.
        simpl in Hv.
        destruct (mapM compile_value (fields ++ [kv])) as [ys| |] eqn:Hys; try discriminate.
        injection Hv as <-.
        destruct (IHf ys eq_refl) as (values' & value & -> & Hm & Hk).
        exists (y :: values'), value. simpl. rewrite Hx, Hm. now repeat split. }
    destruct Hsplit as (values' & value & -> & Hm & Hk).
    destruct (IH values' ts Hm) as [Hfold Hnest].
    assert (Hlen : length fields = length values').
    { clear - Hm. revert values' Hm. induction fields as [|x fields IHf]; intros values' Hm.
      - simpl in Hm. now injection Hm as <-.
      - simpl in Hm. destruct (compile_value x); try discriminate. simpl in Hm.
        destruct (mapM compile_value fields) as [ys| |] eqn:Hf; try discriminate.
        injection Hm as <-. simpl. f_equal. now apply IHf. }
    rewrite combine_app_same_length by exact Hlen. rewrite !fold_left_app. cbn [combine fold_left].
    rewrite Hfold. cbn [bind]. rewrite Hk. cbn [bind fst snd].
    split; [reflexivity|].
    rewrite length_app, Nat.add_1_r. econstructor; [exact Hnest|].
    now exists kv, value.
Qed.

(** C2: a [JSONSet] node with [N >= 1] pairs, compiled on PostgreSQL or on
    Oracle (with the partial-update flag), is [N] applications of the
    native single-path function ([JSONB_SET], [JSON_TRANSFORM]): the
    outermost application has as its target [N - 1] nested applications,
    each of which takes the compiled call of the level before as its
    target, the innermost one the compiled target expression.  The pairs
    are applied in the order of the mapping. *)
Theorem JSONSet_one_nested_call_per_pair :
  forall compile_json_path conn target o k v rest ts values,
    keys_unique ((k, v) :: rest) = true ->
    compile compile_json_path conn target = Ok ts ->
    (vendor conn = PostgreSQL ->
     mapM (fun kv => compile compile_json_path conn
                       (JSONSet_postgresql_value
                          (output_field_of (JSONSet [target] o ((k, v) :: rest))) (snd kv)))
          ((k, v) :: rest) = Ok values ->
     exists inner result,
       compile compile_json_path conn (JSONSet [target] o ((k, v) :: rest)) = Ok result
       /\ result = fold_left (fun inner kvv => jsonb_set_call inner (fst (fst kvv)) (snd kvv))
                             (combine ((k, v) :: rest) values) ts
       /\ Nested is_jsonb_set_call ts (length ((k, v) :: rest) - 1) inner
       /\ is_jsonb_set_call inner result)
    /\ (vendor conn = Oracle ->
        supports_partial_json_update (features conn) = true ->
        mapM (fun kv => compile compile_json_path conn
                          (JSONSet_oracle_value
                             (output_field_of (JSONSet [target] o ((k, v) :: rest))) (snd kv)))
             ((k, v) :: rest) = Ok values ->
        exists inner result,
          compile compile_json_path conn (JSONSet [target] o ((k, v) :: rest)) = Ok result
          /\ result = fold_left (fun inner kvv =>
                                   json_transform_set_call compile_json_path inner
                                     (fst (fst kvv)) (isinstance_Value (snd (fst kvv)))
                                     (snd kvv))
                                (combine ((k, v) :: rest) values) ts
          /\ Nested (is_json_transform_set_call compile_json_path) ts
                    (length ((k, v) :: rest) - 1) inner
          /\ is_json_transform_set_call compile_json_path inner result).
Proof.
  intros cjp conn target o k v rest ts values Hu Ht. split.
  - intros Hvendor Hvalues.
    rewrite (compile_postgresql cjp conn _ Hvendor) by reflexivity.
    rewrite (JSONSet_as_postgresql_levels cjp conn Hvendor rest target o k v Hu).
    rewrite Ht.
    destruct (fold_levels_ok
                (fun t (kv : string * Expr) value => jsonb_set_call t (fst kv) value)
                _ _ values ts Hvalues) as [Hfold Hnest].
    inversion Hnest as [|n inner s Hinner Hone Hn Hs]; subst.
    exists inner. eexists. split; [exact Hfold|]. split; [reflexivity|]. split.
    + replace (length ((k, v) :: rest) - 1) with (length rest) by (simpl; lia).
      eapply Nested_impl; [|exact Hinner].
      intros i s' (kv & value & ->). now exists (fst kv), value.
    + destruct Hone as (kv & value & Hs'). rewrite Hs'. now exists (fst kv), value.
  - intros Hvendor Hflag Hvalues.
    rewrite (compile_oracle cjp conn _ Hvendor) by reflexivity.
    rewrite (JSONSet_as_oracle_levels cjp conn Hvendor Hflag rest target o k v Hu).
    rewrite Ht.
    destruct (fold_levels_ok
                (fun t (kv : string * Expr) value =>
                   json_transform_set_call cjp t (fst kv) (isinstance_Value (snd kv)) value)
                _ _ values ts Hvalues) as [Hfold Hnest].
    inversion Hnest as [|n inner s Hinner Hone Hn Hs]; subst.
    exists inner. eexists. split; [exact Hfold|]. split; [reflexivity|]. split.
    + replace (length ((k, v) :: rest) - 1) with (length rest) by (simpl; lia).
      eapply Nested_impl; [|exact Hinner].
      intros i s' (kv & value & ->). now exists (fst kv), (isinstance_Value (snd kv)), value.
    + destruct Hone as (kv & value & Hs'). rewrite Hs'.
      now exists (fst kv), (isinstance_Value (snd kv)), value.
Qed.

Lemma JSONSet_one_nested_call_per_pair_witness :
  let conn := example_connection PostgreSQL true true true in
  let fields := [("a__b", example_int 5); ("c", example_text_col)] in
  let values := [("%s", [Json (PInt 5)]); ("TO_JSONB(name)", [])] in
  keys_unique fields = true
  /\ compile example_compile_json_path conn example_col = Ok ("col", [])
  /\ vendor conn = PostgreSQL
  /\ mapM (fun kv => compile example_compile_json_path conn
                       (JSONSet_postgresql_value
                          (output_field_of (JSONSet [example_col] None fields)) (snd kv)))
          fields = Ok values
  /\ exists inner result,
      compile example_compile_json_path conn (JSONSet [example_col] None fields) = Ok result
      /\ result = fold_left (fun inner kvv => jsonb_set_call inner (fst (fst kvv)) (snd kvv))
                            (combine fields values) ("col", [])
      /\ Nested is_jsonb_set_call ("col", []) (length fields - 1) inner
      /\ is_jsonb_set_call inner result.
Proof.
  intros conn fields values.
  split; [reflexivity|]. split; [reflexivity|]. split; [reflexivity|].
  split; [reflexivity|].
  exact (proj1 (JSONSet_one_nested_call_per_pair
                  example_compile_json_path conn example_col None
                  "a__b" (example_int 5) [("c", example_text_col)] ("col", []) values
                  eq_refl eq_refl)
               eq_refl eq_refl).
Defined.

(** ** [JSONRemove] on PostgreSQL: order of application *)

Lemma delete_path_calls_params (paths : list string) (ts : SQL) :
  snd (fold_left delete_path_call paths ts) =
  snd ts ++ map (fun p => Plain (PStrList (str_split p LOOKUP_SEP))) paths.
Proof.
  revert ts. induction paths as [|p paths IH]; intros ts; simpl.
  - now rewrite app_nil_r.
  - rewrite IH. simpl. now rewrite <- app_assoc.
Qed.

Lemma delete_path_calls_text (paths : list string) (ts : SQL) :
  fst (fold_left delete_path_call paths ts) =
  fold_left (fun text _ => text +++ "#- %s") paths (fst ts).
Proof.
  revert ts. induction paths as [|p paths IH]; intros ts; simpl; [reflexivity|].
  now rewrite IH.
Qed.

Lemma fold_delete_path_ok (paths : list string) (ts : SQL) :
  fold_left (fun below p => t <- below ;; Ok (delete_path_call t p)) paths (Ok ts)
  = Ok (fold_left delete_path_call paths ts)
  /\ Nested is_delete_path_call ts (length paths) (fold_left delete_path_call paths ts).
Proof.
  induction paths as [|p paths IH] using rev_ind.
  - split; [reflexivity | constructor].
  - destruct IH as [Hfold Hnest]. rewrite !fold_left_app. cbn [fold_left].
    rewrite Hfold. split; [reflexivity|].
    rewrite length_app, Nat.add_1_r. econstructor; [exact Hnest|]. now exists p.
Qed.

(** C3: a [JSONRemove] node with two or more paths, compiled on
    PostgreSQL, is nested applications of the delete-path operator in the
    order the paths were given: the node that keeps the first path is the
    expression argument of the recursive call on the remaining paths, so
    the first path is removed innermost (first) and the last path
    outermost; the path parameters follow the target's parameters in
    insertion order. *)
Theorem JSONRemove_postgresql_applies_paths_in_order :
  forall compile_json_path conn target o path q rest ts,
    vendor conn = PostgreSQL ->
    compile compile_json_path conn target = Ok ts ->
    as_postgresql compile_json_path conn (JSONRemove [target] o (path :: q :: rest))
    = as_postgresql compile_json_path conn
        (JSONRemove [JSONRemove [target] o [path]] None (q :: rest))
    /\ compile compile_json_path conn (JSONRemove [target] o [path])
       = Ok (delete_path_call ts path)
    /\ exists result,
        compile compile_json_path conn (JSONRemove [target] o (path :: q :: rest))
        = Ok result
        /\ result = fold_left delete_path_call (path :: q :: rest) ts
        /\ Nested is_delete_path_call ts (length (path :: q :: rest)) result
        /\ fst result = fold_left (fun text _ => text +++ "#- %s") (path :: q :: rest) (fst ts)
        /\ snd result = snd ts ++ map (fun p => Plain (PStrList (str_split p LOOKUP_SEP)))
                                      (path :: q :: rest).
Proof.
  intros cjp conn target o path q rest ts Hvendor Ht.
  split; [apply JSONRemove_as_postgresql_rest|]. split.
  - rewrite (compile_postgresql cjp conn _ Hvendor) by reflexivity.
    rewrite JSONRemove_as_postgresql_single, Ht. reflexivity.
  - rewrite (compile_postgresql cjp conn _ Hvendor) by reflexivity.
    rewrite (JSONRemove_as_postgresql_levels cjp conn Hvendor), Ht.
    destruct (fold_delete_path_ok (path :: q :: rest) ts) as [Hfold Hnest].
    eexists. split; [exact Hfold|]. split; [reflexivity|]. split; [exact Hnest|].
    split; [apply delete_path_calls_text | apply delete_path_calls_params].
Qed.

Lemma JSONRemove_postgresql_applies_paths_in_order_witness :
  let conn := example_connection PostgreSQL true true true in
  vendor conn = PostgreSQL
  /\ compile example_compile_json_path conn example_col = Ok example_col_sql
  /\ compile example_compile_json_path conn (JSONRemove [example_col] None ["a__b"; "c"])
     = Ok ("col#- %s#- %s", [Plain (PStrList ["a"; "b"]); Plain (PStrList ["c"])])
  /\ (as_postgresql example_compile_json_path conn (JSONRemove [example_col] None ["a__b"; "c"])
      = as_postgresql example_compile_json_path conn
          (JSONRemove [JSONRemove [example_col] None ["a__b"]] None ["c"])
      /\ compile example_compile_json_path conn (JSONRemove [example_col] None ["a__b"])
         = Ok (delete_path_call example_col_sql "a__b")
      /\ exists result,
          compile example_compile_json_path conn (JSONRemove [example_col] None ["a__b"; "c"])
          = Ok result
          /\ result = fold_left delete_path_call ["a__b"; "c"] example_col_sql
          /\ Nested is_delete_path_call example_col_sql (length ["a__b"; "c"]) result
          /\ fst result = fold_left (fun text _ => text +++ "#- %s") ["a__b"; "c"]
                                    (fst example_col_sql)
          /\ snd result = snd example_col_sql
                          ++ map (fun p => Plain (PStrList (str_split p LOOKUP_SEP)))
                                 ["a__b"; "c"]).
Proof.
  intros conn.
  split; [reflexivity|]. split; [reflexivity|]. split; [reflexivity|].
  exact (JSONRemove_postgresql_applies_paths_in_order
           example_compile_json_path conn example_col None "a__b" "c" [] example_col_sql
           eq_refl eq_refl).
Defined.

(** ** The capability flags *)

Section Capability.

Variable compile_json_path : list string -> string.
Variable conn : Connection.

(** [JSONSet] and [JSONRemove]: [as_sql] and [as_oracle] test
    [supports_partial_json_update] before anything else. *)
Lemma partial_update_flag_checked srcs o fields paths :
  supports_partial_json_update (features conn) = false ->
  as_sql compile_json_path conn (JSONSet srcs o fields)
  = Raise (NotSupportedError "JSONSet() is not supported on this database backend.")
  /\ as_oracle compile_json_path conn (JSONSet srcs o fields)
     = Raise (NotSupportedError "JSONSet() is not supported on this database backend.")
  /\ as_sql compile_json_path conn (JSONRemove srcs o paths)
     = Raise (NotSupportedError "JSONRemove() is not supported on this database backend.")
  /\ as_oracle compile_json_path conn (JSONRemove srcs o paths)
     = Raise (NotSupportedError "JSONRemove() is not supported on this database backend.").
Proof.
  intros H. rewrite !as_sql_unfold, !as_oracle_unfold. cbn [run_method].
  unfold JSONSet_as_sql, JSONSet_as_oracle, JSONRemove_as_sql, JSONRemove_as_oracle.
  rewrite H. repeat split.
Qed.

(** [JSONObject]: [as_sql], [as_oracle], and [as_postgresql] on
    PostgreSQL 16 test [has_json_object_function]. *)
Lemma json_object_flag_checked srcs :
  has_json_object_function (features conn) = false ->
  as_sql compile_json_path conn (JSONObject srcs)
  = Raise (NotSupportedError "JSONObject() is not supported on this database backend.")
  /\ as_oracle compile_json_path conn (JSONObject srcs)
     = Raise (NotSupportedError "JSONObject() is not supported on this database backend.")
  /\ (is_postgresql_16 (features conn) = true ->
      as_postgresql compile_json_path conn (JSONObject srcs)
      = Raise (NotSupportedError "JSONObject() is not supported on this database backend.")).
Proof.
  intros H. rewrite !as_sql_unfold, !as_oracle_unfold, as_postgresql_unfold.
  cbn [run_method].
  unfold JSONObject_as_oracle, JSONObject_as_postgresql, JSONObject_as_native,
    JSONObject_as_sql.
  rewrite H. repeat split. intros ->. reflexivity.
Qed.

End Capability.

(** C1 fails on the PostgreSQL paths: with [supports_partial_json_update]
    false, [JSONSet.as_postgresql] and [JSONRemove.as_postgresql] return
    SQL instead of raising [NotSupportedError], and so does
    [JSONObject.as_postgresql] below PostgreSQL 16 with
    [has_json_object_function] false; they never look at the flag. *)
Theorem postgresql_paths_skip_capability_check :
  let conn := example_connection PostgreSQL false false false in
  supports_partial_json_update (features conn) = false
  /\ has_json_object_function (features conn) = false
  /\ as_postgresql example_compile_json_path conn
       (JSONSet [example_col] None [("a__b", example_int 5)])
     = Ok ("JSONB_SET(col, %s, %s)", [Plain (PStrList ["a"; "b"]); Json (PInt 5)])
  /\ compile example_compile_json_path conn
       (JSONSet [example_col] None [("a__b", example_int 5); ("c", example_int 6)])
     = Ok ("JSONB_SET(JSONB_SET(col, %s, %s), %s, %s)",
           [Plain (PStrList ["a"; "b"]); Json (PInt 5); Plain (PStrList ["c"]); Json (PInt 6)])
  /\ as_postgresql example_compile_json_path conn (JSONRemove [example_col] None ["a__b"])
     = Ok ("col#- %s", [Plain (PStrList ["a"; "b"])])
  /\ as_postgresql example_compile_json_path conn
       (JSONObject_init [("name", example_str "John")])
     = Ok ("JSONB_BUILD_OBJECT((%s)::text, %s)", [Plain (PStr "name"); Plain (PStr "John")]).
Proof. repeat split. Qed.

(** ** [JSONObject]: the compiled call *)

Lemma render_Func_template (function expressions : string) :
  render Func_template (Some function) expressions
  = function +++ "(" +++ expressions +++ ")".
Proof. unfold render, Func_template. simpl. reflexivity. Qed.

Lemma evens_pairs {A B : Type} (a b : A -> B) (l : list A) :
  evens (flat_map (fun x => [a x; b x]) l) = map a l
  /\ odds (flat_map (fun x => [a x; b x]) l) = map b l.
Proof.
  induction l as [|x l [IHe IHo]]; [now split|].
  cbn [flat_map app]. split.
  - change (evens (a x :: b x :: flat_map (fun x => [a x; b x]) l))
      with (a x :: evens (flat_map (fun x => [a x; b x]) l)).
    now rewrite IHe.
  - cbn [odds]. destruct l as [|y l]; [reflexivity|].
    cbn [flat_map app map] in *.
    change (evens (b x :: a y :: b y :: flat_map (fun x => [a x; b x]) l))
      with (b x :: evens (b y :: flat_map (fun x => [a x; b x]) l)).
    f_equal. exact IHo.
Qed.

Lemma zip_strict_maps {A B C : Type} (a : A -> B) (b : A -> C) (l : list A) :
  zip_strict (map a l) (map b l) = Ok (map (fun x => (a x, b x)) l).
Proof. induction l as [|x l IH]; simpl; [reflexivity | now rewrite IH]. Qed.

(** [join] on alternating key and value texts. *)
Lemma JSONObject_join_pairs {A : Type} (key value : A -> string) (l : list A) :
  JSONObject_join (flat_map (fun x => [key x; value x]) l)
  = Ok (str_join ", " (map (fun x => "(" +++ key x +++ ") VALUE " +++ value x) l)).
Proof.
  unfold JSONObject_join.
  destruct (evens_pairs key value l) as [-> ->].
  rewrite zip_strict_maps. cbn [bind]. now rewrite map_map.
Qed.

Section JSONObjectCompiled.

Variable compile_json_path : list string -> string.
Variable conn : Connection.

Local Notation "'compile_'" := (compile compile_json_path conn).

(** The children of a constructed [JSONObject] compile to the key
    placeholders alternating with the compiled values. *)
Lemma mapM_compile_JSONObject_sources (fields : dict Expr) (values : list SQL) :
  mapM compile_ (map snd fields) = Ok values ->
  mapM compile_ (flat_map (fun kv => [Value (Raw (PStr (fst kv))) None; snd kv]) fields)
  = Ok (flat_map (fun kvv : (string * Expr) * SQL =>
                    [("%s", [Plain (PStr (fst (fst kvv)))]); snd kvv])
                 (combine fields values)).
Proof.
  revert values. induction fields as [|[k v] fields IH]; intros values H.
  - simpl in H. now injection H as <-.
  - cbn [map snd mapM] in H.
    destruct (compile_ v) as [value| |] eqn:Hv; try discriminate. cbn [bind] in H.
    destruct (mapM compile_ (map snd fields)) as [values'| |] eqn:Hvs; try discriminate.
    injection H as <-.
    cbn [flat_map app mapM fst snd]. rewrite compile_Value, Hv. cbn [bind].
    rewrite (IH values' eq_refl). reflexivity.
Qed.

End JSONObjectCompiled.

Lemma JSONObject_compiled_params (l : list ((string * Expr) * SQL)) :
  concat (map snd (flat_map (fun kvv : (string * Expr) * SQL =>
                               [("%s", [Plain (PStr (fst (fst kvv)))]); snd kvv]) l))
  = flat_map (fun kvv : (string * Expr) * SQL =>
                Plain (PStr (fst (fst kvv))) :: snd (snd kvv)) l.
Proof.
  induction l as [|kvv l IH]; [reflexivity|].
  cbn [flat_map app map concat snd]. now rewrite IH.
Qed.

Lemma JSONObject_compiled_parts (l : list ((string * Expr) * SQL)) :
  map fst (flat_map (fun kvv : (string * Expr) * SQL =>
                       [("%s", [Plain (PStr (fst (fst kvv)))]); snd kvv]) l)
  = flat_map (fun kvv : (string * Expr) * SQL => ["%s"; fst (snd kvv)]) l.
Proof.
  induction l as [|kvv l IH]; [reflexivity|].
  cbn [flat_map app map fst]. now rewrite IH.
Qed.

(** C4, amended: on the default dialect ([as_sql], used where the vendor
    has no method of its own: SQLite and MySQL) a [JSONObject] compiles to
    [JSON_OBJECT] applied to the keys and values alternating, separated by
    commas, the keys as parameters; the rendering of each pair as the
    parenthesised key, [VALUE] and the value is that of [as_native], used
    on Oracle (with [RETURNING CLOB]). *)
Theorem JSONObject_default_is_flat_native_is_paired :
  forall compile_json_path conn (fields : dict Expr) (values : list SQL),
    has_json_object_function (features conn) = true ->
    mapM (compile compile_json_path conn) (map snd fields) = Ok values ->
    let params := flat_map (fun kvv : (string * Expr) * SQL =>
                              Plain (PStr (fst (fst kvv))) :: snd (snd kvv))
                           (combine fields values) in
    (vendor conn = Sqlite \/ vendor conn = MySQL ->
     compile compile_json_path conn (JSONObject_init fields)
     = Ok ("JSON_OBJECT("
             +++ str_join ", " (flat_map (fun kvv : (string * Expr) * SQL =>
                                            ["%s"; fst (snd kvv)])
                                         (combine fields values))
             +++ ")",
           params))
    /\ (vendor conn = Oracle ->
        compile compile_json_path conn (JSONObject_init fields)
        = Ok ("JSON_OBJECT("
                +++ str_join ", " (map (fun kvv : (string * Expr) * SQL =>
                                          "(%s) VALUE " +++ fst (snd kvv))
                                       (combine fields values))
                +++ " RETURNING CLOB)",
              params)).
Proof.
  intros cjp conn fields values Hflag Hvalues params.
  pose proof (mapM_compile_JSONObject_sources cjp conn fields values Hvalues) as Hsrc.
  rewrite JSONObject_init_sources. split.
  - intros Hvendor. rewrite compile_default.
    2:{ destruct Hvendor as [-> | ->]; exact I. }
    rewrite as_sql_unfold. cbn [run_method]. unfold JSONObject_as_sql.
    rewrite Hflag. cbn [negb]. unfold Func_as_sql.
    change (invoke cjp conn M_compile) with (compile cjp conn).
    rewrite Hsrc. cbn [bind join_with].
    rewrite JSONObject_compiled_params, JSONObject_compiled_parts, render_Func_template.
    reflexivity.
  - intros Hvendor. rewrite (compile_oracle cjp conn _ Hvendor) by reflexivity.
    rewrite as_oracle_unfold. cbn [run_method].
    unfold JSONObject_as_oracle, JSONObject_as_native, JSONObject_as_sql.
    rewrite Hflag. cbn [negb]. unfold Func_as_sql.
    change (invoke cjp conn M_compile) with (compile cjp conn).
    rewrite Hsrc. cbn [bind join_with].
    rewrite JSONObject_compiled_params, JSONObject_compiled_parts.
    rewrite (JSONObject_join_pairs (fun _ => "%s")
                                   (fun kvv : (string * Expr) * SQL => fst (snd kvv))).
    cbn [bind]. unfold render. cbn [map String.concat].
    repeat first [rewrite append_assoc | progress cbn [String.append]]. reflexivity.
Qed.

Lemma JSONObject_default_is_flat_native_is_paired_witness :
  let conn := example_connection Sqlite true true true in
  has_json_object_function (features conn) = true
  /\ mapM (compile example_compile_json_path conn) (map snd example_person)
     = Ok example_person_values
  /\ (vendor conn = Sqlite \/ vendor conn = MySQL)
  /\ compile example_compile_json_path conn (JSONObject_init example_person)
     = Ok ("JSON_OBJECT("
             +++ str_join ", " (flat_map (fun kvv : (string * Expr) * SQL =>
                                            ["%s"; fst (snd kvv)])
                                         (combine example_person example_person_values))
             +++ ")",
           flat_map (fun kvv : (string * Expr) * SQL =>
                       Plain (PStr (fst (fst kvv))) :: snd (snd kvv))
                    (combine example_person example_person_values)).
Proof.
  intros conn. split; [reflexivity|]. split; [reflexivity|].
  split; [left; reflexivity|].
  exact (proj1 (JSONObject_default_is_flat_native_is_paired
                  example_compile_json_path conn example_person example_person_values
                  eq_refl eq_refl)
               (or_introl eq_refl)).
Defined.

(** C4 as stated fails: on the default dialect the spec's example
    compiles to [JSON_OBJECT(%s, %s, %s, %s)], keys and values separated
    by commas, and not to the [(key) VALUE value] rendering. *)
Lemma JSONObject_default_not_paired :
  let conn := example_connection Sqlite true true true in
  compile example_compile_json_path conn (JSONObject_init example_person)
  = Ok ("JSON_OBJECT(%s, %s, %s, %s)",
        [Plain (PStr "name"); Plain (PStr "John"); Plain (PStr "age"); Plain (PInt 30)])
  /\ compile example_compile_json_path conn (JSONObject_init example_person)
     <> Ok ("JSON_OBJECT((%s) VALUE %s, (%s) VALUE %s)",
            [Plain (PStr "name"); Plain (PStr "John"); Plain (PStr "age"); Plain (PInt 30)])
  /\ compile example_compile_json_path (example_connection MySQL true true true)
       (JSONObject_init example_person)
     = Ok ("JSON_OBJECT(%s, %s, %s, %s)",
           [Plain (PStr "name"); Plain (PStr "John"); Plain (PStr "age"); Plain (PInt 30)]).
Proof.
  intros conn. split; [reflexivity|]. split; [|reflexivity].
  intros H. vm_compute in H. discriminate H.
Qed.

(** ** A literal [None] in [JSONSet] on PostgreSQL *)

(** C6: [JSONSet.as_postgresql] does not keep a literal [None] from being
    compiled as SQL [NULL].  On a node declared with
    [output_field=TextField()] the literal [None] is resolved to a
    text-typed [Value]; the test for an expression that is not JSON comes
    first and wraps it, and the compiled argument is [TO_JSONB(NULL)].  A
    JSON-typed [Value(None)] on the same node does reach the branch for
    [None], which rebuilds it with the output field of the node: the value
    that compiles to a JSON [null] parameter by itself is compiled to
    [NULL].  Only on a node whose output field is JSON is the argument the
    JSON [null] parameter. *)
Theorem JSONSet_postgresql_None_can_be_SQL_NULL :
  let conn := example_connection PostgreSQL true true true in
  let supplied := JSONSet [example_col] (Some TextField) [("a", Raw PNone)] in
  let typed := JSONSet [example_col] (Some TextField)
                       [("a", Value (Raw PNone) (Some JSONField))] in
  let json := JSONSet [example_col] None [("a", Raw PNone)] in
  compile example_compile_json_path conn (resolve_expression supplied)
  = Ok ("JSONB_SET(col, %s, TO_JSONB(NULL))", [Plain (PStrList ["a"])])
  /\ JSONSet_postgresql_value TextField (Value (Raw PNone) (Some JSONField))
     = Value (Raw PNone) (Some TextField)
  /\ compile example_compile_json_path conn (Value (Raw PNone) (Some JSONField))
     = Ok ("%s", [Json PNone])
  /\ compile example_compile_json_path conn (resolve_expression typed)
     = Ok ("JSONB_SET(col, %s, NULL)", [Plain (PStrList ["a"])])
  /\ compile example_compile_json_path conn (resolve_expression json)
     = Ok ("JSONB_SET(col, %s, %s)", [Plain (PStrList ["a"]); Json PNone]).
Proof.
  cbv zeta. repeat split; vm_compute; reflexivity.
Qed.

(** ** Compilation on the store: the original node is not mutated *)

(** *** The store: tables *)

Lemma length_upd {A : Type} (l : list A) i x : length (upd l i x) = length l.
Proof.
  revert i. induction l as [|y l IH]; intros [|i]; simpl; auto.
Qed.

Lemma nth_error_upd_eq {A : Type} (l : list A) i x :
  i < length l -> nth_error (upd l i x) i = Some x.
Proof.
  revert i. induction l as [|y l IH]; intros [|i] Hi; simpl in *; try lia; auto.
  apply IH. lia.
Qed.

Lemma nth_error_upd_neq {A : Type} (l : list A) i j x :
  i <> j -> nth_error (upd l i x) j = nth_error l j.
Proof.
  revert i j. induction l as [|y l IH]; intros [|i] [|j] Hij; simpl; auto; try congruence.
Qed.

Lemma upd_same {A : Type} (l : list A) i x :
  nth_error l i = Some x -> upd l i x = l.
Proof.
  revert i. induction l as [|y l IH]; intros [|i] Hi; simpl in *; try congruence.
  f_equal. auto.
Qed.

Lemma nth_error_lt {A : Type} (l : list A) i x :
  nth_error l i = Some x -> i < length l.
Proof.
  intros H. apply nth_error_Some. congruence.
Qed.

Lemma nth_error_snoc_old {A : Type} (l : list A) i x y :
  nth_error l i = Some x -> nth_error (l ++ [y]) i = Some x.
Proof.
  intros H. rewrite nth_error_app1; [exact H | eapply nth_error_lt; eauto].
Qed.

Lemma nth_error_snoc_new {A : Type} (l : list A) y :
  nth_error (l ++ [y]) (length l) = Some y.
Proof.
  rewrite nth_error_app2 by lia. now rewrite Nat.sub_diag.
Qed.

(** *** The store: what a step keeps *)

Lemma keeps_refl P Q h : keeps P Q h h.
Proof. split; auto. Qed.

Lemma keeps_trans P Q h1 h2 h3 : keeps P Q h1 h2 -> keeps P Q h2 h3 -> keeps P Q h1 h3.
Proof. intros [A1 B1] [A2 B2]. split; eauto. Qed.

Lemma keeps_weaken (P P' Q Q' : nat -> Prop) h h' :
  (forall i, P' i -> P i) -> (forall l, Q' l -> Q l) ->
  keeps P Q h h' -> keeps P' Q' h h'.
Proof. intros HP HQ [A B]. split; eauto. Qed.

Lemma heap_le_refl h : heap_le h h.
Proof. apply keeps_refl. Qed.

Lemma heap_le_trans h1 h2 h3 : heap_le h1 h2 -> heap_le h2 h3 -> heap_le h1 h3.
Proof. apply keeps_trans. Qed.

Lemma heap_le_keeps P Q h h' : heap_le h h' -> keeps P Q h h'.
Proof. apply keeps_weaken; intros; exact I. Qed.

(** A step that keeps everything but a fresh object and a fresh list
    keeps the whole store it started from. *)
Lemma keeps_fresh h h' ic lc :
  length (objs h) <= ic -> length (lists h) <= lc ->
  keeps (fun i => i <> ic) (fun l => l <> lc) h h' -> heap_le h h'.
Proof.
  intros Hic Hlc [A B]. split.
  - intros i o _ H. apply A; [|exact H]. apply nth_error_lt in H. lia.
  - intros l xs _ H. apply B; [|exact H]. apply nth_error_lt in H. lia.
Qed.

Lemma heap_le_length_objs h h' : heap_le h h' -> length (objs h) <= length (objs h').
Proof.
  intros [A _]. destruct (objs h) as [|o os] eqn:E using rev_ind; [simpl; lia|].
  specialize (A (length os) o I). rewrite nth_error_snoc_new in A.
  specialize (A eq_refl). apply nth_error_lt in A. rewrite length_app. simpl. lia.
Qed.

Lemma heap_le_length_lists h h' : heap_le h h' -> length (lists h) <= length (lists h').
Proof.
  intros [_ B]. destruct (lists h) as [|o os] eqn:E using rev_ind; [simpl; lia|].
  specialize (B (length os) o I). rewrite nth_error_snoc_new in B.
  specialize (B eq_refl). apply nth_error_lt in B. rewrite length_app. simpl. lia.
Qed.

(** *** Representation: unfolding *)


Lemma reprs_on_fix P Q h es cs :
  reprs_on P Q h es cs <->
  (fix reprs (es : list Expr) (cs : list nat) {struct es} : Prop :=
     match es, cs with
     | [], [] => True
     | e' :: es', c :: cs' => repr_on P Q h e' c /\ reprs es' cs'
     | _, _ => False
     end) es cs.
Proof.
  unfold reprs_on. revert cs. induction es as [|e es IH]; intros [|c cs].
  - split; [intros _; exact I | constructor].
  - split; [intros H; inversion H | intros []].
  - split; [intros H; inversion H | intros []].
  - split.
    + intros H. inversion H; subst. split; [assumption | now apply IH].
    + intros [H1 H2]. constructor; [assumption | now apply IH].
Qed.

Lemma reprf_on_fix P Q h fields fs :
  reprf_on P Q h fields fs <->
  (fix reprf (fields : list (string * Expr)) (fs : list (string * nat))
       {struct fields} : Prop :=
     match fields, fs with
     | [], [] => True
     | kv :: fields', kr :: fs' =>
         fst kv = fst kr /\ repr_on P Q h (snd kv) (snd kr) /\ reprf fields' fs'
     | _, _ => False
     end) fields fs.
Proof.
  unfold reprf_on. revert fs. induction fields as [|e es IH]; intros [|c cs].
  - split; [intros _; exact I | constructor].
  - split; [intros H; inversion H | intros []].
  - split; [intros H; inversion H | intros []].
  - split.
    + intros H. inversion H; subst. destruct H3.
      split; [assumption | split; [assumption | now apply IH]].
    + intros (H1 & H2 & H3). constructor; [now split | now apply IH].
Qed.

Lemma repr_on_JSONObject P Q h srcs i :
  repr_on P Q h (JSONObject srcs) i <->
  P i /\ exists l cs,
      nth_error (objs h) i = Some (OFunc C_JSONObject l None JSONField [] [])
      /\ Q l /\ nth_error (lists h) l = Some cs /\ reprs_on P Q h srcs cs.
Proof.
  cbn [repr_on]. split; intros (HP & l & cs & Ho & HQ & Hl & H);
    (split; [exact HP|]); exists l, cs; repeat split; auto;
    now apply reprs_on_fix.
Qed.

Lemma repr_on_JSONSet P Q h srcs o fields i :
  repr_on P Q h (JSONSet srcs o fields) i <->
  P i /\ exists l cs fs,
      nth_error (objs h) i
      = Some (OFunc C_JSONSet l o (output_field_of (JSONSet srcs o fields)) fs [])
      /\ Q l /\ nth_error (lists h) l = Some cs
      /\ reprs_on P Q h srcs cs /\ reprf_on P Q h fields fs.
Proof.
  cbn [repr_on]. split; intros (HP & l & cs & fs & Ho & HQ & Hl & H & H');
    (split; [exact HP|]); exists l, cs, fs; repeat split; auto;
    solve [now apply reprs_on_fix | now apply reprf_on_fix].
Qed.

Lemma repr_on_JSONRemove P Q h srcs o paths i :
  repr_on P Q h (JSONRemove srcs o paths) i <->
  P i /\ exists l cs,
      nth_error (objs h) i
      = Some (OFunc C_JSONRemove l o (output_field_of (JSONRemove srcs o paths)) [] paths)
      /\ Q l /\ nth_error (lists h) l = Some cs /\ reprs_on P Q h srcs cs.
Proof.
  cbn [repr_on]. split; intros (HP & l & cs & Ho & HQ & Hl & H);
    (split; [exact HP|]); exists l, cs; repeat split; auto;
    now apply reprs_on_fix.
Qed.

Lemma Forall2_Forall_impl {A B : Type} (R R' : A -> B -> Prop) (l : list A) (l' : list B) :
  Forall (fun a => forall b, R a b -> R' a b) l -> Forall2 R l l' -> Forall2 R' l l'.
Proof.
  intros HF H. induction H; constructor; inversion HF; subst; auto.
Qed.

(** *** Representation: frames *)

(** A represented tree stays represented when the objects and lists it
    is made of are kept. *)
Lemma repr_on_frame P Q h h' :
  keeps P Q h h' -> forall e i, repr_on P Q h e i -> repr_on P Q h' e i.
Proof.
  intros [HA HB]. induction e using Expr_nested_ind; intros i.
  - intros [HP H]. split; auto.
  - intros [HP H]. split; auto.
  - intros (HP & p & Ho & H). split; [auto|]. exists p. split; auto.
  - intros (HP & l & c & Ho & HQ & Hl & H). split; [auto|]. exists l, c. repeat split; auto.
  - intros (HP & l & c & Ho & HQ & Hl & H). split; [auto|]. exists l, c. repeat split; auto.
  - rewrite !repr_on_JSONObject. intros (HP & l & cs & Ho & HQ & Hl & Hs).
    split; [auto|]. exists l, cs. repeat split; auto.
    eapply Forall2_Forall_impl; [|exact Hs]. exact H.
  - rewrite !repr_on_JSONSet. intros (HP & l & cs & fs & Ho & HQ & Hl & Hs & Hf).
    split; [auto|]. exists l, cs, fs. repeat split; auto.
    + eapply Forall2_Forall_impl; [|exact Hs]. exact H.
    + eapply Forall2_Forall_impl; [|exact Hf].
      eapply Forall_impl; [|exact H0]. intros kv IH kr [E R]. split; auto.
  - rewrite !repr_on_JSONRemove. intros (HP & l & cs & Ho & HQ & Hl & Hs).
    split; [auto|]. exists l, cs. repeat split; auto.
    eapply Forall2_Forall_impl; [|exact Hs]. exact H.
Qed.

(** The objects and lists of a represented tree are in the store. *)
Lemma repr_on_change (P Q P' Q' : nat -> Prop) h :
  (forall i, P i -> i < length (objs h) -> P' i) ->
  (forall l, Q l -> l < length (lists h) -> Q' l) ->
  forall e i, repr_on P Q h e i -> repr_on P' Q' h e i.
Proof.
  intros HA HB. induction e using Expr_nested_ind; intros i.
  - intros [HP H]. split; eauto using nth_error_lt.
  - intros [HP H]. split; eauto using nth_error_lt.
  - intros (HP & p & Ho & H). split; [eauto using nth_error_lt|]. exists p. split; auto.
  - intros (HP & l & c & Ho & HQ & Hl & H). split; [eauto using nth_error_lt|].
    exists l, c. repeat split; eauto using nth_error_lt.
  - intros (HP & l & c & Ho & HQ & Hl & H). split; [eauto using nth_error_lt|].
    exists l, c. repeat split; eauto using nth_error_lt.
  - rewrite !repr_on_JSONObject. intros (HP & l & cs & Ho & HQ & Hl & Hs).
    split; [eauto using nth_error_lt|]. exists l, cs. repeat split; eauto using nth_error_lt.
    eapply Forall2_Forall_impl; [|exact Hs]. exact H.
  - rewrite !repr_on_JSONSet. intros (HP & l & cs & fs & Ho & HQ & Hl & Hs & Hf).
    split; [eauto using nth_error_lt|]. exists l, cs, fs.
    repeat split; eauto using nth_error_lt.
    + eapply Forall2_Forall_impl; [|exact Hs]. exact H.
    + eapply Forall2_Forall_impl; [|exact Hf].
      eapply Forall_impl; [|exact H0]. intros kv IH kr [E R]. split; auto.
  - rewrite !repr_on_JSONRemove. intros (HP & l & cs & Ho & HQ & Hl & Hs).
    split; [eauto using nth_error_lt|]. exists l, cs. repeat split; eauto using nth_error_lt.
    eapply Forall2_Forall_impl; [|exact Hs]. exact H.
Qed.

Lemma repr_mono h h' e i : heap_le h h' -> repr h e i -> repr h' e i.
Proof. intros H. now apply repr_on_frame. Qed.

Lemma repr_of_on P Q h e i : repr_on P Q h e i -> repr h e i.
Proof. apply repr_on_change; intros; exact I. Qed.

(** A represented tree does not meet an object or a list that is not
    allocated yet. *)
Lemma repr_avoids h e i ic lc :
  length (objs h) <= ic -> length (lists h) <= lc ->
  repr h e i -> repr_on (fun j => j <> ic) (fun l => l <> lc) h e i.
Proof.
  intros Hic Hlc. apply repr_on_change; intros; lia.
Qed.

Lemma reprs_mono h h' es cs : heap_le h h' -> reprs_on anywhere anywhere h es cs ->
  reprs_on anywhere anywhere h' es cs.
Proof.
  intros H Hs. eapply Forall2_impl; [|exact Hs]. intros e c. now apply repr_mono.
Qed.

Lemma repr_on_obj P Q h e i : repr_on P Q h e i -> exists o, nth_error (objs h) i = Some o.
Proof.
  destruct e; cbn [repr_on]; intros [_ H].
  1-2: eauto.
  - destruct H as (p & H & _); eauto.
  - destruct H as (l & c & H & _); eauto.
  - destruct H as (l & c & H & _); eauto.
  - destruct H as (l & c & H & _); eauto.
  - destruct H as (l & c & fs & H & _); eauto.
  - destruct H as (l & c & H & _); eauto.
Qed.

(** *** Running computations on the store *)

Lemma hbind_Ok {A B : Type} (m : M A) (k : A -> M B) h a h' :
  m h = (Ok a, h') -> hbind m k h = k a h'.
Proof. intros E. unfold hbind. now rewrite E. Qed.

Lemma sim_ret {A : Type} (a : A) h : sim (ret a) h (Ok a).
Proof. split; [reflexivity | apply heap_le_refl]. Qed.

Lemma sim_raise {A : Type} (e : Exn) h : sim (@raise A e) h (Raise e).
Proof. split; [reflexivity | apply heap_le_refl]. Qed.

Lemma sim_lift {A : Type} (r : outcome A) h : sim (lift r) h r.
Proof. split; [reflexivity | apply heap_le_refl]. Qed.

Lemma sim_pure {A : Type} (m : M A) h r : m h = (r, h) -> sim m h r.
Proof. intros E. unfold sim. rewrite E. split; [reflexivity | apply heap_le_refl]. Qed.

Lemma sim_step {A B : Type} (m : M A) (k : A -> M B) h a h' r :
  m h = (Ok a, h') -> heap_le h h' -> sim (k a) h' r -> sim (hbind m k) h r.
Proof.
  intros E Hle [H1 H2]. unfold sim. rewrite (hbind_Ok _ _ _ _ _ E).
  split; [exact H1 | eapply heap_le_trans; eauto].
Qed.

Lemma sim_bind {A B : Type} (m : M A) (k : A -> M B) h r1 (k' : A -> outcome B) :
  sim m h r1 ->
  (forall a h', heap_le h h' -> sim (k a) h' (k' a)) ->
  sim (hbind m k) h (bind r1 k').
Proof.
  intros [H1 H2] Hk. unfold sim, hbind in *.
  destruct (m h) as [[a|e|] h'] eqn:E; simpl in H1, H2; subst r1; simpl.
  - destruct (Hk a h' H2) as [K1 K2]. split; [exact K1 | eapply heap_le_trans; eauto].
  - split; [reflexivity | exact H2].
  - split; [reflexivity | exact H2].
Qed.

Lemma sim_eq {A : Type} (m : M A) h r r' : sim m h r -> r = r' -> sim m h r'.
Proof. now intros H <-. Qed.

(** *** Reading the store *)

Lemma get_obj_Ok h i o : nth_error (objs h) i = Some o -> get_obj i h = (Ok o, h).
Proof. intros E. unfold get_obj. now rewrite E. Qed.

Lemma get_list_Ok h l xs : nth_error (lists h) l = Some xs -> get_list l h = (Ok xs, h).
Proof. intros E. unfold get_list. now rewrite E. Qed.

Lemma get_source_expressions_Ok h i c l d f fs ps :
  nth_error (objs h) i = Some (OFunc c l d f fs ps) ->
  get_source_expressions i h = (Ok l, h).
Proof.
  intros E. unfold get_source_expressions. now rewrite (hbind_Ok _ _ _ _ _ (get_obj_Ok _ _ _ E)).
Qed.

Lemma get_fields_Ok h i l d f fs ps :
  nth_error (objs h) i = Some (OFunc C_JSONSet l d f fs ps) ->
  get_fields i h = (Ok fs, h).
Proof.
  intros E. unfold get_fields. now rewrite (hbind_Ok _ _ _ _ _ (get_obj_Ok _ _ _ E)).
Qed.

Lemma get_paths_Ok h i l d f fs ps :
  nth_error (objs h) i = Some (OFunc C_JSONRemove l d f fs ps) ->
  get_paths i h = (Ok ps, h).
Proof.
  intros E. unfold get_paths. now rewrite (hbind_Ok _ _ _ _ _ (get_obj_Ok _ _ _ E)).
Qed.

(** What a represented node answers. *)
Lemma h_output_field_repr P Q h e i :
  repr_on P Q h e i -> h_output_field i h = (Ok (output_field_of e), h).
Proof.
  intros H. unfold h_output_field.
  destruct e; cbn [repr_on] in H; destruct H as [_ H].
  - now rewrite (hbind_Ok _ _ _ _ _ (get_obj_Ok _ _ _ H)).
  - now rewrite (hbind_Ok _ _ _ _ _ (get_obj_Ok _ _ _ H)).
  - destruct H as (p & H & _). rewrite (hbind_Ok _ _ _ _ _ (get_obj_Ok _ _ _ H)).
    now destruct output_field.
  - destruct H as (l & c & H & _). now rewrite (hbind_Ok _ _ _ _ _ (get_obj_Ok _ _ _ H)).
  - destruct H as (l & c & H & _). now rewrite (hbind_Ok _ _ _ _ _ (get_obj_Ok _ _ _ H)).
  - destruct H as (l & c & H & _). now rewrite (hbind_Ok _ _ _ _ _ (get_obj_Ok _ _ _ H)).
  - destruct H as (l & c & fs & H & _). now rewrite (hbind_Ok _ _ _ _ _ (get_obj_Ok _ _ _ H)).
  - destruct H as (l & c & H & _). now rewrite (hbind_Ok _ _ _ _ _ (get_obj_Ok _ _ _ H)).
Qed.

Lemma h_isinstance_Value_repr P Q h e i :
  repr_on P Q h e i -> h_isinstance_Value i h = (Ok (isinstance_Value e), h).
Proof.
  intros H. unfold h_isinstance_Value.
  destruct e; cbn [repr_on] in H; destruct H as [_ H].
  - now rewrite (hbind_Ok _ _ _ _ _ (get_obj_Ok _ _ _ H)).
  - now rewrite (hbind_Ok _ _ _ _ _ (get_obj_Ok _ _ _ H)).
  - destruct H as (p & H & _). now rewrite (hbind_Ok _ _ _ _ _ (get_obj_Ok _ _ _ H)).
  - destruct H as (l & c & H & _). now rewrite (hbind_Ok _ _ _ _ _ (get_obj_Ok _ _ _ H)).
  - destruct H as (l & c & H & _). now rewrite (hbind_Ok _ _ _ _ _ (get_obj_Ok _ _ _ H)).
  - destruct H as (l & c & H & _). now rewrite (hbind_Ok _ _ _ _ _ (get_obj_Ok _ _ _ H)).
  - destruct H as (l & c & fs & H & _). now rewrite (hbind_Ok _ _ _ _ _ (get_obj_Ok _ _ _ H)).
  - destruct H as (l & c & H & _). now rewrite (hbind_Ok _ _ _ _ _ (get_obj_Ok _ _ _ H)).
Qed.

Lemma h_has_resolve_expression_repr P Q h e i :
  repr_on P Q h e i -> h_has_resolve_expression i h = (Ok (has_resolve_expression e), h).
Proof.
  intros H. unfold h_has_resolve_expression.
  destruct e; cbn [repr_on] in H; destruct H as [_ H].
  - now rewrite (hbind_Ok _ _ _ _ _ (get_obj_Ok _ _ _ H)).
  - now rewrite (hbind_Ok _ _ _ _ _ (get_obj_Ok _ _ _ H)).
  - destruct H as (p & H & _). now rewrite (hbind_Ok _ _ _ _ _ (get_obj_Ok _ _ _ H)).
  - destruct H as (l & c & H & _). now rewrite (hbind_Ok _ _ _ _ _ (get_obj_Ok _ _ _ H)).
  - destruct H as (l & c & H & _). now rewrite (hbind_Ok _ _ _ _ _ (get_obj_Ok _ _ _ H)).
  - destruct H as (l & c & H & _). now rewrite (hbind_Ok _ _ _ _ _ (get_obj_Ok _ _ _ H)).
  - destruct H as (l & c & fs & H & _). now rewrite (hbind_Ok _ _ _ _ _ (get_obj_Ok _ _ _ H)).
  - destruct H as (l & c & H & _). now rewrite (hbind_Ok _ _ _ _ _ (get_obj_Ok _ _ _ H)).
Qed.

(** The payload of a represented [Value], as the store has it. *)
Lemma repr_on_payload P Q h e p :
  repr_on P Q h e p ->
  exists q, nth_error (objs h) p = Some q
            /\ (forall v, e = Raw v <-> q = ORaw v)
            /\ (forall e' f, e = Value e' f ->
                 exists p', q = OValue p' f /\ repr_on P Q h e' p').
Proof.
  intros H. destruct e; cbn [repr_on] in H; destruct H as [_ H].
  - exists (ORaw v). repeat split; try congruence; intros; discriminate.
  - eexists. split; [exact H|]. split; [split; discriminate | intros; discriminate].
  - destruct H as (p' & H & H'). eexists. split; [exact H|].
    split; [split; discriminate|]. intros e' f [= <- <-]. eauto.
  - destruct H as (l & c & H & _). eexists. split; [exact H|].
    split; [split; discriminate | intros; discriminate].
  - destruct H as (l & c & H & _). eexists. split; [exact H|].
    split; [split; discriminate | intros; discriminate].
  - destruct H as (l & c & H & _). eexists. split; [exact H|].
    split; [split; discriminate | intros; discriminate].
  - destruct H as (l & c & fs & H & _). eexists. split; [exact H|].
    split; [split; discriminate | intros; discriminate].
  - destruct H as (l & c & H & _). eexists. split; [exact H|].
    split; [split; discriminate | intros; discriminate].
Qed.

Lemma h_value_is_None_repr P Q h e i :
  repr_on P Q h e i -> isinstance_Value e = true ->
  h_value_is_None i h = (Ok (value_is_None e), h).
Proof.
  intros H Hv. destruct e; try discriminate. cbn [repr_on] in H.
  destruct H as (_ & p & Ho & Hp). unfold h_value_is_None.
  rewrite (hbind_Ok _ _ _ _ _ (get_obj_Ok _ _ _ Ho)).
  destruct (repr_on_payload _ _ _ _ _ Hp) as (q & Hq & Hraw & _).
  rewrite (hbind_Ok _ _ _ _ _ (get_obj_Ok _ _ _ Hq)). unfold ret. f_equal. f_equal.
  destruct e.
  - rewrite (proj1 (Hraw v) eq_refl). now destruct v.
  - destruct q as [v| | |]; try reflexivity. specialize (proj2 (Hraw v) eq_refl). discriminate.
  - destruct q as [v| | |]; try reflexivity. specialize (proj2 (Hraw v) eq_refl). discriminate.
  - destruct q as [v| | |]; try reflexivity. specialize (proj2 (Hraw v) eq_refl). discriminate.
  - destruct q as [v| | |]; try reflexivity. specialize (proj2 (Hraw v) eq_refl). discriminate.
  - destruct q as [v| | |]; try reflexivity. specialize (proj2 (Hraw v) eq_refl). discriminate.
  - destruct q as [v| | |]; try reflexivity. specialize (proj2 (Hraw v) eq_refl). discriminate.
  - destruct q as [v| | |]; try reflexivity. specialize (proj2 (Hraw v) eq_refl). discriminate.
Qed.

(** *** Allocation *)

Lemma heap_le_new_obj h o : heap_le h {| objs := objs h ++ [o]; lists := lists h |}.
Proof.
  split; simpl; intros i x _ H; [now apply nth_error_snoc_old | exact H].
Qed.

Lemma heap_le_new_list h xs : heap_le h {| objs := objs h; lists := lists h ++ [xs] |}.
Proof.
  split; simpl; intros i x _ H; [exact H | now apply nth_error_snoc_old].
Qed.

Lemma heap_le_new_list_obj h xs o :
  heap_le h {| objs := objs h ++ [o]; lists := lists h ++ [xs] |}.
Proof.
  split; simpl; intros i x _ H; now apply nth_error_snoc_old.
Qed.

Lemma heap_le_new_obj_obj h o1 o2 :
  heap_le h {| objs := (objs h ++ [o1]) ++ [o2]; lists := lists h |}.
Proof.
  split; simpl; intros i x _ H; [|exact H]. now apply nth_error_snoc_old, nth_error_snoc_old.
Qed.

Section Allocation.

Variables P Q : nat -> Prop.
Variable h : Heap.
Hypothesis HP : forall j, length (objs h) <= j -> P j.
Hypothesis HQ : forall l, length (lists h) <= l -> Q l.

Lemma h_Value_of_spec v o :
  exists h' r, h_Value_of v o h = (Ok r, h') /\ heap_le h h'
               /\ repr_on P Q h' (Value (Raw v) o) r.
Proof using HP.
  unfold h_Value_of, h_Value, hbind, new_obj. cbn [objs lists].
  eexists _, _. split; [reflexivity|]. split.
  - apply heap_le_new_obj_obj.
  - cbn [repr_on objs lists]. split; [apply HP; rewrite length_app; simpl; lia|].
    exists (length (objs h)). split.
    + replace (length (objs h ++ [ORaw v])) with (length (objs h ++ [ORaw v]) + 0) by lia.
      rewrite nth_error_app2 by lia. rewrite Nat.add_0_r, Nat.sub_diag. reflexivity.
    + split; [apply HP; lia|]. apply nth_error_snoc_old. apply nth_error_snoc_new.
Qed.

Lemma h_Value_spec e x o :
  repr_on P Q h e x ->
  exists h' r, h_Value x o h = (Ok r, h') /\ heap_le h h' /\ repr_on P Q h' (Value e o) r.
Proof using HP.
  intros He. unfold h_Value, new_obj.
  eexists _, _. split; [reflexivity|]. split; [apply heap_le_new_obj|].
  cbn [repr_on objs lists]. split; [apply HP; lia|].
  exists x. split; [apply nth_error_snoc_new|].
  eapply repr_on_frame; [|exact He]. apply heap_le_keeps, heap_le_new_obj.
Qed.

Lemma h_Cast_spec e x f :
  repr_on P Q h e x ->
  exists h' r, h_Cast x f h = (Ok r, h') /\ heap_le h h' /\ repr_on P Q h' (Cast e f) r.
Proof using HP HQ.
  intros He. unfold h_Cast, h_ToJSONB, h_resolved, ret, hbind, new_obj, new_list.
  cbn [objs lists].
  eexists _, _. split; [reflexivity|]. split.
  - apply heap_le_new_list_obj.
  - cbn [repr_on objs lists]. split; [apply HP; lia|].
    exists (length (lists h)), x. split; [apply nth_error_snoc_new|].
    split; [apply HQ; lia|]. split; [apply nth_error_snoc_new|].
    eapply repr_on_frame; [|exact He]. apply heap_le_keeps, heap_le_new_list_obj.
Qed.

Lemma h_ToJSONB_spec e x f :
  repr_on P Q h e x ->
  exists h' r, h_ToJSONB x (Some f) h = (Ok r, h') /\ heap_le h h'
               /\ repr_on P Q h' (ToJSONB e (Some f)) r.
Proof using HP HQ.
  intros He. unfold h_Cast, h_ToJSONB, h_resolved, ret, hbind, new_obj, new_list.
  cbn [objs lists].
  eexists _, _. split; [reflexivity|]. split.
  - apply heap_le_new_list_obj.
  - cbn [repr_on objs lists]. split; [apply HP; lia|].
    exists (length (lists h)), x. split; [apply nth_error_snoc_new|].
    split; [apply HQ; lia|]. split; [apply nth_error_snoc_new|].
    eapply repr_on_frame; [|exact He]. apply heap_le_keeps, heap_le_new_list_obj.
Qed.

End Allocation.

Lemma anywhere_all (j : nat) : anywhere j.
Proof. exact I. Qed.

Lemma reprf_mono h h' fields fs :
  heap_le h h' -> reprf_on anywhere anywhere h fields fs ->
  reprf_on anywhere anywhere h' fields fs.
Proof.
  intros H Hs. eapply Forall2_impl; [|exact Hs]. intros e c [E R]. split; [exact E|].
  now apply (repr_mono h h').
Qed.

(** The constructors called by the recursive methods. *)
Lemma h_JSONSet_init_spec h e x fields fs :
  repr h e x -> reprf_on anywhere anywhere h fields fs -> fields <> [] ->
  exists h' r, h_JSONSet_init x None fs h = (Ok r, h') /\ heap_le h h'
               /\ repr h' (JSONSet [e] None fields) r
               /\ JSONSet_init e None fields = Ok (JSONSet [e] None fields).
Proof.
  intros He Hf Hne. destruct fields as [|kv fields]; [congruence|].
  destruct fs as [|kr fs]; [inversion Hf|].
  unfold h_JSONSet_init. cbn [h_resolved].
  rewrite (hbind_Ok _ _ _ _ _ (h_output_field_repr _ _ _ _ _ He)).
  unfold hbind, new_obj, new_list. cbn [objs lists].
  eexists _, _. split; [reflexivity|].
  assert (Hle : heap_le h {| objs := objs h ++ [OFunc C_JSONSet (length (lists h)) None
                               (output_field_of e) (kr :: fs) []];
                             lists := lists h ++ [[x]] |}).
  { apply heap_le_new_list_obj. }
  split; [exact Hle|]. split; [|reflexivity].
  apply repr_on_JSONSet. split; [exact I|].
  exists (length (lists h)), [x], (kr :: fs). cbn [objs lists].
  split; [apply nth_error_snoc_new|]. split; [exact I|].
  split; [apply nth_error_snoc_new|]. split.
  - constructor; [|constructor]. now apply (repr_mono h).
  - now apply (reprf_mono h).
Qed.

Lemma h_JSONRemove_init_spec h e x paths :
  repr h e x -> paths <> [] ->
  exists h' r, h_JSONRemove_init x paths None h = (Ok r, h') /\ heap_le h h'
               /\ repr h' (JSONRemove [e] None paths) r
               /\ JSONRemove_init e paths None = Ok (JSONRemove [e] None paths).
Proof.
  intros He Hne. destruct paths as [|p paths]; [congruence|].
  unfold h_JSONRemove_init. cbn [h_resolved].
  rewrite (hbind_Ok _ _ _ _ _ (h_output_field_repr _ _ _ _ _ He)).
  unfold hbind, new_obj, new_list. cbn [objs lists].
  eexists _, _. split; [reflexivity|].
  assert (Hle : heap_le h {| objs := objs h ++ [OFunc C_JSONRemove (length (lists h)) None
                               (output_field_of e) [] (p :: paths)];
                             lists := lists h ++ [[x]] |}).
  { apply heap_le_new_list_obj. }
  split; [exact Hle|]. split; [|reflexivity].
  apply repr_on_JSONRemove. split; [exact I|].
  exists (length (lists h)), [x]. cbn [objs lists].
  split; [apply nth_error_snoc_new|]. split; [exact I|].
  split; [apply nth_error_snoc_new|].
  constructor; [|constructor]. now apply (repr_mono h).
Qed.

(** *** The copy and the writes to it *)

Lemma copy_inv_le h0 ic lc h h' o es xs :
  copy_inv h0 ic lc h o es xs -> heap_le h h' -> copy_inv h0 ic lc h' o es xs.
Proof.
  intros (A & B & C & D & E & F) Hle. pose proof Hle as [Ho Hl].
  refine (conj A (conj B (conj _ (conj _ (conj _ _))))).
  - eapply keeps_trans; [exact C|]. now apply heap_le_keeps.
  - now apply Ho.
  - now apply Hl.
  - eapply Forall2_impl; [|exact F]. intros e c. apply repr_on_frame.
    now apply heap_le_keeps.
Qed.

Lemma copy_inv_fresh_obj h0 ic lc h o es xs :
  copy_inv h0 ic lc h o es xs -> forall j, length (objs h) <= j -> other ic j.
Proof.
  intros (A & B & C & D & E & F) j Hj. apply nth_error_lt in D. unfold other. lia.
Qed.

Lemma copy_inv_fresh_list h0 ic lc h o es xs :
  copy_inv h0 ic lc h o es xs -> forall l, length (lists h) <= l -> other lc l.
Proof.
  intros (A & B & C & D & E & F) j Hj. apply nth_error_lt in E. unfold other. lia.
Qed.

Lemma copy_inv_heap_le h0 ic lc h o es xs :
  copy_inv h0 ic lc h o es xs -> heap_le h0 h.
Proof.
  intros (A & B & C & D & E & F). eapply keeps_fresh; eauto.
Qed.

Lemma copy_inv_old h0 ic lc h o es xs e i :
  copy_inv h0 ic lc h o es xs -> repr h0 e i -> repr_on (other ic) (other lc) h e i.
Proof.
  intros (A & B & C & D & E & F) He. eapply repr_on_frame; [exact C|].
  now apply repr_avoids.
Qed.

Lemma copy_inv_reprs h0 ic lc h o es xs :
  copy_inv h0 ic lc h o es xs -> reprs_on anywhere anywhere h es xs.
Proof.
  intros (A & B & C & D & E & F). eapply Forall2_impl; [|exact F].
  intros e c. apply repr_of_on.
Qed.

Lemma Func_copy_spec h0 i c l d f fs ps cs es :
  nth_error (objs h0) i = Some (OFunc c l d f fs ps) ->
  nth_error (lists h0) l = Some cs ->
  reprs_on anywhere anywhere h0 es cs ->
  exists h1,
    Func_copy i h0 = (Ok (length (objs h0)), h1)
    /\ copy_inv h0 (length (objs h0)) (length (lists h0)) h1
                (OFunc c (length (lists h0)) d f fs ps) es cs.
Proof.
  intros Ho Hl Hs. unfold Func_copy.
  rewrite (hbind_Ok _ _ _ _ _ (get_obj_Ok _ _ _ Ho)).
  rewrite (hbind_Ok _ _ _ _ _ (get_list_Ok _ _ _ Hl)).
  unfold hbind, new_obj, new_list. cbn [objs lists].
  eexists. split; [reflexivity|].
  assert (Hle : heap_le h0 {| objs := objs h0 ++ [OFunc c (length (lists h0)) d f fs ps];
                              lists := lists h0 ++ [cs] |}).
  { apply heap_le_new_list_obj. }
  refine (conj (le_n _) (conj (le_n _) (conj _ (conj _ (conj _ _))))).
  - now apply heap_le_keeps.
  - apply nth_error_snoc_new.
  - apply nth_error_snoc_new.
  - eapply Forall2_impl; [|exact Hs]. intros e x He.
    eapply repr_on_frame; [apply heap_le_keeps, Hle|]. now apply repr_avoids.
Qed.

Lemma copy_inv_append h0 ic lc h o es xs e x :
  copy_inv h0 ic lc h o es xs -> repr_on (other ic) (other lc) h e x ->
  exists h', list_append lc x h = (Ok tt, h')
             /\ copy_inv h0 ic lc h' o (es ++ [e]) (xs ++ [x]).
Proof.
  intros (A & B & C & D & E & F) He. unfold list_append.
  rewrite (hbind_Ok _ _ _ _ _ (get_list_Ok _ _ _ E)). unfold put_list.
  eexists. split; [reflexivity|].
  assert (K : keeps (other ic) (other lc) h
                    {| objs := objs h; lists := upd (lists h) lc (xs ++ [x]) |}).
  { split; cbn [objs lists]; [auto|]. intros l ys Hl H.
    rewrite nth_error_upd_neq; [exact H | unfold other in Hl; congruence]. }
  refine (conj A (conj B (conj _ (conj _ (conj _ _))))).
  - eapply keeps_trans; eauto.
  - exact D.
  - cbn [lists]. apply nth_error_upd_eq. eapply nth_error_lt; eauto.
  - apply Forall2_app.
    + eapply Forall2_impl; [|exact F]. intros e' c. now apply repr_on_frame.
    + constructor; [|constructor]. now apply (repr_on_frame _ _ h).
Qed.

Lemma copy_inv_put h0 ic lc h o o' es xs :
  copy_inv h0 ic lc h o es xs ->
  copy_inv h0 ic lc {| objs := upd (objs h) ic o'; lists := lists h |} o' es xs
  /\ keeps (other ic) anywhere h {| objs := upd (objs h) ic o'; lists := lists h |}.
Proof.
  intros (A & B & C & D & E & F).
  assert (K : keeps (other ic) anywhere h
                    {| objs := upd (objs h) ic o'; lists := lists h |}).
  { split; cbn [objs lists]; [|auto]. intros l ys Hl H.
    rewrite nth_error_upd_neq; [exact H | unfold other in Hl; congruence]. }
  assert (K' : keeps (other ic) (other lc) h
                     {| objs := upd (objs h) ic o'; lists := lists h |}).
  { eapply keeps_weaken; [| |exact K]; auto. intros; exact I. }
  split; [|exact K].
  refine (conj A (conj B (conj _ (conj _ (conj _ _))))).
  - eapply keeps_trans; eauto.
  - cbn [objs]. apply nth_error_upd_eq. eapply nth_error_lt; eauto.
  - exact E.
  - eapply Forall2_impl; [|exact F]. intros e' c. now apply repr_on_frame.
Qed.

Lemma copy_inv_set_source_expressions h0 ic lc h c l d f fs ps es xs l' :
  copy_inv h0 ic lc h (OFunc c l d f fs ps) es xs ->
  exists h', set_source_expressions ic l' h = (Ok tt, h')
             /\ copy_inv h0 ic lc h' (OFunc c l' d f fs ps) es xs
             /\ keeps (other ic) anywhere h h'.
Proof.
  intros H. pose proof H as (A & B & C & D & E & F). unfold set_source_expressions.
  rewrite (hbind_Ok _ _ _ _ _ (get_obj_Ok _ _ _ D)).
  unfold put_obj. eexists. split; [reflexivity|]. apply (copy_inv_put _ _ _ _ _ _ _ _ H).
Qed.

Lemma copy_inv_set_fields h0 ic lc h c l d f fs ps es xs fs' :
  copy_inv h0 ic lc h (OFunc c l d f fs ps) es xs ->
  exists h', set_fields ic fs' h = (Ok tt, h')
             /\ copy_inv h0 ic lc h' (OFunc c l d f fs' ps) es xs.
Proof.
  intros H. pose proof H as (A & B & C & D & E & F). unfold set_fields.
  rewrite (hbind_Ok _ _ _ _ _ (get_obj_Ok _ _ _ D)).
  unfold put_obj. eexists. split; [reflexivity|]. apply (proj1 (copy_inv_put _ _ _ _ _ _ _ _ H)).
Qed.

Lemma copy_inv_set_paths h0 ic lc h c l d f fs ps es xs ps' :
  copy_inv h0 ic lc h (OFunc c l d f fs ps) es xs ->
  exists h', set_paths ic ps' h = (Ok tt, h')
             /\ copy_inv h0 ic lc h' (OFunc c l d f fs ps') es xs.
Proof.
  intros H. pose proof H as (A & B & C & D & E & F). unfold set_paths.
  rewrite (hbind_Ok _ _ _ _ _ (get_obj_Ok _ _ _ D)).
  unfold put_obj. eexists. split; [reflexivity|]. apply (proj1 (copy_inv_put _ _ _ _ _ _ _ _ H)).
Qed.

Lemma sim_at_step {A B : Type} (m : M A) (k : A -> M B) h0 h a h' r :
  m h = (Ok a, h') -> sim_at h0 (k a) h' r -> sim_at h0 (hbind m k) h r.
Proof.
  intros E [H1 H2]. unfold sim_at. now rewrite (hbind_Ok _ _ _ _ _ E).
Qed.

Lemma sim_at_sim {A : Type} (m : M A) h0 h r :
  heap_le h0 h -> sim m h r -> sim_at h0 m h r.
Proof.
  intros Hle [H1 H2]. split; [exact H1 | eapply heap_le_trans; eauto].
Qed.

Lemma sim_at_self {A : Type} (m : M A) h r : sim_at h m h r -> sim m h r.
Proof. exact (fun H => H). Qed.

(** *** [Value.as_sql] on the store *)

Lemma h_Value_as_sql_repr P Q h v p o :
  repr_on P Q h v p -> h_Value_as_sql p o h = (Ok (Value_as_sql v o), h).
Proof.
  intros Hv. unfold h_Value_as_sql.
  destruct (repr_on_payload _ _ _ _ _ Hv) as (q & Hq & Hraw & Hval).
  rewrite (hbind_Ok _ _ _ _ _ (get_obj_Ok _ _ _ Hq)).
  destruct v as [v| | v' f'| | | | |].
  - rewrite (proj1 (Hraw v) eq_refl). destruct o as [[| |]|]; try reflexivity;
      now destruct v.
  - destruct Hv as [_ Hv]. rewrite Hq in Hv. injection Hv as ->.
    now destruct o as [[| |]|].
  - destruct (Hval _ _ eq_refl) as (p' & -> & Hp').
    destruct o as [[| |]|]; try reflexivity.
    destruct f' as [[| |]|]; try (now destruct v').
    destruct (repr_on_payload _ _ _ _ _ Hp') as (q' & Hq' & Hraw' & _).
    rewrite (hbind_Ok _ _ _ _ _ (get_obj_Ok _ _ _ Hq')). unfold ret. f_equal. f_equal.
    destruct v' as [w| | | | | | |].
    + now rewrite (proj1 (Hraw' w) eq_refl).
    + destruct q' as [w| | |]; try reflexivity. now specialize (proj2 (Hraw' w) eq_refl).
    + destruct q' as [w| | |]; try reflexivity. now specialize (proj2 (Hraw' w) eq_refl).
    + destruct q' as [w| | |]; try reflexivity. now specialize (proj2 (Hraw' w) eq_refl).
    + destruct q' as [w| | |]; try reflexivity. now specialize (proj2 (Hraw' w) eq_refl).
    + destruct q' as [w| | |]; try reflexivity. now specialize (proj2 (Hraw' w) eq_refl).
    + destruct q' as [w| | |]; try reflexivity. now specialize (proj2 (Hraw' w) eq_refl).
    + destruct q' as [w| | |]; try reflexivity. now specialize (proj2 (Hraw' w) eq_refl).
  - destruct Hv as (_ & l & c & Hv & _). rewrite Hq in Hv. injection Hv as ->.
    now destruct o as [[| |]|].
  - destruct Hv as (_ & l & c & Hv & _). rewrite Hq in Hv. injection Hv as ->.
    now destruct o as [[| |]|].
  - destruct Hv as (_ & l & c & Hv & _). rewrite Hq in Hv. injection Hv as ->.
    now destruct o as [[| |]|].
  - destruct Hv as (_ & l & c & fs & Hv & _). rewrite Hq in Hv. injection Hv as ->.
    now destruct o as [[| |]|].
  - destruct Hv as (_ & l & c & Hv & _). rewrite Hq in Hv. injection Hv as ->.
    now destruct o as [[| |]|].
Qed.

(** *** Joining arguments on the store *)

Lemma join_repr_of_repr h e n :
  repr h e n ->
  match e with JSONObject _ | JSONSet _ _ _ | JSONRemove _ _ _ => join_repr h e n | _ => True end.
Proof.
  destruct e; try exact (fun _ => I).
  - intros H. apply repr_on_JSONObject in H. destruct H as (_ & l & cs & H & _).
    cbn [join_repr]. eauto 6.
  - intros H. apply repr_on_JSONSet in H. destruct H as (_ & l & cs & fs & H & _ & _ & _ & Hf).
    cbn [join_repr]. eauto 8.
  - intros H. apply repr_on_JSONRemove in H. destruct H as (_ & l & cs & H & _).
    cbn [join_repr]. eauto 6.
Qed.

Lemma join_repr_mono h h' e n : heap_le h h' -> join_repr h e n -> join_repr h' e n.
Proof.
  intros Hle. pose proof Hle as [Ho _]. destruct e; cbn [join_repr]; auto.
  - intros (l & d & f & fs & ps & H). exists l, d, f, fs, ps. now apply Ho.
  - intros (l & d & f & fs & ps & H & Hf). exists l, d, f, fs, ps.
    split; [now apply Ho | now apply (reprf_mono h)].
  - intros (l & d & f & fs & H). exists l, d, f, fs. now apply Ho.
Qed.

Lemma joiner_opt_ok_mono h h' hj j :
  heap_le h h' -> joiner_opt_ok h hj j -> joiner_opt_ok h' hj j.
Proof.
  intros Hle. destruct hj as [[s|n]|], j as [[s'|e]|]; cbn; auto.
  now apply join_repr_mono.
Qed.

Section Simulation.

Variable compile_json_path : list string -> string.
Variable conn : Connection.

Lemma h_join_with_eq h hj j args :
  joiner_ok h hj j ->
  h_join_with compile_json_path hj args h = (join_with compile_json_path j args, h).
Proof.
  destruct hj as [s|n], j as [s'|e]; cbn [joiner_ok]; try contradiction.
  - now intros ->.
  - intros H. unfold h_join_with.
    destruct e; cbn [join_repr] in H; try contradiction.
    + destruct H as (l & d & f & fs & ps & H).
      now rewrite (hbind_Ok _ _ _ _ _ (get_obj_Ok _ _ _ H)).
    + destruct H as (l & d & f & fs & ps & H & Hf).
      rewrite (hbind_Ok _ _ _ _ _ (get_obj_Ok _ _ _ H)).
      unfold h_JSONSet_join. rewrite (hbind_Ok _ _ _ _ _ (get_fields_Ok _ _ _ _ _ _ _ H)).
      cbn [join_with]. unfold JSONSet_join.
      destruct Hf as [|[k v] [k' v'] fields' fs' [Hk Hv] Hf]; [reflexivity|].
      destruct args as [|arg0 args]; [reflexivity|].
      rewrite (hbind_Ok _ _ _ _ _ (h_isinstance_Value_repr _ _ _ _ _ Hv)).
      cbn [fst snd] in *. subst k'. now destruct (isinstance_Value v).
    + destruct H as (l & d & f & fs & H).
      rewrite (hbind_Ok _ _ _ _ _ (get_obj_Ok _ _ _ H)).
      unfold h_JSONRemove_join. now rewrite (hbind_Ok _ _ _ _ _ (get_paths_Ok _ _ _ _ _ _ _ H)).
Qed.

Variable hc : Method -> nat -> M SQL.
Variable c : Method -> Expr -> outcome SQL.
Hypothesis HC : forall m e i h, repr h e i -> sim (hc m i) h (c m e).

Lemma hmapM_sim es cs :
  forall h, reprs_on anywhere anywhere h es cs ->
            sim (hmapM (hc M_compile) cs) h (mapM (c M_compile) es).
Proof using HC.
  intros h Hs. revert h Hs. revert cs.
  induction es as [|e es IH]; intros cs h Hs; inversion Hs; subst.
  - apply sim_ret.
  - cbn [hmapM mapM]. apply sim_bind; [now apply HC|].
    intros a h' Hle. apply sim_bind.
    + apply IH. now apply (reprs_mono h).
    + intros ys h'' _. apply sim_ret.
Qed.

Lemma h_Func_as_sql_sim h self cls l d f fs ps cs es cf fn t hj j :
  nth_error (objs h) self = Some (OFunc cls l d f fs ps) ->
  nth_error (lists h) l = Some cs ->
  reprs_on anywhere anywhere h es cs ->
  joiner_opt_ok h hj j ->
  sim (h_Func_as_sql compile_json_path (hc M_compile) self cf fn t hj) h
      (Func_as_sql compile_json_path (c M_compile) es cf fn t j).
Proof using HC.
  intros Ho Hl Hs Hj. unfold h_Func_as_sql, Func_as_sql.
  eapply sim_step; [eapply get_source_expressions_Ok; eauto | apply heap_le_refl|].
  eapply sim_step; [eapply get_list_Ok; eauto | apply heap_le_refl|].
  apply sim_bind; [now apply hmapM_sim|].
  intros compiled h' Hle. apply sim_bind.
  - apply sim_pure. apply h_join_with_eq.
    apply (joiner_opt_ok_mono _ _ _ _ Hle) in Hj.
    destruct hj as [hj|], j as [j|]; cbn in Hj; try contradiction; [exact Hj|reflexivity].
  - intros expressions h'' _. apply sim_ret.
Qed.

Lemma h_Cast_as_sql_sim h l x e f :
  nth_error (lists h) l = Some [x] -> repr h e x ->
  sim (h_Cast_as_sql (hc M_compile) conn l f) h (Cast_as_sql (c M_compile) conn e f).
Proof using HC.
  intros Hl He. unfold h_Cast_as_sql, Cast_as_sql.
  eapply sim_step; [eapply get_list_Ok; eauto | apply heap_le_refl|].
  apply sim_bind; [now apply HC|]. intros [sql params] h' _. apply sim_ret.
Qed.

Lemma h_Cast_as_postgresql_sim h l x e f :
  nth_error (lists h) l = Some [x] -> repr h e x ->
  sim (h_Cast_as_postgresql (hc M_compile) conn l f) h
      (Cast_as_postgresql (c M_compile) conn e f).
Proof using HC.
  intros Hl He. unfold h_Cast_as_postgresql, Cast_as_postgresql.
  eapply sim_step; [eapply get_list_Ok; eauto | apply heap_le_refl|].
  apply sim_bind; [now apply HC|]. intros [sql params] h' _. apply sim_ret.
Qed.

End Simulation.

(** *** Dictionaries of represented values *)

Section DictRepr.

Context {V W : Type}.
Variable R : V -> W -> Prop.

Let RR (a : string * V) (b : string * W) : Prop := fst a = fst b /\ R (snd a) (snd b).

Lemma Forall2_dict_set (d : dict V) (d' : dict W) k v w :
  Forall2 RR d d' -> R v w -> Forall2 RR (dict_set d k v) (dict_set d' k w).
Proof.
  intros H Hvw. induction H as [|[k1 v1] [k2 w2] d d' [Hk Hr] H IH]; cbn [dict_set].
  - constructor; [now split | constructor].
  - cbn [fst snd] in *. subst k2. destruct (String.eqb k1 k).
    + constructor; [now split | exact H].
    + constructor; [now split | exact IH].
Qed.

Lemma Forall2_dict_of_items (items : list (string * V)) (items' : list (string * W)) :
  Forall2 RR items items' -> Forall2 RR (dict_of_items items) (dict_of_items items').
Proof.
  unfold dict_of_items. generalize (@nil (string * V)) (@nil (string * W)) (Forall2_nil RR).
  intros d d' Hd H. revert d d' Hd.
  induction H as [|a b items items' [Hk Hr] H IH]; intros d d' Hd; cbn [fold_left].
  - exact Hd.
  - apply IH. rewrite Hk. now apply Forall2_dict_set.
Qed.

End DictRepr.

Lemma dict_set_not_nil {V : Type} (d : dict V) k v : dict_set d k v <> [].
Proof.
  destruct d as [|[k' v'] d]; cbn [dict_set]; [discriminate|].
  destruct (String.eqb k' k); discriminate.
Qed.

Lemma dict_of_items_not_nil {V : Type} (kv : string * V) items :
  dict_of_items (kv :: items) <> [].
Proof.
  unfold dict_of_items. cbn [fold_left].
  generalize (dict_set_not_nil (@nil (string * V)) (fst kv) (snd kv)).
  generalize (dict_set [] (fst kv) (snd kv)). induction items as [|a items IH]; intros d Hd.
  - exact Hd.
  - cbn [fold_left]. apply IH, dict_set_not_nil.
Qed.

Lemma reprf_dict_of_items h fields fs :
  reprf_on anywhere anywhere h fields fs ->
  reprf_on anywhere anywhere h (dict_of_items fields) (dict_of_items fs).
Proof. apply (Forall2_dict_of_items (repr_on anywhere anywhere h)). Qed.

(** *** [h_value_is_None] on any node *)

Lemma h_value_is_None_any P Q h e i :
  repr_on P Q h e i -> h_value_is_None i h = (Ok (value_is_None e), h).
Proof.
  intros H. destruct (isinstance_Value e) eqn:Hv; [now apply (h_value_is_None_repr P Q)|].
  unfold h_value_is_None.
  destruct e; try discriminate; cbn [repr_on] in H; destruct H as [_ H].
  - now rewrite (hbind_Ok _ _ _ _ _ (get_obj_Ok _ _ _ H)).
  - now rewrite (hbind_Ok _ _ _ _ _ (get_obj_Ok _ _ _ H)).
  - destruct H as (l & c & H & _). now rewrite (hbind_Ok _ _ _ _ _ (get_obj_Ok _ _ _ H)).
  - destruct H as (l & c & H & _). now rewrite (hbind_Ok _ _ _ _ _ (get_obj_Ok _ _ _ H)).
  - destruct H as (l & c & H & _). now rewrite (hbind_Ok _ _ _ _ _ (get_obj_Ok _ _ _ H)).
  - destruct H as (l & c & fs & H & _). now rewrite (hbind_Ok _ _ _ _ _ (get_obj_Ok _ _ _ H)).
  - destruct H as (l & c & H & _). now rewrite (hbind_Ok _ _ _ _ _ (get_obj_Ok _ _ _ H)).
Qed.

(** *** [JSONObject] on the store *)

Lemma h_cast_keys_spec (P Q : nat -> Prop) es :
  forall cs n h,
    (forall j, length (objs h) <= j -> P j) ->
    (forall l, length (lists h) <= l -> Q l) ->
    reprs_on P Q h es cs ->
    exists h' xs,
      h_cast_keys n cs h = (Ok xs, h') /\ heap_le h h'
      /\ reprs_on P Q h'
           (map (fun ie => if Nat.even (fst ie) then Cast (snd ie) TextField else snd ie)
                (combine (seq n (length es)) es)) xs.
Proof.
  induction es as [|e es IH]; intros cs n h HP HQ Hs; inversion Hs as [|? x ? cs' He Hs']; subst.
  - exists h, []. split; [reflexivity|]. split; [apply heap_le_refl | constructor].
  - cbn [h_cast_keys length seq combine map fst snd].
    assert (Hx : exists h1 r, (if Nat.even n then h_Cast x TextField else ret x) h = (Ok r, h1)
                              /\ heap_le h h1
                              /\ repr_on P Q h1 (if Nat.even n then Cast e TextField else e) r).
    { destruct (Nat.even n).
      - now apply h_Cast_spec.
      - exists h, x. split; [reflexivity|]. split; [apply heap_le_refl | exact He]. }
    destruct Hx as (h1 & r & E1 & Hle1 & Hr).
    destruct (IH cs' (S n) h1) as (h2 & xs & E2 & Hle2 & Hxs).
    { intros j Hj. apply HP. pose proof (heap_le_length_objs _ _ Hle1). lia. }
    { intros j Hj. apply HQ. pose proof (heap_le_length_lists _ _ Hle1). lia. }
    { eapply Forall2_impl; [|exact Hs']. intros e' c'. apply repr_on_frame.
      now apply heap_le_keeps. }
    exists h2, (r :: xs). split.
    + rewrite (hbind_Ok _ _ _ _ _ E1). now rewrite (hbind_Ok _ _ _ _ _ E2).
    + split; [eapply heap_le_trans; eauto|]. constructor; [|exact Hxs].
      eapply repr_on_frame; [|exact Hr]. now apply heap_le_keeps.
Qed.

Section SimulationJSONObject.

Variable compile_json_path : list string -> string.
Variable conn : Connection.
Variable hc : Method -> nat -> M SQL.
Variable c : Method -> Expr -> outcome SQL.
Hypothesis HC : forall m e i h, repr h e i -> sim (hc m i) h (c m e).

Lemma h_JSONObject_as_sql_sim h self cls l d f fs ps cs es fn t hj j :
  nth_error (objs h) self = Some (OFunc cls l d f fs ps) ->
  nth_error (lists h) l = Some cs ->
  reprs_on anywhere anywhere h es cs ->
  joiner_opt_ok h hj j ->
  sim (h_JSONObject_as_sql compile_json_path (hc M_compile) conn self fn t hj) h
      (JSONObject_as_sql compile_json_path (c M_compile) conn es fn t j).
Proof using HC.
  intros Ho Hl Hs Hj. unfold h_JSONObject_as_sql, JSONObject_as_sql.
  destruct (negb (has_json_object_function (features conn))); [apply sim_raise|].
  eapply h_Func_as_sql_sim; eauto.
Qed.

Lemma h_JSONObject_as_native_sim h self l d f fs ps cs es returning :
  nth_error (objs h) self = Some (OFunc C_JSONObject l d f fs ps) ->
  nth_error (lists h) l = Some cs ->
  reprs_on anywhere anywhere h es cs ->
  sim (h_JSONObject_as_native compile_json_path (hc M_compile) conn self returning) h
      (JSONObject_as_native compile_json_path (c M_compile) conn es returning).
Proof using HC.
  intros Ho Hl Hs. unfold h_JSONObject_as_native, JSONObject_as_native.
  eapply h_JSONObject_as_sql_sim; eauto.
  cbn. eauto 6.
Qed.

Lemma h_JSONObject_as_postgresql_sim h0 srcs i :
  repr h0 (JSONObject srcs) i ->
  sim (h_JSONObject_as_postgresql compile_json_path (hc M_compile) conn i) h0
      (JSONObject_as_postgresql compile_json_path (c M_compile) conn srcs).
Proof using HC.
  intros H. apply repr_on_JSONObject in H. destruct H as (_ & l & cs & Ho & _ & Hl & Hs).
  destruct (Func_copy_spec _ _ _ _ _ _ _ _ _ _ Ho Hl Hs) as (h1 & E1 & Inv1).
  set (ic := length (objs h0)) in *. set (lc := length (lists h0)) in *.
  apply sim_at_self. unfold h_JSONObject_as_postgresql.
  eapply sim_at_step; [exact E1|].
  pose proof Inv1 as (_ & _ & _ & D1 & L1 & R1).
  eapply sim_at_step; [eapply get_source_expressions_Ok; exact D1|].
  eapply sim_at_step; [eapply get_list_Ok; exact L1|].
  destruct (h_cast_keys_spec (other ic) (other lc) srcs cs 0 h1
              (copy_inv_fresh_obj _ _ _ _ _ _ _ Inv1)
              (copy_inv_fresh_list _ _ _ _ _ _ _ Inv1) R1)
    as (h2 & casted & E2 & Hle2 & Hcast).
  eapply sim_at_step; [exact E2|].
  pose proof (copy_inv_le _ _ _ _ _ _ _ _ Inv1 Hle2) as Inv2.
  eapply sim_at_step; [reflexivity|].
  set (h3 := {| objs := objs h2; lists := lists h2 ++ [casted] |}).
  assert (Hle3 : heap_le h2 h3) by apply heap_le_new_list.
  pose proof (copy_inv_le _ _ _ _ _ _ _ _ Inv2 Hle3) as Inv3.
  destruct (copy_inv_set_source_expressions _ _ _ _ _ _ _ _ _ _ _ _ (length (lists h2)) Inv3)
    as (h4 & E4 & Inv4 & K4).
  eapply sim_at_step; [exact E4|].
  pose proof Inv4 as (_ & _ & _ & D4 & _ & _).
  assert (L4 : nth_error (lists h4) (length (lists h2)) = Some casted).
  { apply K4; [exact I|]. apply nth_error_snoc_new. }
  assert (R4 : reprs_on anywhere anywhere h4 (cast_keys srcs) casted).
  { eapply Forall2_impl; [|exact Hcast]. intros e x He. apply (repr_of_on (other ic) (other lc)).
    eapply repr_on_frame; [|eapply repr_on_frame; [|exact He]].
    - eapply keeps_weaken; [| |exact K4]; auto. intros; exact I.
    - now apply heap_le_keeps. }
  apply sim_at_sim; [eapply copy_inv_heap_le; exact Inv4|].
  unfold JSONObject_as_postgresql.
  destruct (is_postgresql_16 (features conn)).
  - eapply h_JSONObject_as_native_sim; eauto.
  - eapply h_Func_as_sql_sim; eauto. exact I.
Qed.

End SimulationJSONObject.

(** *** [JSONSet] on the store *)

Section SimulationJSONSet.

Variable compile_json_path : list string -> string.
Variable conn : Connection.
Variable hc : Method -> nat -> M SQL.
Variable c : Method -> Expr -> outcome SQL.
Hypothesis HC : forall m e i h, repr h e i -> sim (hc m i) h (c m e).

(** The loop of [JSONSet.as_sql] appends a path and a value per pair to
    the list of the copy. *)
Lemma h_JSONSet_as_sql_loop h0 ic lc ob self_e i :
  repr h0 self_e i ->
  forall fields fs,
    reprf_on anywhere anywhere h0 fields fs ->
    forall h es xs,
      copy_inv h0 ic lc h ob es xs ->
      exists h' xs',
        hfor (fun kv : string * nat =>
                let key_paths := str_split (fst kv) LOOKUP_SEP in
                let key_paths_join := compile_json_path key_paths in
                path <~ h_Value_of (PStr key_paths_join) None ;;
                list_append lc path ;;;
                is_value <~ h_isinstance_Value (snd kv) ;;
                value <~ (if is_value
                          then (f <~ h_output_field i ;; h_Cast (snd kv) f)
                          else ret (snd kv)) ;;
                list_append lc value)
             fs h = (Ok tt, h')
        /\ copy_inv h0 ic lc h' ob
             (fold_left
                (fun new_source_expressions kv =>
                   new_source_expressions
                     ++ [Value (Raw (PStr (compile_json_path (str_split (fst kv) LOOKUP_SEP)))) None;
                         if isinstance_Value (snd kv)
                         then Cast (snd kv) (output_field_of self_e)
                         else snd kv])
                fields es) xs'.
Proof.
  intros Hself fields fs Hf.
  induction Hf as [|[k v] [k' r] fields fs [Hk Hv] Hf IH]; intros h es xs Inv.
  - exists h, xs. split; [reflexivity | exact Inv].
  - cbn [fst snd] in Hk, Hv. subst k'.
    destruct (h_Value_of_spec (other ic) (other lc) h
                (copy_inv_fresh_obj _ _ _ _ _ _ _ Inv)
                (PStr (compile_json_path (str_split k LOOKUP_SEP))) None)
      as (h1 & path & E1 & Hle1 & Hpath).
    pose proof (copy_inv_le _ _ _ _ _ _ _ _ Inv Hle1) as Inv1.
    destruct (copy_inv_append _ _ _ _ _ _ _ _ _ Inv1 Hpath) as (h2 & E2 & Inv2).
    pose proof (copy_inv_old _ _ _ _ _ _ _ _ _ Inv2 Hv) as Hv2.
    pose proof (h_isinstance_Value_repr _ _ _ _ _ Hv2) as E3.
    assert (Hx : exists h3 x,
               (if isinstance_Value v
                then (f <~ h_output_field i ;; h_Cast r f)
                else ret r) h2 = (Ok x, h3)
               /\ heap_le h2 h3
               /\ repr_on (other ic) (other lc) h3
                    (if isinstance_Value v then Cast v (output_field_of self_e) else v) x).
    { destruct (isinstance_Value v).
      - rewrite (hbind_Ok _ _ _ _ _
                   (h_output_field_repr _ _ _ _ _ (copy_inv_old _ _ _ _ _ _ _ _ _ Inv2 Hself))).
        apply h_Cast_spec; [eapply copy_inv_fresh_obj | eapply copy_inv_fresh_list | ]; eauto.
      - exists h2, r. split; [reflexivity|]. split; [apply heap_le_refl | exact Hv2]. }
    destruct Hx as (h3 & x & E4 & Hle3 & Hx).
    pose proof (copy_inv_le _ _ _ _ _ _ _ _ Inv2 Hle3) as Inv3.
    destruct (copy_inv_append _ _ _ _ _ _ _ _ _ Inv3 Hx) as (h4 & E5 & Inv4).
    rewrite <- !app_assoc in Inv4. cbn [app] in Inv4.
    destruct (IH _ _ _ Inv4) as (h' & xs' & E6 & Inv').
    exists h', xs'. split; [|exact Inv'].
    cbn [hfor]. unfold hbind at 1. cbn [fst snd].
    rewrite (hbind_Ok _ _ _ _ _ E1), (hbind_Ok _ _ _ _ _ E2), (hbind_Ok _ _ _ _ _ E3),
      (hbind_Ok _ _ _ _ _ E4), E5. exact E6.
Qed.

Lemma h_JSONSet_as_sql_sim h0 srcs o fields i :
  repr h0 (JSONSet srcs o fields) i ->
  sim (h_JSONSet_as_sql compile_json_path (hc M_compile) conn i) h0
      (JSONSet_as_sql compile_json_path (c M_compile) conn srcs o fields).
Proof using HC.
  intros Hself. pose proof Hself as H.
  apply repr_on_JSONSet in H. destruct H as (_ & l & cs & fs & Ho & _ & Hl & Hs & Hf).
  unfold h_JSONSet_as_sql, JSONSet_as_sql.
  destruct (negb (supports_partial_json_update (features conn))); [apply sim_raise|].
  destruct (Func_copy_spec _ _ _ _ _ _ _ _ _ _ Ho Hl Hs) as (h1 & E1 & Inv1).
  set (ic := length (objs h0)) in *. set (lc := length (lists h0)) in *.
  apply sim_at_self.
  eapply sim_at_step; [exact E1|].
  pose proof Inv1 as (_ & _ & _ & D1 & L1 & R1).
  eapply sim_at_step; [eapply get_source_expressions_Ok; exact D1|].
  eapply sim_at_step.
  { eapply get_fields_Ok. apply (copy_inv_heap_le _ _ _ _ _ _ _ Inv1); [exact I | exact Ho]. }
  destruct (h_JSONSet_as_sql_loop _ _ _ _ _ _ Hself _ _ Hf _ _ _ Inv1) as (h2 & xs' & E2 & Inv2).
  eapply sim_at_step; [exact E2|].
  destruct (copy_inv_set_source_expressions _ _ _ _ _ _ _ _ _ _ _ _ lc Inv2)
    as (h3 & E3 & Inv3 & _).
  eapply sim_at_step; [exact E3|].
  pose proof Inv3 as (_ & _ & _ & D3 & L3 & _).
  apply sim_at_sim; [eapply copy_inv_heap_le; exact Inv3|].
  eapply h_Func_as_sql_sim; eauto.
  - eapply copy_inv_reprs; exact Inv3.
  - exact I.
Qed.

(** The value [JSONSet.as_postgresql] appends. *)
Lemma h_JSONSet_postgresql_value_spec h0 ic lc h ob es xs self_e i value vref :
  copy_inv h0 ic lc h ob es xs -> repr h0 self_e i -> repr h0 value vref ->
  exists h' r,
    h_JSONSet_postgresql_value i vref h = (Ok r, h') /\ heap_le h h'
    /\ repr_on (other ic) (other lc) h'
         (JSONSet_postgresql_value (output_field_of self_e) value) r.
Proof.
  intros Inv Hself Hv.
  pose proof (copy_inv_old _ _ _ _ _ _ _ _ _ Inv Hv) as Hv1.
  pose proof (copy_inv_old _ _ _ _ _ _ _ _ _ Inv Hself) as Hs1.
  unfold h_JSONSet_postgresql_value, JSONSet_postgresql_value.
  rewrite (hbind_Ok _ _ _ _ _ (h_has_resolve_expression_repr _ _ _ _ _ Hv1)).
  rewrite (hbind_Ok _ _ _ _ _ (h_output_field_repr _ _ _ _ _ Hv1)).
  destruct (has_resolve_expression value && negb (is_JSONField (output_field_of value))).
  - rewrite (hbind_Ok _ _ _ _ _ (h_output_field_repr _ _ _ _ _ Hs1)).
    apply h_ToJSONB_spec; [eapply copy_inv_fresh_obj | eapply copy_inv_fresh_list | ]; eauto.
  - rewrite (hbind_Ok _ _ _ _ _ (h_isinstance_Value_repr _ _ _ _ _ Hv1)).
    rewrite (hbind_Ok _ _ _ _ _ (h_value_is_None_any _ _ _ _ _ Hv1)).
    destruct (isinstance_Value value && value_is_None value).
    + rewrite (hbind_Ok _ _ _ _ _ (h_output_field_repr _ _ _ _ _ Hs1)).
      apply h_Value_of_spec. eapply copy_inv_fresh_obj; eauto.
    + exists h, vref. split; [reflexivity|]. split; [apply heap_le_refl | exact Hv1].
Qed.

(** The copy that keeps the first pair, and the node built on it. *)
Lemma JSONSet_rest_node h0 ic lc h l d srcs cs o fs ps k v r rest rest' :
  copy_inv h0 ic lc h (OFunc C_JSONSet l d (output_field_of (JSONSet srcs o [(k, v)])) fs ps)
           srcs cs ->
  d = o -> l = lc -> ps = [] ->
  repr h0 v r -> reprf_on anywhere anywhere h0 rest rest' -> rest <> [] ->
  exists h2 h3 node,
    set_fields ic [(k, r)] h = (Ok tt, h2)
    /\ h_JSONSet_init ic None (dict_of_items rest') h2 = (Ok node, h3)
    /\ heap_le h0 h3
    /\ repr h3 (JSONSet [JSONSet srcs o [(k, v)]] None (dict_of_items rest)) node
    /\ JSONSet_init (JSONSet srcs o [(k, v)]) None (dict_of_items rest)
       = Ok (JSONSet [JSONSet srcs o [(k, v)]] None (dict_of_items rest)).
Proof.
  intros Inv -> -> -> Hv Hrest Hne.
  destruct (copy_inv_set_fields _ _ _ _ _ _ _ _ _ _ _ _ [(k, r)] Inv) as (h2 & E2 & Inv2).
  pose proof Inv2 as (_ & _ & _ & D2 & L2 & _).
  pose proof (copy_inv_heap_le _ _ _ _ _ _ _ Inv2) as Hle2.
  assert (Hcopy : repr h2 (JSONSet srcs o [(k, v)]) ic).
  { apply repr_on_JSONSet. split; [exact I|]. exists lc, cs, [(k, r)].
    split; [exact D2|]. split; [exact I|]. split; [exact L2|].
    split; [eapply copy_inv_reprs; exact Inv2|].
    constructor; [|constructor]. split; [reflexivity|]. now apply (repr_mono h0). }
  destruct rest as [|kv rest]; [congruence|].
  destruct (h_JSONSet_init_spec h2 _ ic (dict_of_items (kv :: rest)) (dict_of_items rest') Hcopy)
    as (h3 & node & E3 & Hle3 & Hnode & Epure).
  { apply reprf_dict_of_items. now apply (reprf_mono h0). }
  { apply dict_of_items_not_nil. }
  exists h2, h3, node. split; [exact E2|]. split; [exact E3|].
  split; [eapply heap_le_trans; eauto|]. split; [exact Hnode | exact Epure].
Qed.

Lemma h_JSONSet_as_postgresql_sim h0 srcs o fields i :
  repr h0 (JSONSet srcs o fields) i ->
  sim (h_JSONSet_as_postgresql compile_json_path (hc M_compile) (hc M_as_postgresql) conn i) h0
      (JSONSet_as_postgresql compile_json_path (c M_compile) (c M_as_postgresql)
                             conn srcs o fields).
Proof using HC.
  intros Hself. pose proof Hself as H.
  apply repr_on_JSONSet in H. destruct H as (_ & l & cs & fs & Ho & _ & Hl & Hs & Hf).
  unfold h_JSONSet_as_postgresql, JSONSet_as_postgresql.
  destruct (Func_copy_spec _ _ _ _ _ _ _ _ _ _ Ho Hl Hs) as (h1 & E1 & Inv1).
  set (ic := length (objs h0)) in *. set (lc := length (lists h0)) in *.
  apply sim_at_self.
  eapply sim_at_step; [exact E1|].
  pose proof Inv1 as (_ & _ & _ & D1 & L1 & R1).
  eapply sim_at_step.
  { eapply get_fields_Ok. apply (copy_inv_heap_le _ _ _ _ _ _ _ Inv1); [exact I | exact Ho]. }
  destruct Hf as [|[k v] [k' r] fields fs [Hk Hv] Hf].
  { apply sim_at_sim; [eapply copy_inv_heap_le; exact Inv1 | apply sim_raise]. }
  cbn [fst snd] in Hk, Hv. subst k'.
  destruct Hf as [|kv kr rest rest' Hkv Hf].
  - (* the last pair *)
    eapply sim_at_step; [eapply get_source_expressions_Ok; exact D1|].
    destruct (h_Value_of_spec (other ic) (other lc) h1
                (copy_inv_fresh_obj _ _ _ _ _ _ _ Inv1)
                (PStrList (str_split k LOOKUP_SEP)) None)
      as (h2 & path & E2 & Hle2 & Hpath).
    eapply sim_at_step; [exact E2|].
    pose proof (copy_inv_le _ _ _ _ _ _ _ _ Inv1 Hle2) as Inv2.
    destruct (copy_inv_append _ _ _ _ _ _ _ _ _ Inv2 Hpath) as (h3 & E3 & Inv3).
    eapply sim_at_step; [exact E3|].
    destruct (h_JSONSet_postgresql_value_spec _ _ _ _ _ _ _ _ _ _ _ Inv3 Hself Hv)
      as (h4 & x & E4 & Hle4 & Hx).
    eapply sim_at_step; [exact E4|].
    pose proof (copy_inv_le _ _ _ _ _ _ _ _ Inv3 Hle4) as Inv4.
    destruct (copy_inv_append _ _ _ _ _ _ _ _ _ Inv4 Hx) as (h5 & E5 & Inv5).
    eapply sim_at_step; [exact E5|].
    destruct (copy_inv_set_source_expressions _ _ _ _ _ _ _ _ _ _ _ _ lc Inv5)
      as (h6 & E6 & Inv6 & _).
    eapply sim_at_step; [exact E6|].
    rewrite <- !app_assoc in Inv6. cbn [app] in Inv6.
    pose proof Inv6 as (_ & _ & _ & D6 & L6 & _).
    apply sim_at_sim; [eapply copy_inv_heap_le; exact Inv6|].
    eapply h_Func_as_sql_sim; eauto.
    + eapply copy_inv_reprs; exact Inv6.
    + exact I.
  - (* more pairs: the copy keeps the first one *)
    destruct (JSONSet_rest_node h0 ic lc h1 lc o srcs cs o ((k, r) :: kr :: rest') [] k v r
                (kv :: rest) (kr :: rest') Inv1 eq_refl eq_refl eq_refl Hv)
      as (h2 & h3 & node & E2 & E3 & Hle3 & Hnode & Epure).
    { constructor; assumption. }
    { discriminate. }
    eapply sim_at_step; [exact E2|].
    eapply sim_at_step; [exact E3|].
    apply sim_at_sim; [exact Hle3|].
    cbv zeta. rewrite Epure. cbn [bind]. now apply HC.
Qed.

Lemma h_JSONSet_as_oracle_sim h0 srcs o fields i :
  repr h0 (JSONSet srcs o fields) i ->
  sim (h_JSONSet_as_oracle compile_json_path (hc M_compile) (hc M_as_oracle) conn i) h0
      (JSONSet_as_oracle compile_json_path (c M_compile) (c M_as_oracle) conn srcs o fields).
Proof using HC.
  intros Hself. pose proof Hself as H.
  apply repr_on_JSONSet in H. destruct H as (_ & l & cs & fs & Ho & _ & Hl & Hs & Hf).
  unfold h_JSONSet_as_oracle, JSONSet_as_oracle.
  destruct (negb (supports_partial_json_update (features conn))); [apply sim_raise|].
  destruct (Func_copy_spec _ _ _ _ _ _ _ _ _ _ Ho Hl Hs) as (h1 & E1 & Inv1).
  set (ic := length (objs h0)) in *. set (lc := length (lists h0)) in *.
  apply sim_at_self.
  eapply sim_at_step; [exact E1|].
  pose proof Inv1 as (_ & _ & _ & D1 & L1 & R1).
  eapply sim_at_step.
  { eapply get_fields_Ok. apply (copy_inv_heap_le _ _ _ _ _ _ _ Inv1); [exact I | exact Ho]. }
  pose proof (join_repr_of_repr _ _ _ Hself) as Hjoin.
  destruct Hf as [|[k v] [k' r] fields fs [Hk Hv] Hf].
  { apply sim_at_sim; [eapply copy_inv_heap_le; exact Inv1 | apply sim_raise]. }
  cbn [fst snd] in Hk, Hv. subst k'.
  destruct Hf as [|kv kr rest rest' Hkv Hf].
  - (* the last pair *)
    eapply sim_at_step; [eapply get_source_expressions_Ok; exact D1|].
    pose proof (copy_inv_old _ _ _ _ _ _ _ _ _ Inv1 Hv) as Hv1.
    eapply sim_at_step; [exact (h_isinstance_Value_repr _ _ _ _ _ Hv1)|].
    assert (Hx : exists h2 x,
               (if isinstance_Value v
                then (f <~ h_output_field i ;; h_Value r (Some f))
                else ret r) h1 = (Ok x, h2)
               /\ heap_le h1 h2
               /\ repr_on (other ic) (other lc) h2
                    (if isinstance_Value v
                     then Value v (Some (output_field_of (JSONSet srcs o [(k, v)])))
                     else v) x).
    { destruct (isinstance_Value v).
      - rewrite (hbind_Ok _ _ _ _ _
                   (h_output_field_repr _ _ _ _ _ (copy_inv_old _ _ _ _ _ _ _ _ _ Inv1 Hself))).
        apply h_Value_spec; [eapply copy_inv_fresh_obj; eauto | exact Hv1].
      - exists h1, r. split; [reflexivity|]. split; [apply heap_le_refl | exact Hv1]. }
    destruct Hx as (h2 & x & E2 & Hle2 & Hx).
    eapply sim_at_step; [exact E2|].
    pose proof (copy_inv_le _ _ _ _ _ _ _ _ Inv1 Hle2) as Inv2.
    destruct (copy_inv_append _ _ _ _ _ _ _ _ _ Inv2 Hx) as (h3 & E3 & Inv3).
    eapply sim_at_step; [exact E3|].
    destruct (copy_inv_set_source_expressions _ _ _ _ _ _ _ _ _ _ _ _ lc Inv3)
      as (h4 & E4 & Inv4 & _).
    eapply sim_at_step; [exact E4|].
    pose proof Inv4 as (_ & _ & _ & D4 & L4 & _).
    pose proof (copy_inv_heap_le _ _ _ _ _ _ _ Inv4) as Hle4.
    apply sim_at_sim; [exact Hle4|].
    eapply h_Func_as_sql_sim; eauto.
    + eapply copy_inv_reprs; exact Inv4.
    + cbn [joiner_opt_ok joiner_ok]. now apply (join_repr_mono h0).
  - (* more pairs: the copy keeps the first one *)
    destruct (JSONSet_rest_node h0 ic lc h1 lc o srcs cs o ((k, r) :: kr :: rest') [] k v r
                (kv :: rest) (kr :: rest') Inv1 eq_refl eq_refl eq_refl Hv)
      as (h2 & h3 & node & E2 & E3 & Hle3 & Hnode & Epure).
    { constructor; assumption. }
    { discriminate. }
    eapply sim_at_step; [exact E2|].
    eapply sim_at_step; [exact E3|].
    apply sim_at_sim; [exact Hle3|].
    cbv zeta. rewrite Epure. cbn [bind]. now apply HC.
Qed.

End SimulationJSONSet.

(** *** [JSONRemove] on the store *)

Section SimulationJSONRemove.

Variable compile_json_path : list string -> string.
Variable conn : Connection.
Variable hc : Method -> nat -> M SQL.
Variable c : Method -> Expr -> outcome SQL.
Hypothesis HC : forall m e i h, repr h e i -> sim (hc m i) h (c m e).

Lemma h_JSONRemove_as_sql_loop h0 ic lc ob paths :
  forall h es xs,
    copy_inv h0 ic lc h ob es xs ->
    exists h' xs',
      hfor (fun path =>
              let key_paths := str_split path LOOKUP_SEP in
              let key_paths_join := compile_json_path key_paths in
              p <~ h_Value_of (PStr key_paths_join) None ;;
              list_append lc p)
           paths h = (Ok tt, h')
      /\ copy_inv h0 ic lc h' ob
           (fold_left
              (fun new_source_expressions path =>
                 new_source_expressions
                   ++ [Value (Raw (PStr (compile_json_path (str_split path LOOKUP_SEP)))) None])
              paths es) xs'.
Proof.
  induction paths as [|path paths IH]; intros h es xs Inv.
  - exists h, xs. split; [reflexivity | exact Inv].
  - destruct (h_Value_of_spec (other ic) (other lc) h
                (copy_inv_fresh_obj _ _ _ _ _ _ _ Inv)
                (PStr (compile_json_path (str_split path LOOKUP_SEP))) None)
      as (h1 & p & E1 & Hle1 & Hp).
    pose proof (copy_inv_le _ _ _ _ _ _ _ _ Inv Hle1) as Inv1.
    destruct (copy_inv_append _ _ _ _ _ _ _ _ _ Inv1 Hp) as (h2 & E2 & Inv2).
    destruct (IH _ _ _ Inv2) as (h' & xs' & E3 & Inv').
    exists h', xs'. split; [|exact Inv'].
    cbn [hfor]. unfold hbind at 1.
    rewrite (hbind_Ok _ _ _ _ _ E1), E2. exact E3.
Qed.

Lemma h_JSONRemove_as_sql_sim h0 srcs o paths i :
  repr h0 (JSONRemove srcs o paths) i ->
  sim (h_JSONRemove_as_sql compile_json_path (hc M_compile) conn i) h0
      (JSONRemove_as_sql compile_json_path (c M_compile) conn srcs paths).
Proof using HC.
  intros Hself. pose proof Hself as H.
  apply repr_on_JSONRemove in H. destruct H as (_ & l & cs & Ho & _ & Hl & Hs).
  unfold h_JSONRemove_as_sql, JSONRemove_as_sql.
  destruct (negb (supports_partial_json_update (features conn))); [apply sim_raise|].
  destruct (Func_copy_spec _ _ _ _ _ _ _ _ _ _ Ho Hl Hs) as (h1 & E1 & Inv1).
  set (ic := length (objs h0)) in *. set (lc := length (lists h0)) in *.
  apply sim_at_self.
  eapply sim_at_step; [exact E1|].
  pose proof Inv1 as (_ & _ & _ & D1 & L1 & R1).
  eapply sim_at_step; [eapply get_source_expressions_Ok; exact D1|].
  eapply sim_at_step.
  { eapply get_paths_Ok. apply (copy_inv_heap_le _ _ _ _ _ _ _ Inv1); [exact I | exact Ho]. }
  destruct (h_JSONRemove_as_sql_loop _ _ _ _ paths _ _ _ Inv1) as (h2 & xs' & E2 & Inv2).
  eapply sim_at_step; [exact E2|].
  destruct (copy_inv_set_source_expressions _ _ _ _ _ _ _ _ _ _ _ _ lc Inv2)
    as (h3 & E3 & Inv3 & _).
  eapply sim_at_step; [exact E3|].
  pose proof Inv3 as (_ & _ & _ & D3 & L3 & _).
  apply sim_at_sim; [eapply copy_inv_heap_le; exact Inv3|].
  eapply h_Func_as_sql_sim; eauto.
  - eapply copy_inv_reprs; exact Inv3.
  - exact I.
Qed.

(** The copy that keeps the first path, and the node built on it. *)
Lemma JSONRemove_rest_node h0 ic lc h srcs cs o fs ps path rest :
  copy_inv h0 ic lc h
           (OFunc C_JSONRemove lc o (output_field_of (JSONRemove srcs o [path])) fs ps)
           srcs cs ->
  fs = [] -> rest <> [] ->
  exists h2 h3 node,
    set_paths ic [path] h = (Ok tt, h2)
    /\ h_JSONRemove_init ic rest None h2 = (Ok node, h3)
    /\ heap_le h0 h3
    /\ repr h3 (JSONRemove [JSONRemove srcs o [path]] None rest) node
    /\ JSONRemove_init (JSONRemove srcs o [path]) rest None
       = Ok (JSONRemove [JSONRemove srcs o [path]] None rest).
Proof.
  intros Inv -> Hne.
  destruct (copy_inv_set_paths _ _ _ _ _ _ _ _ _ _ _ _ [path] Inv) as (h2 & E2 & Inv2).
  pose proof Inv2 as (_ & _ & _ & D2 & L2 & _).
  pose proof (copy_inv_heap_le _ _ _ _ _ _ _ Inv2) as Hle2.
  assert (Hcopy : repr h2 (JSONRemove srcs o [path]) ic).
  { apply repr_on_JSONRemove. split; [exact I|]. exists lc, cs.
    split; [exact D2|]. split; [exact I|]. split; [exact L2|].
    eapply copy_inv_reprs; exact Inv2. }
  destruct (h_JSONRemove_init_spec h2 _ ic rest Hcopy Hne)
    as (h3 & node & E3 & Hle3 & Hnode & Epure).
  exists h2, h3, node. split; [exact E2|]. split; [exact E3|].
  split; [eapply heap_le_trans; eauto|]. split; [exact Hnode | exact Epure].
Qed.

Lemma h_JSONRemove_as_postgresql_sim h0 srcs o paths i :
  repr h0 (JSONRemove srcs o paths) i ->
  sim (h_JSONRemove_as_postgresql compile_json_path (hc M_compile) (hc M_as_postgresql)
                                  conn i) h0
      (JSONRemove_as_postgresql compile_json_path (c M_compile) (c M_as_postgresql)
                                conn srcs o paths).
Proof using HC.
  intros Hself. pose proof Hself as H.
  apply repr_on_JSONRemove in H. destruct H as (_ & l & cs & Ho & _ & Hl & Hs).
  unfold h_JSONRemove_as_postgresql, JSONRemove_as_postgresql.
  destruct (Func_copy_spec _ _ _ _ _ _ _ _ _ _ Ho Hl Hs) as (h1 & E1 & Inv1).
  set (ic := length (objs h0)) in *. set (lc := length (lists h0)) in *.
  apply sim_at_self.
  eapply sim_at_step; [exact E1|].
  pose proof Inv1 as (_ & _ & _ & D1 & L1 & R1).
  eapply sim_at_step.
  { eapply get_paths_Ok. apply (copy_inv_heap_le _ _ _ _ _ _ _ Inv1); [exact I | exact Ho]. }
  destruct paths as [|path [|path' rest]].
  - apply sim_at_sim; [eapply copy_inv_heap_le; exact Inv1 | apply sim_raise].
  - eapply sim_at_step; [eapply get_source_expressions_Ok; exact D1|].
    destruct (h_Value_of_spec (other ic) (other lc) h1
                (copy_inv_fresh_obj _ _ _ _ _ _ _ Inv1)
                (PStrList (str_split path LOOKUP_SEP)) None)
      as (h2 & p & E2 & Hle2 & Hp).
    eapply sim_at_step; [exact E2|].
    pose proof (copy_inv_le _ _ _ _ _ _ _ _ Inv1 Hle2) as Inv2.
    destruct (copy_inv_append _ _ _ _ _ _ _ _ _ Inv2 Hp) as (h3 & E3 & Inv3).
    eapply sim_at_step; [exact E3|].
    destruct (copy_inv_set_source_expressions _ _ _ _ _ _ _ _ _ _ _ _ lc Inv3)
      as (h4 & E4 & Inv4 & _).
    eapply sim_at_step; [exact E4|].
    pose proof Inv4 as (_ & _ & _ & D4 & L4 & _).
    apply sim_at_sim; [eapply copy_inv_heap_le; exact Inv4|].
    eapply h_Func_as_sql_sim; eauto.
    + eapply copy_inv_reprs; exact Inv4.
    + reflexivity.
  - destruct (JSONRemove_rest_node h0 ic lc h1 srcs cs o [] (path :: path' :: rest) path
                (path' :: rest) Inv1 eq_refl)
      as (h2 & h3 & node & E2 & E3 & Hle3 & Hnode & Epure); [discriminate|].
    eapply sim_at_step; [exact E2|].
    eapply sim_at_step; [exact E3|].
    apply sim_at_sim; [exact Hle3|].
    cbv zeta. rewrite Epure. cbn [bind]. now apply HC.
Qed.

Lemma h_JSONRemove_as_oracle_sim h0 srcs o paths i :
  repr h0 (JSONRemove srcs o paths) i ->
  sim (h_JSONRemove_as_oracle compile_json_path (hc M_compile) (hc M_as_oracle) conn i) h0
      (JSONRemove_as_oracle compile_json_path (c M_compile) (c M_as_oracle)
                            conn srcs o paths).
Proof using HC.
  intros Hself. pose proof Hself as H.
  apply repr_on_JSONRemove in H. destruct H as (_ & l & cs & Ho & _ & Hl & Hs).
  unfold h_JSONRemove_as_oracle, JSONRemove_as_oracle.
  destruct (negb (supports_partial_json_update (features conn))); [apply sim_raise|].
  destruct (Func_copy_spec _ _ _ _ _ _ _ _ _ _ Ho Hl Hs) as (h1 & E1 & Inv1).
  set (ic := length (objs h0)) in *. set (lc := length (lists h0)) in *.
  apply sim_at_self.
  eapply sim_at_step; [exact E1|].
  pose proof Inv1 as (_ & _ & _ & D1 & L1 & R1).
  eapply sim_at_step.
  { eapply get_paths_Ok. apply (copy_inv_heap_le _ _ _ _ _ _ _ Inv1); [exact I | exact Ho]. }
  pose proof (join_repr_of_repr _ _ _ Hself) as Hjoin.
  pose proof (copy_inv_heap_le _ _ _ _ _ _ _ Inv1) as Hle1.
  destruct paths as [|path [|path' rest]].
  - apply sim_at_sim; [exact Hle1 | apply sim_raise].
  - apply sim_at_sim; [exact Hle1|].
    eapply h_Func_as_sql_sim; eauto.
    + eapply copy_inv_reprs; exact Inv1.
    + cbn [joiner_opt_ok joiner_ok]. now apply (join_repr_mono h0).
  - destruct (JSONRemove_rest_node h0 ic lc h1 srcs cs o [] (path :: path' :: rest) path
                (path' :: rest) Inv1 eq_refl)
      as (h2 & h3 & node & E2 & E3 & Hle3 & Hnode & Epure); [discriminate|].
    eapply sim_at_step; [exact E2|].
    eapply sim_at_step; [exact E3|].
    apply sim_at_sim; [exact Hle3|].
    cbv zeta. rewrite Epure. cbn [bind]. now apply HC.
Qed.

End SimulationJSONRemove.

(** *** The compiler on the store *)

Lemma h_has_method_repr h e i o m :
  repr h e i -> nth_error (objs h) i = Some o -> h_has_method o m = has_method e m.
Proof.
  intros H Ho. destruct e; cbn [repr repr_on] in H; unfold repr in H; cbn [repr_on] in H;
    destruct H as [_ H].
  - rewrite Ho in H. injection H as ->. now destruct m.
  - rewrite Ho in H. injection H as ->. now destruct m.
  - destruct H as (p & H & _). rewrite Ho in H. injection H as ->. now destruct m.
  - destruct H as (l & c & H & _). rewrite Ho in H. injection H as ->. now destruct m.
  - destruct H as (l & c & H & _). rewrite Ho in H. injection H as ->. now destruct m.
  - destruct H as (l & c & H & _). rewrite Ho in H. injection H as ->. now destruct m.
  - destruct H as (l & c & fs & H & _). rewrite Ho in H. injection H as ->. now destruct m.
  - destruct H as (l & c & H & _). rewrite Ho in H. injection H as ->. now destruct m.
Qed.

Section SimulationCompiler.

Variable compile_json_path : list string -> string.
Variable conn : Connection.
Variable hc : Method -> nat -> M SQL.
Variable c : Method -> Expr -> outcome SQL.
Hypothesis HC : forall m e i h, repr h e i -> sim (hc m i) h (c m e).

Lemma h_run_method_sim m e i h :
  repr h e i ->
  sim (h_run_method compile_json_path hc conn m i) h
      (run_method compile_json_path c conn m e).
Proof using HC.
  intros H. unfold h_run_method, run_method. destruct e.
  - pose proof H as [_ Ho]. cbn in Ho.
    eapply sim_step; [eapply get_obj_Ok; exact Ho | apply heap_le_refl|].
    destruct m; cbv beta iota zeta; apply sim_raise.
  - pose proof H as [_ Ho]. cbn in Ho.
    eapply sim_step; [eapply get_obj_Ok; exact Ho | apply heap_le_refl|].
    destruct m; cbv beta iota zeta; first [apply sim_raise | apply sim_ret].
  - pose proof H as (_ & p & Ho & Hp).
    eapply sim_step; [eapply get_obj_Ok; exact Ho | apply heap_le_refl|].
    destruct m; cbv beta iota zeta; try apply sim_raise.
    apply sim_pure. now apply (h_Value_as_sql_repr anywhere anywhere).
  - pose proof H as (_ & l & x & Ho & _ & Hl & Hx).
    eapply sim_step; [eapply get_obj_Ok; exact Ho | apply heap_le_refl|].
    destruct m; cbv beta iota zeta; try apply sim_raise.
    + now apply h_Cast_as_sql_sim with (x := x).
    + now apply h_Cast_as_postgresql_sim with (x := x).
  - pose proof H as (_ & l & x & Ho & _ & Hl & Hx).
    eapply sim_step; [eapply get_obj_Ok; exact Ho | apply heap_le_refl|].
    destruct m; cbv beta iota zeta; try apply sim_raise.
    eapply h_Func_as_sql_sim; eauto.
    + constructor; [exact Hx | constructor].
    + exact I.
  - pose proof H as H'. apply repr_on_JSONObject in H'.
    destruct H' as (_ & l & cs & Ho & _ & Hl & Hs).
    eapply sim_step; [eapply get_obj_Ok; exact Ho | apply heap_le_refl|].
    destruct m; cbv beta iota zeta; try apply sim_raise.
    + eapply h_JSONObject_as_sql_sim; eauto. exact I.
    + now apply h_JSONObject_as_postgresql_sim.
    + unfold h_JSONObject_as_oracle, JSONObject_as_oracle.
      eapply h_JSONObject_as_native_sim; eauto.
  - pose proof H as H'. apply repr_on_JSONSet in H'.
    destruct H' as (_ & l & cs & fs & Ho & _).
    eapply sim_step; [eapply get_obj_Ok; exact Ho | apply heap_le_refl|].
    destruct m; cbv beta iota zeta; try apply sim_raise.
    + now apply h_JSONSet_as_sql_sim.
    + now apply h_JSONSet_as_postgresql_sim.
    + now apply h_JSONSet_as_oracle_sim.
  - pose proof H as H'. apply repr_on_JSONRemove in H'.
    destruct H' as (_ & l & cs & Ho & _).
    eapply sim_step; [eapply get_obj_Ok; exact Ho | apply heap_le_refl|].
    destruct m; cbv beta iota zeta; try apply sim_raise.
    + eapply h_JSONRemove_as_sql_sim; eauto.
    + now apply h_JSONRemove_as_postgresql_sim.
    + now apply h_JSONRemove_as_oracle_sim.
Qed.

Lemma h_compiler_compile_sim e i h :
  repr h e i ->
  sim (h_compiler_compile compile_json_path hc conn i) h
      (compiler_compile compile_json_path c conn e).
Proof using HC.
  intros H. unfold h_compiler_compile, compiler_compile.
  destruct (repr_on_obj _ _ _ _ _ H) as (ob & Ho).
  eapply sim_step; [eapply get_obj_Ok; exact Ho | apply heap_le_refl|].
  destruct (vendor_method (vendor conn)) as [vendor_impl|].
  - rewrite (h_has_method_repr _ _ _ _ vendor_impl H Ho).
    destruct (has_method e vendor_impl); now apply h_run_method_sim.
  - now apply h_run_method_sim.
Qed.

End SimulationCompiler.

(** The interpreter on the store computes what the interpreter on trees
    computes, and keeps every object and list of the store it starts
    from. *)
Lemma hcall_sim compile_json_path conn fuel :
  forall m e i h,
    repr h e i ->
    sim (hcall compile_json_path fuel conn m i) h (call compile_json_path fuel conn m e).
Proof.
  induction fuel as [|fuel IH]; intros m e i h H.
  - apply sim_lift.
  - destruct m; cbn [hcall call].
    + now apply h_compiler_compile_sim.
    + now apply h_run_method_sim.
    + now apply h_run_method_sim.
    + now apply h_run_method_sim.
Qed.

Lemma source_expressions_of_le h h' i c l d f fs ps :
  heap_le h h' -> nth_error (objs h) i = Some (OFunc c l d f fs ps) ->
  nth_error (lists h) l <> None ->
  source_expressions_of h' i = source_expressions_of h i
  /\ fields_of h' i = fields_of h i /\ paths_of h' i = paths_of h i.
Proof.
  intros [Ho Hl] H Hne. unfold source_expressions_of, fields_of, paths_of.
  rewrite H, (Ho _ _ I H). destruct (nth_error (lists h) l) as [xs|] eqn:E; [|congruence].
  now rewrite (Hl _ _ I E).
Qed.

(** C5: compiling a node of the store, through [compiler.compile],
    [as_sql], [as_postgresql] or [as_oracle], returns what the method
    returns on the tree the node stands for, and it returns; every object
    and every list of the store is afterwards as it was, so the node's
    source expressions, its [fields] and its [paths] are what they were,
    the node still stands for the same tree, and compiling it again gives
    the same result. *)
Theorem compilation_does_not_mutate_the_node compile_json_path conn m e i h fuel :
  repr h e i -> fuel_of e <= fuel ->
  let r := fst (hcall compile_json_path fuel conn m i h) in
  let h' := snd (hcall compile_json_path fuel conn m i h) in
  r = invoke compile_json_path conn m e
  /\ r <> OutOfFuel
  /\ heap_le h h'
  /\ source_expressions_of h' i = source_expressions_of h i
  /\ fields_of h' i = fields_of h i
  /\ paths_of h' i = paths_of h i
  /\ repr h' e i
  /\ fst (hcall compile_json_path fuel conn m i h') = r.
Proof.
  intros H Hfuel r h'.
  destruct (hcall_sim compile_json_path conn fuel m e i h H) as [Hr Hle].
  fold r in Hr. fold h' in Hle.
  pose proof (repr_mono _ _ _ _ Hle H) as H'.
  destruct (hcall_sim compile_json_path conn fuel m e i h' H') as [Hr' _].
  split; [rewrite Hr; now apply call_fuel_irrelevant|].
  split; [rewrite Hr; now apply call_defined|].
  split; [exact Hle|].
  assert (Hattrs : source_expressions_of h' i = source_expressions_of h i
                   /\ fields_of h' i = fields_of h i /\ paths_of h' i = paths_of h i).
  { pose proof Hle as [Ho Hl].
    destruct e; cbn [repr repr_on] in H; unfold repr in H; cbn [repr_on] in H;
      destruct H as [_ H].
    - unfold source_expressions_of, fields_of, paths_of. now rewrite H, (Ho _ _ I H).
    - unfold source_expressions_of, fields_of, paths_of. now rewrite H, (Ho _ _ I H).
    - destruct H as (p & H & _).
      unfold source_expressions_of, fields_of, paths_of. now rewrite H, (Ho _ _ I H).
    - destruct H as (l & x & H & _ & Hx & _).
      eapply source_expressions_of_le; eauto. congruence.
    - destruct H as (l & x & H & _ & Hx & _).
      eapply source_expressions_of_le; eauto. congruence.
    - destruct H as (l & x & H & _ & Hx & _).
      eapply source_expressions_of_le; eauto. congruence.
    - destruct H as (l & x & fs & H & _ & Hx & _).
      eapply source_expressions_of_le; eauto. congruence.
    - destruct H as (l & x & H & _ & Hx & _).
      eapply source_expressions_of_le; eauto. congruence. }
  destruct Hattrs as (A1 & A2 & A3).
  split; [exact A1|]. split; [exact A2|]. split; [exact A3|]. split; [exact H'|].
  now rewrite Hr', Hr.
Qed.

Lemma compilation_does_not_mutate_the_node_witness :
  let conn := example_connection PostgreSQL true true true in
  let r := fst (hcall example_compile_json_path 20 conn M_as_postgresql 5 example_heap) in
  let h' := snd (hcall example_compile_json_path 20 conn M_as_postgresql 5 example_heap) in
  repr example_heap example_node 5
  /\ fuel_of example_node <= 20
  /\ r = Ok ("JSONB_SET(JSONB_SET(col, %s, %s), %s, %s)",
             [Plain (PStrList ["a"; "b"]); Json (PInt 5);
              Plain (PStrList ["c"]); Json (PStr "x")])
  /\ r = invoke example_compile_json_path conn M_as_postgresql example_node
  /\ r <> OutOfFuel
  /\ heap_le example_heap h'
  /\ source_expressions_of h' 5 = source_expressions_of example_heap 5
  /\ fields_of h' 5 = fields_of example_heap 5
  /\ paths_of h' 5 = paths_of example_heap 5
  /\ repr h' example_node 5
  /\ fst (hcall example_compile_json_path 20 conn M_as_postgresql 5 h') = r.
Proof.
  intros conn r h'.
  assert (H : repr example_heap example_node 5).
  { unfold repr, example_node, example_col, example_int. cbn [repr_on].
    unfold anywhere.
    repeat first [exact I | reflexivity | split | eexists]. }
  assert (Hfuel : fuel_of example_node <= 20) by (vm_compute; lia).
  split; [exact H|]. split; [exact Hfuel|]. split; [reflexivity|].
  exact (compilation_does_not_mutate_the_node
           example_compile_json_path conn M_as_postgresql example_node 5 example_heap 20
           H Hfuel).
Defined.

(** ** The default dialect: [JSON_SET] and [JSON_REMOVE] *)

Lemma mapM_app {A B : Type} (f : A -> outcome B) (l1 l2 : list A) :
  mapM f (l1 ++ l2) = (x <- mapM f l1 ;; y <- mapM f l2 ;; Ok (x ++ y)).
Proof.
  induction l1 as [|a l1 IH]; cbn [app mapM bind].
  - destruct (mapM f l2); reflexivity.
  - destruct (f a); cbn [bind]; try reflexivity. rewrite IH.
    destruct (mapM f l1); cbn [bind]; try reflexivity.
    destruct (mapM f l2); reflexivity.
Qed.

(** Compiling keys and values that alternate: the keys compile to known
    texts, the values are compiled in order. *)
Lemma mapM_alternating {A : Type} (f : Expr -> outcome SQL)
      (key value : A -> Expr) (ksql : A -> SQL) (l : list A) (values : list SQL) :
  (forall x, f (key x) = Ok (ksql x)) ->
  mapM f (map value l) = Ok values ->
  mapM f (flat_map (fun x => [key x; value x]) l)
  = Ok (flat_map (fun xv : A * SQL => [ksql (fst xv); snd xv]) (combine l values)).
Proof.
  intros Hk. revert values. induction l as [|x l IH]; intros values H.
  - simpl in H. now injection H as <-.
  - cbn [map mapM] in H.
    destruct (f (value x)) as [v| |] eqn:Hv; try discriminate. cbn [bind] in H.
    destruct (mapM f (map value l)) as [vs| |] eqn:Hvs; try discriminate.
    injection H as <-.
    cbn [flat_map app mapM combine fst snd]. rewrite Hk, Hv. cbn [bind].
    now rewrite (IH vs eq_refl).
Qed.

Lemma Func_as_sql_default compile_json_path (compile : Expr -> outcome SQL)
      (es : list Expr) (compiled : list SQL) class_function function :
  mapM compile es = Ok compiled ->
  Func_as_sql compile_json_path compile es class_function (Some function) None None
  = Ok (function +++ "(" +++ str_join ", " (map fst compiled) +++ ")",
        concat (map snd compiled)).
Proof.
  intros H. unfold Func_as_sql. rewrite H. cbn [bind join_with].
  now rewrite render_Func_template.
Qed.

Lemma alternating_parts {A : Type} (ksql : A -> SQL) (l : list (A * SQL)) :
  map fst (flat_map (fun xv : A * SQL => [ksql (fst xv); snd xv]) l)
  = flat_map (fun xv : A * SQL => [fst (ksql (fst xv)); fst (snd xv)]) l.
Proof.
  induction l as [|x l IH]; [reflexivity|]. cbn [flat_map app map]. now rewrite IH.
Qed.

Lemma alternating_params {A : Type} (ksql : A -> SQL) (l : list (A * SQL)) :
  concat (map snd (flat_map (fun xv : A * SQL => [ksql (fst xv); snd xv]) l))
  = flat_map (fun xv : A * SQL => snd (ksql (fst xv)) ++ snd (snd xv)) l.
Proof.
  induction l as [|x l IH]; [reflexivity|].
  cbn [flat_map app map concat]. rewrite IH. now rewrite app_assoc.
Qed.

(** X1: on a backend that supports partial updates, [JSONSet.as_sql]
    emits one [JSON_SET] call for all the pairs: the target, then for
    every pair in insertion order the compiled path as a [%s] parameter
    and the value, a [Value] being wrapped in a [Cast] to the output field
    of the node.  Where the vendor has no method of its own (SQLite,
    MySQL) this is what the compiler returns for the node. *)
Theorem JSONSet_as_sql_one_call_for_all_pairs :
  forall compile_json_path conn target o (fields : dict Expr) ts values,
    supports_partial_json_update (features conn) = true ->
    compile compile_json_path conn target = Ok ts ->
    mapM (compile compile_json_path conn)
         (map (fun kv : string * Expr =>
                 if isinstance_Value (snd kv)
                 then Cast (snd kv) (output_field_of (JSONSet [target] o fields))
                 else snd kv)
              fields) = Ok values ->
    let result :=
      ("JSON_SET("
         +++ str_join ", "
               (fst ts :: flat_map (fun kvv : (string * Expr) * SQL => ["%s"; fst (snd kvv)])
                                   (combine fields values))
         +++ ")",
       snd ts
         ++ flat_map (fun kvv : (string * Expr) * SQL =>
                        Plain (PStr (compile_json_path (str_split (fst (fst kvv)) LOOKUP_SEP)))
                          :: snd (snd kvv))
                     (combine fields values)) in
    as_sql compile_json_path conn (JSONSet [target] o fields) = Ok result
    /\ (vendor conn = Sqlite \/ vendor conn = MySQL ->
        compile compile_json_path conn (JSONSet [target] o fields) = Ok result).
Proof.
  intros cjp conn target o fields ts values Hflag Ht Hvs result.
  assert (H : as_sql cjp conn (JSONSet [target] o fields) = Ok result).
  { rewrite as_sql_unfold. cbn [run_method]. unfold JSONSet_as_sql.
    rewrite Hflag. cbn [negb]. cbv zeta.
    rewrite (fold_left_app_flat_map
               (fun kv : string * Expr =>
                  [Value (Raw (PStr (cjp (str_split (fst kv) LOOKUP_SEP)))) None;
                   if isinstance_Value (snd kv)
                   then Cast (snd kv) (output_field_of (JSONSet [target] o fields))
                   else snd kv])).
    change (invoke cjp conn M_compile) with (compile cjp conn).
    erewrite Func_as_sql_default.
    2:{ rewrite mapM_app. cbn [mapM]. rewrite Ht. cbn [bind].
        rewrite (mapM_alternating (compile cjp conn)
                   (fun kv : string * Expr =>
                      Value (Raw (PStr (cjp (str_split (fst kv) LOOKUP_SEP)))) None)
                   _ (fun kv => ("%s", [Plain (PStr (cjp (str_split (fst kv) LOOKUP_SEP)))]))
                   fields values).
        - cbn [bind]. reflexivity.
        - intros kv. now rewrite compile_Value.
        - exact Hvs. }
    unfold result. cbn [map fst snd concat app].
    rewrite (alternating_parts
               (fun kv : string * Expr =>
                  ("%s", [Plain (PStr (cjp (str_split (fst kv) LOOKUP_SEP)))]))).
    rewrite (alternating_params
               (fun kv : string * Expr =>
                  ("%s", [Plain (PStr (cjp (str_split (fst kv) LOOKUP_SEP)))]))).
    reflexivity. }
  split; [exact H|]. intros Hv. rewrite compile_default; [exact H|].
  destruct Hv as [-> | ->]; exact I.
Qed.

Lemma JSONSet_as_sql_one_call_for_all_pairs_witness :
  let conn := example_connection MySQL true true false in
  let node := JSONSet [example_col] None
                      [("a__b", example_int 5); ("c", example_text_col)] in
  let result :=
    ("JSON_SET(col, %s, CAST(%s AS jsonb), %s, name)",
     [Plain (PStr "$.a.b"); Json (PInt 5); Plain (PStr "$.c")]) in
  supports_partial_json_update (features conn) = true
  /\ compile example_compile_json_path conn example_col = Ok example_col_sql
  /\ as_sql example_compile_json_path conn node = Ok result
  /\ (vendor conn = Sqlite \/ vendor conn = MySQL ->
      compile example_compile_json_path conn node = Ok result).
Proof.
  intros conn node result.
  split; [reflexivity|]. split; [reflexivity|].
  exact (JSONSet_as_sql_one_call_for_all_pairs
           example_compile_json_path conn example_col None
           [("a__b", example_int 5); ("c", example_text_col)] example_col_sql
           [("CAST(%s AS jsonb)", [Json (PInt 5)]); ("name", [])]
           eq_refl eq_refl eq_refl).
Defined.

(** X2: on a backend that supports partial updates, [JSONRemove.as_sql]
    emits one [JSON_REMOVE] call: the target, then one [%s] per path, the
    compiled paths being the parameters in the order of the paths. *)
Theorem JSONRemove_as_sql_one_call_for_all_paths :
  forall compile_json_path conn target o (paths : list string) ts,
    supports_partial_json_update (features conn) = true ->
    compile compile_json_path conn target = Ok ts ->
    let result :=
      ("JSON_REMOVE(" +++ str_join ", " (fst ts :: map (fun _ => "%s") paths) +++ ")",
       snd ts ++ map (fun p => Plain (PStr (compile_json_path (str_split p LOOKUP_SEP)))) paths) in
    as_sql compile_json_path conn (JSONRemove [target] o paths) = Ok result
    /\ (vendor conn = Sqlite \/ vendor conn = MySQL ->
        compile compile_json_path conn (JSONRemove [target] o paths) = Ok result).
Proof.
  intros cjp conn target o paths ts Hflag Ht result.
  assert (H : as_sql cjp conn (JSONRemove [target] o paths) = Ok result).
  { rewrite as_sql_unfold. cbn [run_method]. unfold JSONRemove_as_sql.
    rewrite Hflag. cbn [negb]. cbv zeta.
    rewrite (fold_left_app_flat_map
               (fun p : string => [Value (Raw (PStr (cjp (str_split p LOOKUP_SEP)))) None])).
    change (invoke cjp conn M_compile) with (compile cjp conn).
    erewrite (Func_as_sql_default _ _ _
                (ts :: map (fun p => ("%s", [Plain (PStr (cjp (str_split p LOOKUP_SEP)))])) paths)).
    2:{ cbn [app mapM]. rewrite Ht. cbn [bind].
        assert (E : mapM (compile cjp conn)
                      (flat_map (fun p : string =>
                                   [Value (Raw (PStr (cjp (str_split p LOOKUP_SEP)))) None]) paths)
                    = Ok (map (fun p => ("%s", [Plain (PStr (cjp (str_split p LOOKUP_SEP)))]))
                              paths)).
        { induction paths as [|p paths IH]; [reflexivity|].
          cbn [flat_map app mapM map]. rewrite compile_Value. cbn [bind Value_as_sql].
          now rewrite IH. }
        now rewrite E. }
    unfold result. cbn [map fst snd concat]. rewrite !map_map. cbn [fst snd].
    assert (E : concat (map (fun p => [Plain (PStr (cjp (str_split p LOOKUP_SEP)))]) paths)
                = map (fun p => Plain (PStr (cjp (str_split p LOOKUP_SEP)))) paths).
    { clear. induction paths as [|p paths IH]; [reflexivity|].
      cbn [map concat app]. now rewrite IH. }
    rewrite E. reflexivity. }
  split; [exact H|]. intros Hv. rewrite compile_default; [exact H|].
  destruct Hv as [-> | ->]; exact I.
Qed.

Lemma JSONRemove_as_sql_one_call_for_all_paths_witness :
  let conn := example_connection Sqlite true true false in
  let node := JSONRemove [example_col] None ["a__b"; "c"] in
  let result := ("JSON_REMOVE(col, %s, %s)", [Plain (PStr "$.a.b"); Plain (PStr "$.c")]) in
  supports_partial_json_update (features conn) = true
  /\ compile example_compile_json_path conn example_col = Ok example_col_sql
  /\ as_sql example_compile_json_path conn node = Ok result
  /\ (vendor conn = Sqlite \/ vendor conn = MySQL ->
      compile example_compile_json_path conn node = Ok result).
Proof.
  intros conn node result.
  split; [reflexivity|]. split; [reflexivity|].
  exact (JSONRemove_as_sql_one_call_for_all_paths
           example_compile_json_path conn example_col None ["a__b"; "c"] example_col_sql
           eq_refl eq_refl).
Defined.

(** ** [JSONRemove] on Oracle *)

Section JSONRemoveOracle.

Variable compile_json_path : list string -> string.
Variable conn : Connection.
Hypothesis Hvendor : vendor conn = Oracle.
Hypothesis Hflag : supports_partial_json_update (features conn) = true.

Local Notation "'invoke_'" := (invoke compile_json_path conn).
Local Notation "'compile_'" := (compile compile_json_path conn).
Local Notation "'as_oracle_'" := (as_oracle compile_json_path conn).

Lemma JSONRemove_as_oracle_single target o path :
  as_oracle_ (JSONRemove [target] o [path]) =
  (t <- compile_ target ;; Ok (json_transform_remove_call compile_json_path t path)).
Proof using Hflag.
  rewrite as_oracle_unfold. cbn [run_method]. unfold JSONRemove_as_oracle.
  rewrite Hflag. cbn [negb].
  unfold Func_as_sql.
  change (invoke_ M_compile) with compile_.
  cbn [mapM].
  destruct (compile_ target) as [[tsql tparams]| |]; cbn [bind]; try reflexivity.
  unfold json_transform_remove_call, render, Func_template.
  cbn [join_with map fst snd concat]. unfold JSONRemove_join.
  cbn [bind map String.concat]. rewrite app_nil_r. unfold uffff.
  repeat first [rewrite append_assoc | progress cbn [String.append]]. reflexivity.
Qed.

Lemma JSONRemove_as_oracle_rest srcs o path q rest :
  as_oracle_ (JSONRemove srcs o (path :: q :: rest)) =
  as_oracle_ (JSONRemove [JSONRemove srcs o [path]] None (q :: rest)).
Proof using Hflag.
  rewrite as_oracle_unfold at 1. cbn [run_method]. unfold JSONRemove_as_oracle.
  rewrite Hflag. cbn [negb]. reflexivity.
Qed.

Lemma JSONRemove_as_oracle_levels rest :
  forall target o path,
    as_oracle_ (JSONRemove [target] o (path :: rest)) =
    fold_left (fun below p =>
                 t <- below ;; Ok (json_transform_remove_call compile_json_path t p))
              (path :: rest) (compile_ target).
Proof using Hvendor Hflag.
  induction rest as [|q rest IH]; intros target o path.
  - apply JSONRemove_as_oracle_single.
  - rewrite JSONRemove_as_oracle_rest, IH.
    cbn [fold_left]. f_equal.
    rewrite (compile_oracle _ _ _ Hvendor) by reflexivity.
    now rewrite JSONRemove_as_oracle_single.
Qed.

End JSONRemoveOracle.

Lemma fold_remove_calls_Ok compile_json_path (paths : list string) (ts : SQL) :
  fold_left (fun below p =>
               t <- below ;; Ok (json_transform_remove_call compile_json_path t p))
            paths (Ok ts)
  = Ok (fold_left (json_transform_remove_call compile_json_path) paths ts).
Proof.
  revert ts. induction paths as [|p paths IH]; intros ts; [reflexivity|].
  cbn [fold_left bind]. apply IH.
Qed.

Lemma fold_remove_calls_params compile_json_path (paths : list string) (ts : SQL) :
  snd (fold_left (json_transform_remove_call compile_json_path) paths ts) = snd ts.
Proof.
  revert ts. induction paths as [|p paths IH]; intros ts; [reflexivity|].
  cbn [fold_left]. now rewrite IH.
Qed.

(** X3: on Oracle, with partial updates supported, a [JSONRemove] with
    [N] paths compiles to [N] nested [JSON_TRANSFORM] calls, the call for
    the first path innermost around the compiled target; every path is
    written into the SQL text (quoted with [q'...']), so the parameters
    are those of the target and no others. *)
Theorem JSONRemove_oracle_one_nested_call_per_path :
  forall compile_json_path conn target o path rest ts,
    vendor conn = Oracle ->
    supports_partial_json_update (features conn) = true ->
    compile compile_json_path conn target = Ok ts ->
    let result := fold_left (json_transform_remove_call compile_json_path) (path :: rest) ts in
    compile compile_json_path conn (JSONRemove [target] o (path :: rest)) = Ok result
    /\ snd result = snd ts.
Proof.
  intros cjp conn target o path rest ts Hv Hflag Ht result.
  split; [|apply fold_remove_calls_params].
  rewrite (compile_oracle _ _ _ Hv) by reflexivity.
  rewrite (JSONRemove_as_oracle_levels cjp conn Hv Hflag), Ht.
  apply fold_remove_calls_Ok.
Qed.

Lemma JSONRemove_oracle_one_nested_call_per_path_witness :
  let conn := example_connection Oracle true true false in
  vendor conn = Oracle
  /\ supports_partial_json_update (features conn) = true
  /\ compile example_compile_json_path conn example_col = Ok example_col_sql
  /\ fold_left (json_transform_remove_call example_compile_json_path) ["a__b"; "c"]
               example_col_sql
     = ("JSON_TRANSFORM(JSON_TRANSFORM(col, REMOVE q'" +++ uffff +++ "$.a.b" +++ uffff
          +++ "'), REMOVE q'" +++ uffff +++ "$.c" +++ uffff +++ "')", [])
  /\ compile example_compile_json_path conn (JSONRemove [example_col] None ["a__b"; "c"])
     = Ok (fold_left (json_transform_remove_call example_compile_json_path) ["a__b"; "c"]
                     example_col_sql)
  /\ snd (fold_left (json_transform_remove_call example_compile_json_path) ["a__b"; "c"]
                    example_col_sql)
     = snd example_col_sql.
Proof.
  intros conn.
  split; [reflexivity|]. split; [reflexivity|]. split; [reflexivity|].
  split; [reflexivity|].
  exact (JSONRemove_oracle_one_nested_call_per_path
           example_compile_json_path conn example_col None "a__b" ["c"] example_col_sql
           eq_refl eq_refl eq_refl).
Defined.

(** ** [JSONObject] on PostgreSQL *)

Lemma cast_keys_from_alternating {A : Type} (key value : A -> Expr) (l : list A) :
  forall n,
    Nat.even n = true ->
    map (fun ie : nat * Expr => if Nat.even (fst ie) then Cast (snd ie) TextField else snd ie)
        (combine (seq n (length (flat_map (fun x => [key x; value x]) l)))
                 (flat_map (fun x => [key x; value x]) l))
    = flat_map (fun x => [Cast (key x) TextField; value x]) l.
Proof.
  induction l as [|x l IH]; intros n Hn; [reflexivity|].
  cbn [flat_map app length seq combine map fst snd].
  rewrite Hn. rewrite Nat.even_succ, <- Nat.negb_even, Hn. cbn [negb].
  f_equal. f_equal. apply IH.
  rewrite Nat.even_succ, <- Nat.negb_even, Nat.even_succ, <- Nat.negb_even, Hn. reflexivity.
Qed.

(** The keys of a [JSONObject] are its children of even index. *)
Lemma cast_keys_alternating {A : Type} (key value : A -> Expr) (l : list A) :
  cast_keys (flat_map (fun x => [key x; value x]) l)
  = flat_map (fun x => [Cast (key x) TextField; value x]) l.
Proof. unfold cast_keys. now apply cast_keys_from_alternating. Qed.

(** X4: on PostgreSQL, [JSONObject.as_postgresql] casts every key to
    text and leaves every value as it is; on PostgreSQL 16 (with the
    [JSON_OBJECT] function available) the pairs are rendered as
    [(key) VALUE value] inside [JSON_OBJECT(... RETURNING JSONB)], below
    version 16 the keys and values are the flat arguments of
    [JSONB_BUILD_OBJECT]; the keys are parameters in both. *)
Theorem JSONObject_postgresql_casts_keys_to_text :
  forall compile_json_path conn (fields : dict Expr) (values : list SQL),
    vendor conn = PostgreSQL ->
    mapM (compile compile_json_path conn) (map snd fields) = Ok values ->
    let key := "(%s)::" +++ cast_db_type conn TextField in
    let params := flat_map (fun kvv : (string * Expr) * SQL =>
                              Plain (PStr (fst (fst kvv))) :: snd (snd kvv))
                           (combine fields values) in
    (is_postgresql_16 (features conn) = true ->
     has_json_object_function (features conn) = true ->
     compile compile_json_path conn (JSONObject_init fields)
     = Ok ("JSON_OBJECT("
             +++ str_join ", " (map (fun kvv : (string * Expr) * SQL =>
                                       "(" +++ key +++ ") VALUE " +++ fst (snd kvv))
                                    (combine fields values))
             +++ " RETURNING JSONB)",
           params))
    /\ (is_postgresql_16 (features conn) = false ->
        compile compile_json_path conn (JSONObject_init fields)
        = Ok ("JSONB_BUILD_OBJECT("
                +++ str_join ", " (flat_map (fun kvv : (string * Expr) * SQL =>
                                               [key; fst (snd kvv)])
                                            (combine fields values))
                +++ ")",
              params)).
Proof.
  intros cjp conn fields values Hvendor Hvalues key params.
  assert (Hsrc : mapM (compile cjp conn)
                   (flat_map (fun kv : string * Expr =>
                                [Cast (Value (Raw (PStr (fst kv))) None) TextField; snd kv])
                             fields)
                 = Ok (flat_map (fun kvv : (string * Expr) * SQL =>
                                   [(key, [Plain (PStr (fst (fst kvv)))]); snd kvv])
                                (combine fields values))).
  { apply (mapM_alternating (compile cjp conn)
             (fun kv : string * Expr => Cast (Value (Raw (PStr (fst kv))) None) TextField)
             snd (fun kv => (key, [Plain (PStr (fst kv))]))); [|exact Hvalues].
    intros kv. rewrite (compile_postgresql cjp conn _ Hvendor) by reflexivity.
    rewrite as_postgresql_unfold. cbn [run_method]. unfold Cast_as_postgresql.
    change (invoke cjp conn M_compile) with (compile cjp conn).
    rewrite compile_Value. reflexivity. }
  assert (Hparts : forall l : list ((string * Expr) * SQL),
             map fst (flat_map (fun kvv : (string * Expr) * SQL =>
                                  [(key, [Plain (PStr (fst (fst kvv)))]); snd kvv]) l)
             = flat_map (fun kvv : (string * Expr) * SQL => [key; fst (snd kvv)]) l).
  { intros l. induction l as [|x l IH]; [reflexivity|].
    cbn [flat_map app map fst]. now rewrite IH. }
  assert (Hparams : forall l : list ((string * Expr) * SQL),
             concat (map snd (flat_map (fun kvv : (string * Expr) * SQL =>
                                          [(key, [Plain (PStr (fst (fst kvv)))]); snd kvv]) l))
             = flat_map (fun kvv : (string * Expr) * SQL =>
                           Plain (PStr (fst (fst kvv))) :: snd (snd kvv)) l).
  { intros l. induction l as [|x l IH]; [reflexivity|].
    cbn [flat_map app map concat snd]. now rewrite IH. }
  rewrite JSONObject_init_sources.
  rewrite (compile_postgresql cjp conn _ Hvendor) by reflexivity.
  rewrite as_postgresql_unfold. cbn [run_method]. unfold JSONObject_as_postgresql.
  rewrite (cast_keys_alternating (fun kv : string * Expr => Value (Raw (PStr (fst kv))) None) snd).
  split.
  - intros H16 Hflag. rewrite H16.
    unfold JSONObject_as_native, JSONObject_as_sql. rewrite Hflag. cbn [negb].
    unfold Func_as_sql. change (invoke cjp conn M_compile) with (compile cjp conn).
    rewrite Hsrc. cbn [bind join_with]. rewrite Hparts, Hparams.
    rewrite (JSONObject_join_pairs (fun _ => key)
                                   (fun kvv : (string * Expr) * SQL => fst (snd kvv))).
    cbn [bind]. unfold render. cbn [map String.concat].
    repeat first [rewrite append_assoc | progress cbn [String.append]]. reflexivity.
  - intros H16. rewrite H16.
    rewrite (Func_as_sql_default cjp _ _ _ _ _ Hsrc).
    rewrite Hparts, Hparams. reflexivity.
Qed.

Lemma JSONObject_postgresql_casts_keys_to_text_witness :
  let conn16 := example_connection PostgreSQL true true true in
  let conn15 := example_connection PostgreSQL false true false in
  (vendor conn16 = PostgreSQL
   /\ mapM (compile example_compile_json_path conn16) (map snd example_person)
      = Ok example_person_values
   /\ compile example_compile_json_path conn16 (JSONObject_init example_person)
      = Ok ("JSON_OBJECT(((%s)::text) VALUE %s, ((%s)::text) VALUE %s RETURNING JSONB)",
            [Plain (PStr "name"); Plain (PStr "John"); Plain (PStr "age"); Plain (PInt 30)]))
  /\ (vendor conn15 = PostgreSQL
      /\ mapM (compile example_compile_json_path conn15) (map snd example_person)
         = Ok example_person_values
      /\ compile example_compile_json_path conn15 (JSONObject_init example_person)
         = Ok ("JSONB_BUILD_OBJECT((%s)::text, %s, (%s)::text, %s)",
               [Plain (PStr "name"); Plain (PStr "John"); Plain (PStr "age"); Plain (PInt 30)])).
Proof.
  intros conn16 conn15. split.
  - split; [reflexivity|]. split; [reflexivity|].
    exact (proj1 (JSONObject_postgresql_casts_keys_to_text
                    example_compile_json_path conn16 example_person example_person_values
                    eq_refl eq_refl) eq_refl eq_refl).
  - split; [reflexivity|]. split; [reflexivity|].
    exact (proj2 (JSONObject_postgresql_casts_keys_to_text
                    example_compile_json_path conn15 example_person example_person_values
                    eq_refl eq_refl) eq_refl).
Defined.

(** ** [JSONSet] on PostgreSQL: the value handed to [JSONB_SET] *)

(** X5: on PostgreSQL, the update value of a [JSONSet] that is an
    expression with an output field other than JSON is wrapped in
    [TO_JSONB(...)]; an expression with a JSON output field that is not a
    literal [None] is handed to [JSONB_SET] as it compiles. *)
Theorem JSONSet_postgresql_wraps_non_JSON_expressions :
  forall compile_json_path conn target o k v ts vs,
    vendor conn = PostgreSQL ->
    compile compile_json_path conn target = Ok ts ->
    compile compile_json_path conn v = Ok vs ->
    has_resolve_expression v = true ->
    (output_field_of v <> JSONField ->
     compile compile_json_path conn (JSONSet [target] o [(k, v)])
     = Ok (jsonb_set_call ts k ("TO_JSONB(" +++ fst vs +++ ")", snd vs)))
    /\ (output_field_of v = JSONField -> value_is_None v = false ->
        compile compile_json_path conn (JSONSet [target] o [(k, v)])
        = Ok (jsonb_set_call ts k vs)).
Proof.
  intros cjp conn target o k v ts vs Hvendor Ht Hv Hexpr.
  rewrite (compile_postgresql cjp conn _ Hvendor) by reflexivity.
  rewrite (JSONSet_as_postgresql_single cjp conn).
  unfold postgresql_level, JSONSet_postgresql_value. cbn [fst snd].
  rewrite Ht, Hexpr. cbn [bind andb].
  split.
  - intros Hf.
    assert (E : is_JSONField (output_field_of v) = false)
      by (destruct (output_field_of v); [congruence | reflexivity | reflexivity]).
    rewrite E. cbn [negb].
    rewrite compile_default by (rewrite Hvendor; reflexivity).
    rewrite as_sql_unfold. cbn [run_method]. unfold Func_as_sql.
    change (invoke cjp conn M_compile) with (compile cjp conn).
    cbn [mapM]. rewrite Hv. cbn [bind map fst snd concat join_with].
    rewrite render_Func_template. unfold str_join. cbn [String.concat].
    now rewrite app_nil_r.
  - intros Hf Hnone. rewrite Hf. cbn [is_JSONField negb].
    rewrite Hnone, andb_false_r. now rewrite Hv.
Qed.

Lemma JSONSet_postgresql_wraps_non_JSON_expressions_witness :
  let conn := example_connection PostgreSQL true true true in
  (vendor conn = PostgreSQL
   /\ output_field_of example_text_col <> JSONField
   /\ compile example_compile_json_path conn (JSONSet [example_col] None [("a", example_text_col)])
      = Ok ("JSONB_SET(col, %s, TO_JSONB(name))", [Plain (PStrList ["a"])]))
  /\ (output_field_of (example_int 5) = JSONField
      /\ compile example_compile_json_path conn (JSONSet [example_col] None [("a", example_int 5)])
         = Ok ("JSONB_SET(col, %s, %s)", [Plain (PStrList ["a"]); Json (PInt 5)])).
Proof.
  intros conn. split.
  - split; [reflexivity|]. split; [discriminate|].
    exact (proj1 (JSONSet_postgresql_wraps_non_JSON_expressions
                    example_compile_json_path conn example_col None "a" example_text_col
                    example_col_sql ("name", []) eq_refl eq_refl eq_refl eq_refl)
                 ltac:(discriminate)).
  - split; [reflexivity|].
    exact (proj2 (JSONSet_postgresql_wraps_non_JSON_expressions
                    example_compile_json_path conn example_col None "a" (example_int 5)
                    example_col_sql ("%s", [Json (PInt 5)]) eq_refl eq_refl eq_refl eq_refl)
                 eq_refl eq_refl).
Defined.

(** ** Splitting a key into its path *)

Lemma append_nil_r (s : string) : s +++ "" = s.
Proof. induction s as [|c s IH]; simpl; [reflexivity | now rewrite IH]. Qed.

Lemma length_append (a b : string) : String.length (a +++ b) = String.length a + String.length b.
Proof. induction a as [|c a IH]; simpl; [reflexivity | now rewrite IH]. Qed.

Lemma prefix_append (sep s : string) :
  String.prefix sep s = true -> exists rest, s = sep +++ rest.
Proof.
  revert s. induction sep as [|c sep IH]; intros s H.
  - exists s. reflexivity.
  - destruct s as [|c' s]; simpl in H; [discriminate|].
    destruct (Ascii.ascii_dec c c') as [->|]; [|discriminate].
    destruct (IH s H) as [rest ->]. exists rest. reflexivity.
Qed.

(** Skipping the rest of a separator drops as many characters as are
    left to skip. *)
Lemma split_go_skip (sep a rest cur : string) :
  split_go sep (a +++ rest) (String.length a) cur = split_go sep rest 0 cur.
Proof.
  induction a as [|c a IH]; [reflexivity|]. simpl. exact IH.
Qed.

Lemma split_go_not_nil (sep s : string) :
  forall skip cur, split_go sep s skip cur <> [].
Proof.
  induction s as [|c s IH]; intros skip cur.
  - cbn [split_go]. intros H. discriminate H.
  - cbn [split_go]. destruct skip; [|apply IH].
    destruct (String.prefix sep (String c s)); [intros H; discriminate H | apply IH].
Qed.

Lemma concat_cons (sep x : string) (l : list string) :
  l <> [] -> String.concat sep (x :: l) = x +++ sep +++ String.concat sep l.
Proof. destruct l; [congruence | reflexivity]. Qed.

Lemma split_go_join (sep : string) :
  sep <> "" ->
  forall n s cur,
    String.length s <= n ->
    String.concat sep (split_go sep s 0 cur) = cur +++ s.
Proof.
  intros Hsep. induction n as [|n IH]; intros s cur Hn.
  - destruct s; [|simpl in Hn; lia]. simpl. now rewrite append_nil_r.
  - destruct s as [|c s]; [simpl; now rewrite append_nil_r|].
    cbn [split_go]. destruct (String.prefix sep (String c s)) eqn:Hp.
    + destruct (prefix_append _ _ Hp) as [rest Hrest].
      destruct sep as [|c0 sep0]; [congruence|].
      cbn [String.append] in Hrest. injection Hrest as -> ->.
      replace (String.length (String c0 sep0) - 1) with (String.length sep0)
        by (cbn [String.length]; lia).
      rewrite split_go_skip.
      rewrite concat_cons by apply split_go_not_nil.
      rewrite IH.
      * reflexivity.
      * simpl in Hn. rewrite length_append in Hn. lia.
    + rewrite IH by (simpl in Hn; lia).
      rewrite append_assoc. reflexivity.
Qed.

(** X6: splitting a key at a non-empty separator loses nothing: joining
    the segments with the separator gives the key back, there is always at
    least one segment, and a key shorter than the separator is its own
    single segment. *)
Theorem str_split_join_round_trip :
  forall (s sep : string),
    sep <> "" ->
    str_join sep (str_split s sep) = s
    /\ str_split s sep <> []
    /\ (String.length s < String.length sep -> str_split s sep = [s]).
Proof.
  intros s sep Hsep. unfold str_join, str_split. split; [|split].
  - now rewrite (split_go_join sep Hsep (String.length s) s "" (le_n _)).
  - apply split_go_not_nil.
  - assert (H : forall cur, String.length s < String.length sep ->
                            split_go sep s 0 cur = [cur +++ s]).
    { clear Hsep. induction s as [|c s IH]; intros cur Hlen.
      - simpl. now rewrite append_nil_r.
      - cbn [split_go]. destruct (String.prefix sep (String c s)) eqn:Hp.
        + destruct (prefix_append _ _ Hp) as [rest Hrest].
          rewrite Hrest, length_append in Hlen. lia.
        + rewrite IH by (simpl in Hlen; lia). now rewrite append_assoc. }
    intros Hlen. now rewrite H.
Qed.

Lemma str_split_join_round_trip_witness :
  LOOKUP_SEP <> ""
  /\ str_split "a__b__c" LOOKUP_SEP = ["a"; "b"; "c"]
  /\ (str_join LOOKUP_SEP (str_split "a__b__c" LOOKUP_SEP) = "a__b__c"
      /\ str_split "a__b__c" LOOKUP_SEP <> []
      /\ (String.length "a__b__c" < String.length LOOKUP_SEP ->
          str_split "a__b__c" LOOKUP_SEP = ["a__b__c"])).
Proof.
  split; [discriminate|]. split; [reflexivity|].
  apply (str_split_join_round_trip "a__b__c" LOOKUP_SEP). discriminate.
Defined.

(** ** [retry]: falling off the loop, and the sleeps *)

Section RetryLog.

Variables World Ret Err Delay : Type.
Variable f : World -> @Attempt Ret Err * World.

(** The loop over the attempts [a, ..., R]: it does not end without a
    result, and its log is a call followed by a sleep and a call per
    further attempt. *)
Lemma retry_loop_log (R : nat) (d : Delay) :
  forall n a w log,
    a + n = R + 1 -> 1 <= n ->
    exists m,
      m < n
      /\ snd (retry_loop f (Z.of_nat R) d (map Z.of_nat (seq a n)) w log)
         = log ++ Called :: concat (repeat [Slept d; Called] m)
      /\ fst (fst (retry_loop f (Z.of_nat R) d (map Z.of_nat (seq a n)) w log))
         <> ReturnedNone.
Proof.
  induction n as [|n IH]; intros a w log Han Hn; [lia|].
  cbn [seq map retry_loop]. destruct (f w) as [r w1]. destruct r as [v | [| e]].
  - exists 0. split; [lia|]. split; [reflexivity | discriminate].
  - exists 0. split; [lia|]. split; [reflexivity | discriminate].
  - destruct (Z.eqb_spec (Z.of_nat a) (Z.of_nat R)) as [Heq | Hne].
    + exists 0. split; [lia|]. split; [reflexivity | discriminate].
    + destruct (IH (S a) w1 ((log ++ [Called]) ++ [Slept d]) ltac:(lia) ltac:(lia))
        as (m & Hm & Hlog & Hres).
      exists (S m). split; [lia|]. split; [|exact Hres].
      rewrite Hlog. cbn [repeat concat]. rewrite <- !app_assoc. reflexivity.
Qed.

Lemma call_count_calls_and_sleeps (d : Delay) (m : nat) :
  call_count (Called :: concat (repeat [Slept d; Called] m)) = S m.
Proof.
  unfold call_count. cbn [filter length]. f_equal.
  induction m as [|m IH]; [reflexivity|].
  cbn [repeat concat app filter length]. now rewrite IH.
Qed.

(** X9: the wrapper returns [None] without the wrapped function having
    returned exactly when [retries <= 0]; the function is then never
    called and nothing is slept.  With [retries >= 1] the wrapper returns
    a value of the function or raises. *)
Theorem retry_returns_None_iff_no_attempt :
  forall (retries : Z) (backoff_delay : Delay) (w : World),
    ((retries <= 0)%Z ->
     retry f retries backoff_delay w = (ReturnedNone, w, []))
    /\ (fst (fst (retry f retries backoff_delay w)) = ReturnedNone <-> (retries <= 0)%Z).
Proof.
  intros retries d w.
  assert (H0 : (retries <= 0)%Z -> retry f retries d w = (ReturnedNone, w, [])).
  { intros H. unfold retry, py_range.
    replace (Z.to_nat (retries + 1 - 1)) with 0 by lia. reflexivity. }
  split; [exact H0|]. split.
  - intros Hnone. destruct (Z_le_gt_dec retries 0) as [|Hpos]; [assumption|].
    exfalso. unfold retry in Hnone. rewrite py_range_from_1 in Hnone.
    destruct (retry_loop_log (Z.to_nat retries) d (Z.to_nat retries) 1 w []
                ltac:(lia) ltac:(lia)) as (m & _ & _ & Hres).
    apply Hres. rewrite Z2Nat.id by lia. exact Hnone.
  - intros H. now rewrite (H0 H).
Qed.

(** X10: with [retries >= 1] the wrapper sleeps [backoff_delay] between
    two attempts and at no other time: what it does is a call, then a
    sleep and a call per further attempt, so it sleeps once less than it
    calls and never after the last call. *)
Theorem retry_sleeps_between_attempts_only :
  forall (retries : Z) (backoff_delay : Delay) (w : World),
    (1 <= retries)%Z ->
    exists m,
      snd (retry f retries backoff_delay w)
      = Called :: concat (repeat [Slept backoff_delay; Called] m)
      /\ call_count (snd (retry f retries backoff_delay w)) = S m
      /\ (Z.of_nat (S m) <= retries)%Z.
Proof.
  intros retries d w Hr. unfold retry. rewrite py_range_from_1.
  destruct (retry_loop_log (Z.to_nat retries) d (Z.to_nat retries) 1 w []
              ltac:(lia) ltac:(lia)) as (m & Hm & Hlog & _).
  rewrite Z2Nat.id in Hlog by lia. cbn [app] in Hlog.
  exists m. split; [exact Hlog|]. split; [|lia].
  rewrite Hlog. apply call_count_calls_and_sleeps.
Qed.

End RetryLog.

Lemma retry_returns_None_iff_no_attempt_witness :
  ((0 <= 0)%Z -> retry flaky 0 tt 0 = (ReturnedNone, 0, []))
  /\ (fst (fst (retry flaky 0 tt 0)) = ReturnedNone <-> (0 <= 0)%Z).
Proof.
  exact (retry_returns_None_iff_no_attempt nat nat unit unit flaky 0%Z tt 0).
Defined.

Lemma retry_sleeps_between_attempts_only_witness :
  (1 <= 3)%Z
  /\ snd (retry flaky 3 tt 0) = [Called; Slept tt; Called; Slept tt; Called]
  /\ exists m,
      snd (retry flaky 3 tt 0) = Called :: concat (repeat [Slept tt; Called] m)
      /\ call_count (snd (retry flaky 3 tt 0)) = S m
      /\ (Z.of_nat (S m) <= 3)%Z.
Proof.
  split; [lia|]. split; [reflexivity|].
  apply (retry_sleeps_between_attempts_only nat nat unit unit flaky 3%Z tt 0). lia.
Defined.

(** ** [is_module_level_function] *)

Lemma prefix_of_append (sub b : string) : String.prefix sub (sub +++ b) = true.
Proof.
  induction sub as [|c sub IH]; simpl; [now destruct b|].
  destruct (Ascii.ascii_dec c c); [exact IH | congruence].
Qed.

Lemma str_contains_spec (sub s : string) :
  str_contains sub s = true <-> exists a b, s = a +++ sub +++ b.
Proof.
  split.
  - induction s as [|c s IH]; cbn [str_contains]; intros H.
    + rewrite orb_false_r in H. destruct (prefix_append _ _ H) as [rest ->].
      exists "", rest. reflexivity.
    + apply orb_prop in H. destruct H as [H | H].
      * destruct (prefix_append _ _ H) as [rest ->]. exists "", rest. reflexivity.
      * destruct (IH H) as (a & b & ->). exists (String c a), b. reflexivity.
  - intros (a & b & ->). induction a as [|c a IH].
    + cbn [String.append]. destruct (sub +++ b) eqn:E; cbn [str_contains];
        rewrite <- E, prefix_of_append; reflexivity.
    + cbn [String.append str_contains]. rewrite IH. apply orb_true_r.
Qed.

(** X11: [is_module_level_function] accepts exactly the objects that
    [inspect] takes for a function and not for a builtin and whose
    qualified name does not contain [<locals>]; in particular a function
    defined inside another function, whose qualified name is
    [outer.<locals>.name], is rejected. *)
Theorem is_module_level_function_rejects_nested_functions :
  forall func : Callable,
    (is_module_level_function func = true <->
     inspect_isfunction func = true
     /\ inspect_isbuiltin func = false
     /\ ~ exists a b, qualname func = a +++ "<locals>" +++ b)
    /\ (forall outer name,
           qualname func = outer +++ ".<locals>." +++ name ->
           is_module_level_function func = false).
Proof.
  intros func. unfold is_module_level_function.
  assert (Hc : str_contains "<locals>" (qualname func) = false <->
               ~ exists a b, qualname func = a +++ "<locals>" +++ b).
  { rewrite <- str_contains_spec. destruct (str_contains "<locals>" (qualname func));
      split; intros H; congruence. }
  split.
  - destruct (inspect_isfunction func), (inspect_isbuiltin func); cbn [negb orb];
      try (split; [discriminate | intros (H1 & H2 & _); discriminate]).
    destruct (str_contains "<locals>" (qualname func)) eqn:E.
    + split; [discriminate|]. intros (_ & _ & H). apply Hc in H. discriminate.
    + split; [|reflexivity]. intros _. split; [reflexivity|]. split; [reflexivity|].
      now apply Hc.
  - intros outer name Hq.
    destruct (negb (inspect_isfunction func) || inspect_isbuiltin func); [reflexivity|].
    assert (E : str_contains "<locals>" (qualname func) = true).
    { apply str_contains_spec. exists (outer +++ "."), ("." +++ name).
      rewrite Hq, !append_assoc. reflexivity. }
    now rewrite E.
Qed.

(** ** The dummy task backend *)

Lemma upd_snoc {A : Type} (l : list A) (x y : A) : upd (l ++ [x]) (length l) y = l ++ [y].
Proof. induction l as [|a l IH]; simpl; [reflexivity | now rewrite IH]. Qed.

Section DummyBackendProperties.

Variables Task Args Kwargs Time Status World : Type.
Variable NEW : Status.
Variable alias : string.
Variable validate_task : Task -> option Dummy.TaskError.
Variable enqueue_on_commit : Task -> option bool.
Variable RANDOM_STRING_CHARS : list ascii.
Variable random_choices : list ascii -> nat -> World -> list ascii * World.
Variable timezone_now : World -> Time * World.
Variable task_enqueued_send : Dummy.TaskResult Task Args Kwargs Time Status -> World -> World.
Variable on_commit :
  (Dummy.State Task Args Kwargs Time Status World -> Dummy.State Task Args Kwargs Time Status World)
  -> Dummy.State Task Args Kwargs Time Status World
  -> Dummy.State Task Args Kwargs Time Status World.

Local Notation "'State_'" := (Dummy.State Task Args Kwargs Time Status World).
Local Notation "'enqueue_'" :=
  (Dummy.enqueue NEW alias validate_task enqueue_on_commit RANDOM_STRING_CHARS
                 random_choices timezone_now task_enqueued_send on_commit).
Local Notation "'get_random_id_'" := (Dummy.get_random_id RANDOM_STRING_CHARS random_choices).
Local Notation "'store_result_'" := (Dummy._store_result timezone_now task_enqueued_send).

(** The result [enqueue] builds. *)
Local Notation "'new_result_' task args kwargs new_id at_" :=
  {| Dummy.task := task; Dummy.id := new_id; Dummy.status := NEW;
     Dummy.enqueued_at := at_; Dummy.started_at := None; Dummy.finished_at := None;
     Dummy.args := args; Dummy.kwargs := kwargs; Dummy.backend := alias |}
  (at level 10, task at level 9, args at level 9, kwargs at level 9, new_id at level 9,
   at_ at level 9).

Lemma find_result_agree (objs objs' : list (Dummy.TaskResult Task Args Kwargs Time Status))
      result_id rs :
  (forall r, In r rs -> nth_error objs' r = nth_error objs r) ->
  Dummy.find_result objs' result_id rs = Dummy.find_result objs result_id rs.
Proof.
  induction rs as [|r rs IH]; intros H; [reflexivity|].
  cbn [Dummy.find_result]. rewrite (H r (or_introl eq_refl)).
  rewrite IH by (intros r' Hr'; apply H; now right). reflexivity.
Qed.

Lemma find_result_app (objs : list (Dummy.TaskResult Task Args Kwargs Time Status))
      result_id rs1 rs2 :
  Dummy.find_result objs result_id (rs1 ++ rs2)
  = match Dummy.find_result objs result_id rs1 with
    | Some r => Some r
    | None => Dummy.find_result objs result_id rs2
    end.
Proof.
  induction rs1 as [|r rs1 IH]; [reflexivity|].
  cbn [app Dummy.find_result]. destruct (nth_error objs r) as [o|]; [|exact IH].
  destruct (String.eqb (Dummy.id o) result_id); [reflexivity | exact IH].
Qed.

(** What [find_result] finds is the first stored result with the id. *)
Lemma find_result_Some (objs : list (Dummy.TaskResult Task Args Kwargs Time Status))
      result_id rs r :
  Dummy.find_result objs result_id rs = Some r ->
  exists before after o,
    rs = before ++ r :: after
    /\ nth_error objs r = Some o /\ Dummy.id o = result_id
    /\ forall r' o', In r' before -> nth_error objs r' = Some o' -> Dummy.id o' <> result_id.
Proof.
  induction rs as [|r0 rs IH]; [discriminate|]. cbn [Dummy.find_result].
  destruct (nth_error objs r0) as [o0|] eqn:E0.
  - destruct (String.eqb (Dummy.id o0) result_id) eqn:Eid.
    + intros [= <-]. exists [], rs, o0. apply String.eqb_eq in Eid.
      split; [reflexivity|]. split; [exact E0|]. split; [exact Eid|].
      intros r' o' [].
    + intros H. destruct (IH H) as (before & after & o & -> & Ho & Hid & Hb).
      exists (r0 :: before), after, o.
      split; [reflexivity|]. split; [exact Ho|]. split; [exact Hid|].
      intros r' o' [<- | Hin] Hr'.
      * rewrite E0 in Hr'. injection Hr' as <-. now apply String.eqb_neq.
      * eapply Hb; eauto.
  - intros H. destruct (IH H) as (before & after & o & -> & Ho & Hid & Hb).
    exists (r0 :: before), after, o.
    split; [reflexivity|]. split; [exact Ho|]. split; [exact Hid|].
    intros r' o' [<- | Hin] Hr'; [congruence | eapply Hb; eauto].
Qed.

Lemma find_result_None (objs : list (Dummy.TaskResult Task Args Kwargs Time Status))
      result_id rs :
  Dummy.find_result objs result_id rs = None <->
  forall r o, In r rs -> nth_error objs r = Some o -> Dummy.id o <> result_id.
Proof.
  induction rs as [|r0 rs IH]; cbn [Dummy.find_result].
  - split; [intros _ r o [] | reflexivity].
  - destruct (nth_error objs r0) as [o0|] eqn:E0.
    + destruct (String.eqb (Dummy.id o0) result_id) eqn:Eid.
      * split; [discriminate|]. intros H. exfalso.
        apply (H r0 o0 (or_introl eq_refl) E0). now apply String.eqb_eq.
      * rewrite IH. split.
        -- intros H r o [<- | Hin] Hr; [|eapply H; eauto].
           rewrite E0 in Hr. injection Hr as <-. now apply String.eqb_neq.
        -- intros H r o Hin. apply H. now right.
    + rewrite IH. split.
      * intros H r o [<- | Hin] Hr; [congruence | eapply H; eauto].
      * intros H r o Hin. apply H. now right.
Qed.

(** [enqueue] of a valid task that is stored at once. *)
Lemma enqueue_immediate (s : State_) task args kwargs :
  validate_task task = None ->
  enqueue_on_commit task = Some false ->
  let new_id := fst (get_random_id_ (Dummy.world s)) in
  let w1 := snd (get_random_id_ (Dummy.world s)) in
  let stored := new_result_ task args kwargs new_id (Some (fst (timezone_now w1))) in
  enqueue_ task args kwargs s
  = (Dummy.Val (S (length (Dummy.objects s))),
     {| Dummy.objects := (Dummy.objects s ++ [stored]) ++ [stored];
        Dummy.results := Dummy.results s ++ [length (Dummy.objects s)];
        Dummy.world := task_enqueued_send stored (snd (timezone_now w1)) |}).
Proof.
  intros Hvalid Hnow. cbv zeta. unfold Dummy.enqueue. rewrite Hvalid, Hnow.
  destruct (get_random_id_ (Dummy.world s)) as [new_id w1]. cbn [fst snd].
  unfold Dummy._store_result. cbn [Dummy.objects Dummy.results Dummy.world].
  rewrite nth_error_snoc_new.
  destruct (timezone_now w1) as [now w2]. cbn [fst snd].
  unfold Dummy.deepcopy. cbn [Dummy.objects Dummy.results Dummy.world].
  rewrite upd_snoc, nth_error_snoc_new, length_app. cbn [length].
  rewrite Nat.add_1_r. reflexivity.
Qed.

(** X12: a valid task that is not held back until commit is stored at
    once: [enqueue] appends one result with a fresh random id, the status
    [NEW], the given task and arguments and the current time as
    [enqueued_at]; it returns a copy of it, an object of its own that is
    not in [results]; and unless an older result has the same id,
    [get_result] with that id finds the stored result. *)
Theorem enqueue_stores_the_result_and_returns_a_copy :
  forall (s : State_) task args kwargs,
    Dummy.wf s ->
    validate_task task = None ->
    enqueue_on_commit task = Some false ->
    let new_id := fst (get_random_id_ (Dummy.world s)) in
    let now := fst (timezone_now (snd (get_random_id_ (Dummy.world s)))) in
    let stored := new_result_ task args kwargs new_id (Some now) in
    let result := length (Dummy.objects s) in
    exists copy s',
      enqueue_ task args kwargs s = (Dummy.Val copy, s')
      /\ Dummy.results s' = Dummy.results s ++ [result]
      /\ nth_error (Dummy.objects s') result = Some stored
      /\ nth_error (Dummy.objects s') copy = Some stored
      /\ copy <> result
      /\ ~ In copy (Dummy.results s')
      /\ Dummy.wf s'
      /\ (Dummy.find_result (Dummy.objects s) new_id (Dummy.results s) = None ->
          Dummy.get_result new_id s' = (Dummy.Val result, s')).
Proof.
  intros s task args kwargs Hwf Hvalid Hnow new_id now stored result.
  eexists _, _. split; [apply (enqueue_immediate s task args kwargs Hvalid Hnow)|].
  cbn [Dummy.objects Dummy.results Dummy.world]. fold new_id now stored result.
  split; [reflexivity|].
  split; [apply nth_error_snoc_old, nth_error_snoc_new|].
  split.
  { replace (S result) with (length (Dummy.objects s ++ [stored]))
      by (rewrite length_app; cbn [length]; unfold result; lia).
    apply nth_error_snoc_new. }
  split; [lia|].
  split.
  { intros Hin. apply in_app_or in Hin. destruct Hin as [Hin | [Hin | []]]; [|unfold result in *; lia].
    unfold Dummy.wf in Hwf. rewrite Forall_forall in Hwf. specialize (Hwf _ Hin).
    unfold result in *. lia. }
  split.
  { unfold Dummy.wf in *. cbn [Dummy.objects Dummy.results]. rewrite !length_app. cbn [length].
    apply Forall_app. split.
    - eapply Forall_impl; [|exact Hwf]. intros r Hr. cbn beta in *. lia.
    - constructor; [unfold result; lia | constructor]. }
  intros Hfree. unfold Dummy.get_result. cbn [Dummy.objects Dummy.results].
  rewrite find_result_app.
  rewrite (find_result_agree (Dummy.objects s)).
  - rewrite Hfree. cbn [Dummy.find_result].
    rewrite (nth_error_snoc_old _ _ _ _ (nth_error_snoc_new (Dummy.objects s) stored)).
    cbn [Dummy.id]. now rewrite String.eqb_refl.
  - intros r Hin. unfold Dummy.wf in Hwf. rewrite Forall_forall in Hwf. specialize (Hwf _ Hin).
    rewrite <- app_assoc. now rewrite nth_error_app1.
Qed.

(** X13: [enqueue] does not touch what is stored: an invalid task raises
    the validation error and leaves the backend and its world as they
    were (no id is drawn, nothing is stored, no signal is sent); a valid
    task stored at once leaves every older result object as it was, and
    every id that [get_result] found before is resolved to the same
    result afterwards, also when the new random id is the id of an older
    result. *)
Theorem enqueue_keeps_older_results :
  forall (s : State_) task args kwargs,
    Dummy.wf s ->
    (forall e, validate_task task = Some e -> enqueue_ task args kwargs s = (Dummy.Exc e, s))
    /\ (validate_task task = None ->
        enqueue_on_commit task = Some false ->
        let s' := snd (enqueue_ task args kwargs s) in
        (forall r, r < length (Dummy.objects s) ->
                   nth_error (Dummy.objects s') r = nth_error (Dummy.objects s) r)
        /\ (forall result_id r,
               Dummy.get_result result_id s = (Dummy.Val r, s) ->
               Dummy.get_result result_id s' = (Dummy.Val r, s'))).
Proof.
  intros s task args kwargs Hwf. split.
  - intros e He. unfold Dummy.enqueue. now rewrite He.
  - intros Hvalid Hnow. cbv zeta.
    rewrite (enqueue_immediate s task args kwargs Hvalid Hnow). cbn [snd].
    set (stored := Dummy.Build_TaskResult _ _ _ _ _ _ _ _ _ _ _ _ _ _).
    split.
    + intros r Hr. cbn [Dummy.objects]. rewrite <- app_assoc. now rewrite nth_error_app1.
    + intros result_id r Hget. unfold Dummy.get_result in *.
      cbn [Dummy.objects Dummy.results].
      destruct (Dummy.find_result (Dummy.objects s) result_id (Dummy.results s)) as [r0|] eqn:E;
        [|discriminate].
      injection Hget as <-.
      rewrite find_result_app, (find_result_agree (Dummy.objects s)), E; [reflexivity|].
      intros r Hin. unfold Dummy.wf in Hwf. rewrite Forall_forall in Hwf. specialize (Hwf _ Hin).
      rewrite <- app_assoc. now rewrite nth_error_app1.
Qed.

(** X14: [get_result] changes nothing; it returns the first stored
    result with the id it is asked for, and raises [ResultDoesNotExist]
    with that id, and nothing else, exactly when no stored result has it;
    after [clear] it raises for every id. *)
Theorem get_result_finds_the_first_result_with_the_id :
  forall (s : State_) result_id,
    snd (Dummy.get_result result_id s) = s
    /\ (forall r,
           fst (Dummy.get_result result_id s) = Dummy.Val r ->
           exists before after o,
             Dummy.results s = before ++ r :: after
             /\ nth_error (Dummy.objects s) r = Some o /\ Dummy.id o = result_id
             /\ forall r' o', In r' before -> nth_error (Dummy.objects s) r' = Some o' ->
                              Dummy.id o' <> result_id)
    /\ (forall e, fst (Dummy.get_result result_id s) = Dummy.Exc e ->
                  e = Dummy.ResultDoesNotExist result_id)
    /\ (fst (Dummy.get_result result_id s) = Dummy.Exc (Dummy.ResultDoesNotExist result_id)
        <-> forall r o, In r (Dummy.results s) -> nth_error (Dummy.objects s) r = Some o ->
                        Dummy.id o <> result_id)
    /\ Dummy.get_result result_id (Dummy.clear s)
       = (Dummy.Exc (Dummy.ResultDoesNotExist result_id), Dummy.clear s).
Proof.
  intros s result_id. unfold Dummy.get_result.
  destruct (Dummy.find_result (Dummy.objects s) result_id (Dummy.results s)) as [r0|] eqn:E.
  - split; [reflexivity|]. split; [|split; [|split]].
    + intros r [= <-]. now apply find_result_Some.
    + intros e H. discriminate H.
    + split; [discriminate|]. intros H. apply find_result_None in H. congruence.
    + reflexivity.
  - split; [reflexivity|]. split; [|split; [|split]].
    + intros r H. discriminate H.
    + intros e [= <-]. reflexivity.
    + split; [|reflexivity]. intros _. now apply find_result_None.
    + reflexivity.
Qed.

(** X15: when the task is held back until commit and [on_commit] only
    keeps the function for later, [enqueue] stores nothing yet and
    returns a result whose [enqueued_at] is [None]; when the function
    runs, the result is appended to [results] with its [enqueued_at] set,
    and the returned copy is not touched by that. *)
Theorem enqueue_on_commit_returns_a_copy_not_yet_enqueued :
  forall (s : State_) task args kwargs,
    validate_task task = None ->
    enqueue_on_commit task <> Some false ->
    (forall func s0, Dummy.objects (on_commit func s0) = Dummy.objects s0
                     /\ Dummy.results (on_commit func s0) = Dummy.results s0) ->
    let new_id := fst (get_random_id_ (Dummy.world s)) in
    let fresh := new_result_ task args kwargs new_id None in
    let result := length (Dummy.objects s) in
    exists copy s',
      enqueue_ task args kwargs s = (Dummy.Val copy, s')
      /\ Dummy.results s' = Dummy.results s
      /\ nth_error (Dummy.objects s') result = Some fresh
      /\ nth_error (Dummy.objects s') copy = Some fresh
      /\ copy <> result
      /\ Dummy.results (store_result_ result s') = Dummy.results s ++ [result]
      /\ nth_error (Dummy.objects (store_result_ result s')) result
         = Some (Dummy.set_enqueued_at fresh (fst (timezone_now (Dummy.world s'))))
      /\ nth_error (Dummy.objects (store_result_ result s')) copy = Some fresh.
Proof.
  intros s task args kwargs Hvalid Hdefer Hkeep new_id fresh result.
  unfold Dummy.enqueue. rewrite Hvalid.
  destruct (get_random_id_ (Dummy.world s)) as [id1 w1] eqn:Eid.
  cbn [fst] in new_id. cbv zeta.
  set (s1 := {| Dummy.objects := Dummy.objects s ++ [_]; Dummy.results := Dummy.results s;
                Dummy.world := w1 |}).
  set (s2 := match enqueue_on_commit task with
             | Some false => store_result_ (length (Dummy.objects s)) s1
             | _ => on_commit (store_result_ (length (Dummy.objects s))) s1
             end).
  assert (Hs2 : Dummy.objects s2 = Dummy.objects s ++ [fresh]
                /\ Dummy.results s2 = Dummy.results s).
  { unfold s2. destruct (enqueue_on_commit task) as [[|]|]; try congruence;
      destruct (Hkeep (store_result_ (length (Dummy.objects s))) s1) as [-> ->];
      split; reflexivity. }
  destruct Hs2 as [Ho2 Hr2].
  unfold Dummy.deepcopy. rewrite Ho2, nth_error_snoc_new.
  eexists _, _. split; [reflexivity|].
  cbn [Dummy.objects Dummy.results Dummy.world]. fold result.
  split; [exact Hr2|].
  split; [apply nth_error_snoc_old, nth_error_snoc_new|].
  assert (Hcopy : nth_error ((Dummy.objects s ++ [fresh]) ++ [fresh])
                            (length (Dummy.objects s ++ [fresh])) = Some fresh)
    by apply nth_error_snoc_new.
  split; [exact Hcopy|].
  split; [rewrite length_app; cbn [length]; unfold result; lia|].
  unfold Dummy._store_result. cbn [Dummy.objects Dummy.results Dummy.world].
  rewrite (nth_error_snoc_old _ _ _ _ (nth_error_snoc_new (Dummy.objects s) fresh)).
  destruct (timezone_now (Dummy.world s2)) as [now w3]. cbn [fst].
  cbn [Dummy.objects Dummy.results Dummy.world].
  split; [now rewrite Hr2|].
  split.
  - apply nth_error_upd_eq. rewrite !length_app. cbn [length]. unfold result. lia.
  - rewrite nth_error_upd_neq; [exact Hcopy|].
    rewrite length_app. cbn [length]. unfold result. lia.
Qed.

End DummyBackendProperties.

Lemma enqueue_stores_the_result_and_returns_a_copy_witness :
  let s := @Dummy.init string unit unit nat bool nat 0 in
  let new_id := fst (Dummy.get_random_id ["a"; "b"; "c"]%char example_random_choices
                                         (Dummy.world s)) in
  let now := fst ((fun w => (w, S w))
                    (snd (Dummy.get_random_id ["a"; "b"; "c"]%char example_random_choices
                                              (Dummy.world s)))) in
  let stored :=
    {| Dummy.task := "send_mail"; Dummy.id := new_id; Dummy.status := true;
       Dummy.enqueued_at := Some now; Dummy.started_at := None; Dummy.finished_at := None;
       Dummy.args := tt; Dummy.kwargs := tt; Dummy.backend := "default" |} in
  let result := length (Dummy.objects s) in
  Dummy.wf s
  /\ example_validate_task "send_mail" = None
  /\ example_enqueue_on_commit "send_mail" = Some false
  /\ example_enqueue "send_mail" s
     = (Dummy.Val 1, {| Dummy.objects := [stored; stored]; Dummy.results := [0];
                        Dummy.world := 2 |})
  /\ exists copy s',
      example_enqueue "send_mail" s = (Dummy.Val copy, s')
      /\ Dummy.results s' = Dummy.results s ++ [result]
      /\ nth_error (Dummy.objects s') result = Some stored
      /\ nth_error (Dummy.objects s') copy = Some stored
      /\ copy <> result
      /\ ~ In copy (Dummy.results s')
      /\ Dummy.wf s'
      /\ (Dummy.find_result (Dummy.objects s) new_id (Dummy.results s) = None ->
          Dummy.get_result new_id s' = (Dummy.Val result, s')).
Proof.
  intros s new_id now stored result.
  assert (Hwf : Dummy.wf s) by constructor.
  split; [exact Hwf|]. split; [reflexivity|]. split; [reflexivity|].
  split; [reflexivity|].
  exact (enqueue_stores_the_result_and_returns_a_copy
           string unit unit nat bool nat true "default" example_validate_task
           example_enqueue_on_commit ["a"; "b"; "c"]%char example_random_choices
           (fun w => (w, S w)) (fun _ w => w) (fun _ s => s)
           s "send_mail" tt tt Hwf eq_refl eq_refl).
Defined.

Lemma enqueue_keeps_older_results_witness :
  let s := snd (example_enqueue "send_mail" (Dummy.init 0)) in
  Dummy.wf s
  /\ example_enqueue "" s = (Dummy.Exc (Dummy.InvalidTaskError "Task must have a name"), s)
  /\ (forall e, example_validate_task "resize" = Some e ->
                example_enqueue "resize" s = (Dummy.Exc e, s))
  /\ (example_validate_task "resize" = None ->
      example_enqueue_on_commit "resize" = Some false ->
      let s' := snd (example_enqueue "resize" s) in
      (forall r, r < length (Dummy.objects s) ->
                 nth_error (Dummy.objects s') r = nth_error (Dummy.objects s) r)
      /\ (forall result_id r,
             Dummy.get_result result_id s = (Dummy.Val r, s) ->
             Dummy.get_result result_id s' = (Dummy.Val r, s'))).
Proof.
  intros s.
  assert (Hwf : Dummy.wf s) by (repeat constructor).
  split; [exact Hwf|]. split; [reflexivity|].
  exact (enqueue_keeps_older_results
           string unit unit nat bool nat true "default" example_validate_task
           example_enqueue_on_commit ["a"; "b"; "c"]%char example_random_choices
           (fun w => (w, S w)) (fun _ w => w) (fun _ s => s)
           s "resize" tt tt Hwf).
Defined.

Lemma enqueue_on_commit_returns_a_copy_not_yet_enqueued_witness :
  let s := @Dummy.init string unit unit nat bool nat 0 in
  let new_id := fst (Dummy.get_random_id ["a"; "b"; "c"]%char example_random_choices
                                         (Dummy.world s)) in
  let fresh :=
    {| Dummy.task := "deferred"; Dummy.id := new_id; Dummy.status := true;
       Dummy.enqueued_at := None; Dummy.started_at := None; Dummy.finished_at := None;
       Dummy.args := tt; Dummy.kwargs := tt; Dummy.backend := "default" |} in
  let result := length (Dummy.objects s) in
  example_validate_task "deferred" = None
  /\ example_enqueue_on_commit "deferred" <> Some false
  /\ example_enqueue "deferred" s
     = (Dummy.Val 1, {| Dummy.objects := [fresh; fresh]; Dummy.results := [];
                        Dummy.world := 1 |})
  /\ exists copy s',
      example_enqueue "deferred" s = (Dummy.Val copy, s')
      /\ Dummy.results s' = Dummy.results s
      /\ nth_error (Dummy.objects s') result = Some fresh
      /\ nth_error (Dummy.objects s') copy = Some fresh
      /\ copy <> result
      /\ Dummy.results (Dummy._store_result (fun w => (w, S w)) (fun _ w => w) result s')
         = Dummy.results s ++ [result]
      /\ nth_error (Dummy.objects
                      (Dummy._store_result (fun w => (w, S w)) (fun _ w => w) result s'))
                   result
         = Some (Dummy.set_enqueued_at fresh (fst ((fun w => (w, S w)) (Dummy.world s'))))
      /\ nth_error (Dummy.objects
                      (Dummy._store_result (fun w => (w, S w)) (fun _ w => w) result s'))
                   copy
         = Some fresh.
Proof.
  intros s new_id fresh result.
  split; [reflexivity|]. split; [discriminate|]. split; [reflexivity|].
  exact (enqueue_on_commit_returns_a_copy_not_yet_enqueued
           string unit unit nat bool nat true "default" example_validate_task
           example_enqueue_on_commit ["a"; "b"; "c"]%char example_random_choices
           (fun w => (w, S w)) (fun _ w => w) (fun _ s => s)
           s "deferred" tt tt eq_refl ltac:(discriminate)
           (fun _ _ => conj eq_refl eq_refl)).
Defined.
